(** * llm-secret-mcp: the classification, encryption and persistence core

    A shallow embedding of the three core classes of the server
    ([PrivacyDetector], [EncryptionManager], [StorageManager]) together
    with the parts of the Node.js runtime they call ([path], [Date],
    [fs], regular expressions, [Buffer] encodings and [crypto]'s
    AES-256-CBC), and the properties the specification states about them,
    followed by further properties of the same code: how saving, listing
    and reading compose, what the cipher calls answer, how a text is cut
    into segments and sorted, and how the pieces work together.

    The first part holds the definitions, the second the properties. *)

From Stdlib.Strings Require Import String Ascii Byte.
From Stdlib Require Import List NArith ZArith Bool Lia Btauto.
From Stdlib Require Import Permutation Sorted.
From Stdlib Require Import QArith Qminmax Lqa.
From Stdlib Require Floats.PrimFloat Numbers.Cyclic.Int63.Uint63.
From Stdlib Require Floats.FloatAxioms Floats.SpecFloat Floats.FloatOps.
Import ListNotations.
Close Scope Q_scope.

Set Implicit Arguments.
Set Warnings "-inexact-float".

(** ** JavaScript values *)

(** The outcome of a call that may throw. *)
Inductive Result (E A : Type) : Type :=
| Ok (a : A)
| Err (e : E).
Arguments Ok {E A} a.
Arguments Err {E A} e.

(** A JavaScript string is a sequence of UTF-16 code units. *)
Module JS.

Definition jsstring := list N.

(** An ASCII literal as a JavaScript string. *)
Definition str (s : string) : jsstring :=
  map N_of_ascii (list_ascii_of_string s).
Arguments str : simpl never.

Fixpoint eqb (s t : jsstring) : bool :=
  match s, t with
  | [], [] => true
  | a :: s', b :: t' => N.eqb a b && eqb s' t'
  | _, _ => false
  end.

(** [s.endsWith(suffix)] *)
Definition endsWith (s suffix : jsstring) : bool :=
  eqb (skipn (length s - length suffix) s) suffix.

(** [s.slice(0, n)] *)
Definition slice0 (n : nat) (s : jsstring) : jsstring := firstn n s.

(** A Node [Buffer]. *)
Definition Buffer := list byte.

End JS.
Import JS.


(** ** [path] (POSIX flavour) *)
Module Path.

Definition slash : N := 47.
Definition dot : N := 46.

(** The pieces of [p] between slashes, empty pieces included. *)
Fixpoint split_slash (p : jsstring) : list jsstring :=
  match p with
  | [] => [[]]
  | c :: p' =>
      if N.eqb c slash then [] :: split_slash p'
      else match split_slash p' with
           | seg :: segs => (c :: seg) :: segs
           | [] => [[c]]
           end
  end.

Fixpoint join_slash (segs : list jsstring) : jsstring :=
  match segs with
  | [] => []
  | [seg] => seg
  | seg :: segs' => seg ++ slash :: join_slash segs'
  end.

(** [normalizeString]: the segments of a path after dropping empty and
    [.] segments and resolving [..]; the result is kept in reverse. *)
Definition normalize_step (allowAboveRoot : bool)
  (res : list jsstring) (seg : jsstring) : list jsstring :=
  if JS.eqb seg [] || JS.eqb seg [dot] then res
  else if JS.eqb seg [dot; dot] then
    match res with
    | top :: res' =>
        if JS.eqb top [dot; dot] then seg :: res else res'
    | [] => if allowAboveRoot then [seg] else []
    end
  else seg :: res.

Definition normalizeString (p : jsstring) (allowAboveRoot : bool) : jsstring :=
  join_slash (rev (fold_left (normalize_step allowAboveRoot) (split_slash p) [])).

(** [path.normalize(p)] *)
Definition normalize (p : jsstring) : jsstring :=
  match p with
  | [] => [dot]
  | c :: _ =>
      let isAbsolute := N.eqb c slash in
      let trailingSeparator := N.eqb (last p 0%N) slash in
      let q := normalizeString p (negb isAbsolute) in
      match q with
      | [] =>
          if isAbsolute then [slash]
          else if trailingSeparator then [dot; slash] else [dot]
      | _ =>
          let q' := if trailingSeparator then q ++ [slash] else q in
          if isAbsolute then slash :: q' else q'
      end
  end.

(** [path.join(a, b)] *)
Definition join (a b : jsstring) : jsstring :=
  match a, b with
  | [], [] => [dot]
  | [], _ => normalize b
  | _, [] => normalize a
  | _, _ => normalize (a ++ slash :: b)
  end.

Fixpoint strip_trailing_slashes_rev (r : jsstring) : jsstring :=
  match r with
  | c :: r' => if N.eqb c slash then strip_trailing_slashes_rev r' else r
  | [] => []
  end.

(** The last component of [p], trailing slashes ignored. *)
Definition last_component (p : jsstring) : jsstring :=
  last (split_slash (rev (strip_trailing_slashes_rev (rev p)))) [].

(** [path.basename(p)] and [path.basename(p, suffix)] *)
Definition basename (p : jsstring) (suffix : option jsstring) : jsstring :=
  match suffix with
  | None => last_component p
  | Some ext =>
      if (0 <? length ext)%nat && (length ext <=? length p)%nat then
        if JS.eqb ext p then []
        else
          let b := last_component p in
          if JS.endsWith b ext && negb (JS.eqb b ext)
          then firstn (length b - length ext) b
          else b
      else last_component p
  end.

End Path.

(** ** Vocabulary of the path properties *)

Definition no_slash (f : jsstring) : Prop := Forall (fun c => c <> Path.slash) f.

(** A single ordinary component: what [readdir] hands out and what
    [generateFilename] builds. *)
Definition plain_name (f : jsstring) : Prop :=
  f <> [] /\ no_slash f /\ f <> [Path.dot] /\ f <> [Path.dot; Path.dot].

(** [q] is [f] or ends in a slash followed by [f]. *)
Definition ends_in_component (q f : jsstring) : Prop :=
  q = f \/ exists pre, q = pre ++ Path.slash :: f.

Arguments Path.basename : simpl never.
Arguments Path.join : simpl never.
Arguments Path.normalize : simpl never.

(** ** [Date] *)
Module Date.

Local Open Scope Z_scope.

(** The decimal digits of [n], least significant first, [width] of them. *)
Fixpoint digits_rev (width : nat) (n : Z) : jsstring :=
  match width with
  | O => []
  | S w => Z.to_N (48 + n mod 10) :: digits_rev w (n / 10)
  end.

(** [n] in decimal, padded with zeros to [width] digits. *)
Definition pad (width : nat) (n : Z) : jsstring := rev (digits_rev width n).

(** Year, month and day of the [days]-th day since 1970-01-01
    (proleptic Gregorian calendar). *)
Definition civil_from_days (days : Z) : Z * Z * Z :=
  let z := days + 719468 in
  let era := z / 146097 in
  let doe := z - era * 146097 in
  let yoe := (doe - doe / 1460 + doe / 36524 - doe / 146096) / 365 in
  let y := yoe + era * 400 in
  let doy := doe - (365 * yoe + yoe / 4 - yoe / 100) in
  let mp := (5 * doy + 2) / 153 in
  let d := doy - (153 * mp + 2) / 5 + 1 in
  let m := if mp <? 10 then mp + 3 else mp - 9 in
  (if m <=? 2 then y + 1 else y, m, d).

(** [new Date(t).toISOString()] for a time value [t] in milliseconds. *)
Definition toISOString (t : Z) : jsstring :=
  let days := t / 86400000 in
  let ms := t mod 86400000 in
  let '(y, m, d) := civil_from_days days in
  let year :=
    if (0 <=? y) && (y <=? 9999) then pad 4 y
    else (if y <? 0 then str "-" else str "+") ++ pad 6 (Z.abs y) in
  year ++ str "-" ++ pad 2 m ++ str "-" ++ pad 2 d ++ str "T"
    ++ pad 2 (ms / 3600000) ++ str ":" ++ pad 2 (ms / 60000 mod 60)
    ++ str ":" ++ pad 2 (ms / 1000 mod 60) ++ str "." ++ pad 3 (ms mod 1000)
    ++ str "Z".

End Date.

(** ** The world outside the process *)

Inductive Errno : Type :=
| ENOENT | EACCES | EPERM | EISDIR | ENOTDIR | ENOSPC | EIO.

Definition Errno_eqb (a b : Errno) : bool :=
  match a, b with
  | ENOENT, ENOENT | EACCES, EACCES | EPERM, EPERM | EISDIR, EISDIR
  | ENOTDIR, ENOTDIR | ENOSPC, ENOSPC | EIO, EIO => true
  | _, _ => false
  end.

(** The [code] of the project's own errors ([utils/errors.ts]); each
    class prefixes the code with its name. *)
Inductive PrivacyCode : Type := PRIVACY_PROCESS_FAILED.

Inductive EncryptionCode : Type :=
| ENCRYPTION_INIT_FAILED
| ENCRYPTION_INVALID_KEY_SIZE
| ENCRYPTION_KEY_NOT_INITIALIZED
| ENCRYPTION_ENCRYPTION_FAILED
| ENCRYPTION_INVALID_ENCRYPTED_DATA
| ENCRYPTION_DECRYPTION_FAILED.

Inductive StorageCode : Type :=
| STORAGE_INIT_FAILED
| STORAGE_EMPTY_DATA
| STORAGE_SAVE_FAILED
| STORAGE_STORAGE_FULL
| STORAGE_READ_FAILED
| STORAGE_LIST_FAILED.

(** OpenSSL failures surfaced by [crypto]. *)
Inductive CryptoFault : Type :=
| InvalidKeyLength
| InvalidIvLength
| WrongFinalBlockLength
| BadDecrypt.

(** What a [throw] carries.  [RangeError] is the engine's: a call with
    more arguments than its stack takes. *)
Inductive JsError : Type :=
| SystemError (code : Errno)
| CryptoFailure (fault : CryptoFault)
| RangeError
| PrivacyError (code : PrivacyCode)
| EncryptionError (code : EncryptionCode)
| StorageError (code : StorageCode).

(** [error instanceof EncryptionError] *)
Definition instanceof_EncryptionError (e : JsError) : bool :=
  match e with EncryptionError _ => true | _ => false end.

(** [error instanceof StorageError] *)
Definition instanceof_StorageError (e : JsError) : bool :=
  match e with StorageError _ => true | _ => false end.

(** [(error as NodeJS.ErrnoException).code === c] *)
Definition has_code (e : JsError) (c : Errno) : bool :=
  match e with SystemError c' => Errno_eqb c' c | _ => false end.

(** [fs.Stats], the two fields the server reads.  [mtimeMs] is a number
    of milliseconds with a fraction, kept exactly. *)
Record Stats : Type := { mtimeMs : Q; size : Z }.

(** The file system as the process observes it: what each call answers
    for a path ([access] for the check the server asks for: existence of
    the storage directory, readability of the key file).  [write_fault]
    and [mkdir_fault] say which mutating calls the system refuses
    (permissions, missing parent, full disk).  [stamp now] is the
    modification time the system records for a change the process makes
    while its clock reads [now]: the system keeps time by itself, and to
    a fraction of a millisecond. *)
Record FileSystem : Type := {
  readdir : jsstring -> Result Errno (list jsstring);
  stat : jsstring -> Result Errno Stats;
  access : jsstring -> Result Errno unit;
  readFile : jsstring -> Result Errno Buffer;
  write_fault : jsstring -> option Errno;
  mkdir_fault : jsstring -> option Errno;
  stamp : Z -> Q
}.

(** A file system holding nothing, which stamps in whole milliseconds
    of the process clock. *)
Definition empty_fs : FileSystem :=
  {| readdir := fun _ => Err ENOENT;
     stat := fun _ => Err ENOENT;
     access := fun _ => Err ENOENT;
     readFile := fun _ => Err ENOENT;
     write_fault := fun _ => None;
     mkdir_fault := fun _ => None;
     stamp := inject_Z |}.

(** The listing of [d] once the file [p] exists. *)
Definition listing_with (p d : jsstring) (names : list jsstring)
  : list jsstring :=
  let n := Path.basename p None in
  if JS.eqb (Path.join d n) p && negb (existsb (JS.eqb n) names)
  then names ++ [n] else names.

(** The system after [data] was written to [p] while the clock read
    [now]. *)
Definition fs_write (fsys : FileSystem) (p : jsstring) (data : Buffer) (now : Z)
  : FileSystem :=
  {| readdir := fun d =>
       match readdir fsys d with
       | Ok names => Ok (listing_with p d names)
       | Err e => Err e
       end;
     stat := fun q =>
       if JS.eqb q p
       then Ok {| mtimeMs := stamp fsys now; size := Z.of_nat (length data) |}
       else stat fsys q;
     access := fun q => if JS.eqb q p then Ok tt else access fsys q;
     readFile := fun q => if JS.eqb q p then Ok data else readFile fsys q;
     write_fault := write_fault fsys;
     mkdir_fault := mkdir_fault fsys;
     stamp := stamp fsys |}.

(** The system after the one directory [p] was made sure of while the
    clock read [now]: what the path answered with success before, it
    still answers (a directory that is there is left as it is, and no
    file loses its content); otherwise it now answers as a fresh
    directory, and the directory above lists it. *)
Definition fs_mkdir (fsys : FileSystem) (p : jsstring) (now : Z) : FileSystem :=
  {| readdir := fun d =>
       if JS.eqb d p
       then match readdir fsys d with Ok names => Ok names | Err _ => Ok [] end
       else match readdir fsys d with
            | Ok names => Ok (listing_with p d names)
            | Err e => Err e
            end;
     stat := fun q =>
       if JS.eqb q p
       then match stat fsys q with
            | Ok st => Ok st
            | Err _ => Ok {| mtimeMs := stamp fsys now; size := 4096 |}
            end
       else stat fsys q;
     access := fun q => if JS.eqb q p then Ok tt else access fsys q;
     readFile := fun q =>
       if JS.eqb q p
       then match readFile fsys q with
            | Ok data => Ok data
            | Err _ => Err EISDIR
            end
       else readFile fsys q;
     write_fault := write_fault fsys;
     mkdir_fault := mkdir_fault fsys;
     stamp := stamp fsys |}.

(** The directories above [p], the outermost first: what stands before
    each slash of [p], the root apart.  [before] holds what has been
    read of the path. *)
Fixpoint above (before p : jsstring) : list jsstring :=
  match p with
  | [] => []
  | c :: p' =>
      if N.eqb c Path.slash
      then match before with
           | [] => above [c] p'
           | _ :: _ => before :: above (before ++ [c]) p'
           end
      else above (before ++ [c]) p'
  end.

(** What [mkdir(p, { recursive: true })] makes sure of: the directories
    above [p], then [p]. *)
Definition lineage (p : jsstring) : list jsstring := above [] p ++ [p].

(** The directories [dirs] made sure of one after the other.  The first
    one the system refuses ends the call with its code, and what was
    made before it stays. *)
Fixpoint fs_mkdirs (fsys : FileSystem) (dirs : list jsstring) (now : Z)
  : option Errno * FileSystem :=
  match dirs with
  | [] => (None, fsys)
  | d :: dirs' =>
      match mkdir_fault fsys d with
      | Some c => (Some c, fsys)
      | None => fs_mkdirs (fs_mkdir fsys d now) dirs' now
      end
  end.

(** The system after a symbolic link [name] to a missing target was
    created in [d]: [readdir] lists it and [stat] fails on it. *)
Definition fs_dangling_link (fsys : FileSystem) (d name : jsstring)
  : FileSystem :=
  {| readdir := fun d' =>
       match readdir fsys d' with
       | Ok names => Ok (if JS.eqb d' d then names ++ [name] else names)
       | Err e => Err e
       end;
     stat := stat fsys;
     access := access fsys;
     readFile := readFile fsys;
     write_fault := write_fault fsys;
     mkdir_fault := mkdir_fault fsys;
     stamp := stamp fsys |}.

(** The state a call runs in: the file system, the system clock in
    milliseconds, how long each coming asynchronous call takes, and the
    bytes the random generator will hand out. *)
Record World : Type := {
  fsys : FileSystem;
  clock : Z;
  latency : list Z;
  entropy : nat -> byte
}.

(** A computation of the process: it may throw, and it changes the world. *)
Definition IO (A : Type) : Type := World -> Result JsError A * World.

Definition ret {A} (a : A) : IO A := fun w => (Ok a, w).

Definition throw {A} (e : JsError) : IO A := fun w => (Err e, w).

Definition bind {A B} (c : IO A) (k : A -> IO B) : IO B :=
  fun w =>
    match c w with
    | (Ok a, w') => k a w'
    | (Err e, w') => (Err e, w')
    end.

(** [try { c } catch (error) { handler(error) }] *)
Definition try_catch {A} (c : IO A) (handler : JsError -> IO A) : IO A :=
  fun w =>
    match c w with
    | (Ok a, w') => (Ok a, w')
    | (Err e, w') => handler e w'
    end.

(** An expression that may throw. *)
Definition settle {A} (r : Result JsError A) : IO A := fun w => (r, w).

Declare Scope io_scope.
Delimit Scope io_scope with io.
Notation "x <- c ;; k" := (bind c (fun x => k))
  (at level 61, c at next level, right associativity) : io_scope.
Notation "c ;; k" := (bind c (fun _ => k))
  (at level 61, right associativity) : io_scope.

(** An awaited call completes after the time its latency says. *)
Definition elapse (w : World) : World :=
  {| fsys := fsys w;
     clock := (clock w + hd 0 (latency w))%Z;
     latency := tl (latency w);
     entropy := entropy w |}.

Definition lift_errno {A} (r : Result Errno A) : Result JsError A :=
  match r with Ok a => Ok a | Err c => Err (SystemError c) end.

Module Sys.

(** [Date.now()] *)
Definition now : IO Z := fun w => (Ok (clock w), w).

(** [await fsPromises.access(p)] *)
Definition fs_access (p : jsstring) : IO unit :=
  fun w => (lift_errno (access (fsys w) p), elapse w).

(** [await fsPromises.readdir(p)] *)
Definition fs_readdir (p : jsstring) : IO (list jsstring) :=
  fun w => (lift_errno (readdir (fsys w) p), elapse w).

(** [await fsPromises.stat(p)] *)
Definition fs_stat (p : jsstring) : IO Stats :=
  fun w => (lift_errno (stat (fsys w) p), elapse w).

(** [await fsPromises.readFile(p)] *)
Definition fs_readFile (p : jsstring) : IO Buffer :=
  fun w => (lift_errno (readFile (fsys w) p), elapse w).

(** [await fsPromises.writeFile(p, data)] *)
Definition fs_writeFile (p : jsstring) (data : Buffer) : IO unit :=
  fun w =>
    match write_fault (fsys w) p with
    | Some c => (Err (SystemError c), elapse w)
    | None =>
        (Ok tt,
         elapse {| fsys := fs_write (fsys w) p data (clock w);
                   clock := clock w;
                   latency := latency w;
                   entropy := entropy w |})
    end.

(** [await fsPromises.mkdir(p, { recursive: true })] *)
Definition fs_mkdir_p (p : jsstring) : IO unit :=
  fun w =>
    let made := fs_mkdirs (fsys w) (lineage p) (clock w) in
    (match fst made with
     | Some c => Err (SystemError c)
     | None => Ok tt
     end,
     elapse {| fsys := snd made;
               clock := clock w;
               latency := latency w;
               entropy := entropy w |}).

(** [crypto.randomBytes(n)] *)
Definition randomBytes (n : nat) : IO Buffer :=
  fun w =>
    (Ok (map (entropy w) (seq 0 n)),
     {| fsys := fsys w;
        clock := clock w;
        latency := latency w;
        entropy := fun i => entropy w (i + n)%nat |}).

End Sys.

(** ** Arrays *)
Module JSArray.

(** Where [x] lands in an array already in order: in front of the first
    element that the comparison puts after it. *)
Fixpoint insert {A} (cmp : A -> A -> Q) (x : A) (l : list A) : list A :=
  match l with
  | [] => [x]
  | y :: l' => if Qle_bool (cmp x y) 0 then x :: l else y :: insert cmp x l'
  end.

(** [l.sort(cmp)]: the stable sort of [l] by the comparison function. *)
Fixpoint sort {A} (cmp : A -> A -> Q) (l : list A) : list A :=
  match l with
  | [] => []
  | x :: l' => insert cmp x (sort cmp l')
  end.

(** [f(...args)]: the engine puts the arguments of a call on its stack,
    and a call with more of them than the stack takes throws.  How many
    it takes, [limit], depends on the engine and on the stack that is
    left. *)
Definition spread {A} (limit : nat) (args : list A)
  : Result JsError (list A) :=
  if (limit <? length args)%nat then Err RangeError else Ok args.

(** [Math.min(...xs)] for an array whose first element is [x]. *)
Definition Math_min (limit : nat) (x : Q) (xs : list Q) : Result JsError Q :=
  match spread limit (x :: xs) with
  | Ok _ => Ok (fold_left Qmin xs x)
  | Err e => Err e
  end.

(** [Math.max(...xs)] for an array whose first element is [x]. *)
Definition Math_max (limit : nat) (x : Q) (xs : list Q) : Result JsError Q :=
  match spread limit (x :: xs) with
  | Ok _ => Ok (fold_left Qmax xs x)
  | Err e => Err e
  end.

(** [for (const x of l) { s = body(s, x) }] *)
Fixpoint for_of {A S} (l : list A) (body : S -> A -> IO S) (s : S) : IO S :=
  match l with
  | [] => ret s
  | x :: l' => bind (body s x) (for_of l' body)
  end.

End JSArray.

(** ** Configuration ([config.ts]) *)
Module Config.

Record StorageConfig : Type := {
  basePath : jsstring;
  privateDir : jsstring;
  metadataEnabled : bool
}.

Record EncryptionConfig : Type := {
  keyFile : jsstring;
  keySize : nat
}.

End Config.

(** ** Shared types ([core/types.ts]) *)

Record StoredThought : Type := {
  id : jsstring;
  filepath : jsstring;
  timestamp : Q;
  sizeBytes : Z
}.

Record StorageStats : Type := {
  count : Z;
  totalSizeBytes : Z;
  oldestTimestamp : Q;
  newestTimestamp : Q
}.

(** ** [StorageManager] ([core/storage.ts]) *)
Module StorageManager.
Section Manager.

Variable config : Config.StorageConfig.

(** How many arguments a call takes in the engine that runs the
    manager. *)
Variable argumentLimit : nat.

Local Open Scope io_scope.

Definition privateDir : jsstring :=
  Path.join (Config.basePath config) (Config.privateDir config).

Definition ensurePrivateDirectory : IO unit :=
  try_catch (Sys.fs_access privateDir)
    (fun _ => Sys.fs_mkdir_p privateDir).

Definition initialize : IO unit :=
  try_catch ensurePrivateDirectory
    (fun _ => throw (StorageError STORAGE_INIT_FAILED)).

(** [s.replace(/[-:T.Z]/g, '')] *)
Definition strip_punctuation (s : jsstring) : jsstring :=
  filter (fun c => negb (existsb (N.eqb c) (str "-:T.Z"))) s.

Definition generateFilename : IO jsstring :=
  now <- Sys.now ;;
  let timestamp := JS.slice0 14 (strip_punctuation (Date.toISOString now)) in
  ret (str "private_thought_" ++ timestamp ++ str ".enc").

Definition saveEncryptedThought (encryptedData : Buffer) : IO StoredThought :=
  try_catch
    (if (length encryptedData =? 0)%nat
     then throw (StorageError STORAGE_EMPTY_DATA)
     else
       ensurePrivateDirectory ;;
       filename <- generateFilename ;;
       let filepath := Path.join privateDir filename in
       Sys.fs_writeFile filepath encryptedData ;;
       now <- Sys.now ;;
       ret {| id := Path.basename filename (Some (str ".enc"));
              filepath := filepath;
              timestamp := inject_Z now;
              sizeBytes := Z.of_nat (length encryptedData) |})
    (fun error =>
       if instanceof_StorageError error then throw error
       else if has_code error ENOSPC
       then throw (StorageError STORAGE_STORAGE_FULL)
       else throw (StorageError STORAGE_SAVE_FAILED)).

Definition getSavedFiles : IO (list jsstring) :=
  try_catch
    (files <- Sys.fs_readdir privateDir ;;
     ret (map (fun file => Path.join privateDir file)
            (filter (fun file => JS.endsWith file (str ".enc")) files)))
    (fun error =>
       if has_code error ENOENT then ret []
       else throw (StorageError STORAGE_LIST_FAILED)).

(** One turn of the loop of [getThoughtMetadata]. *)
Definition metadata_step (thoughtsMetadata : list StoredThought)
  (filepath : jsstring) : IO (list StoredThought) :=
  try_catch
    (stats <- Sys.fs_stat filepath ;;
     let filename := Path.basename filepath None in
     ret (thoughtsMetadata ++
            [ {| id := Path.basename filename (Some (str ".enc"));
                 filepath := filepath;
                 timestamp := mtimeMs stats;
                 sizeBytes := size stats |} ]))
    (fun _ => ret thoughtsMetadata).

Definition getThoughtMetadata : IO (list StoredThought) :=
  filePaths <- getSavedFiles ;;
  thoughtsMetadata <- JSArray.for_of filePaths metadata_step [] ;;
  ret (JSArray.sort (fun a b => (timestamp b - timestamp a)%Q) thoughtsMetadata).

Definition readEncryptedThought (filepath : jsstring) : IO Buffer :=
  try_catch (Sys.fs_readFile filepath)
    (fun _ => throw (StorageError STORAGE_READ_FAILED)).

Definition getStorageStats : IO StorageStats :=
  thoughts <- getThoughtMetadata ;;
  match thoughts with
  | [] =>
      ret {| count := 0; totalSizeBytes := 0;
             oldestTimestamp := 0; newestTimestamp := 0 |}
  | t :: rest =>
      let totalSizeBytes :=
        fold_left (fun sum thought => (sum + sizeBytes thought)%Z) thoughts 0%Z in
      let timestamps := map timestamp rest in
      oldestTimestamp <-
        settle (JSArray.Math_min argumentLimit (timestamp t) timestamps) ;;
      newestTimestamp <-
        settle (JSArray.Math_max argumentLimit (timestamp t) timestamps) ;;
      ret {| count := Z.of_nat (length thoughts);
             totalSizeBytes := totalSizeBytes;
             oldestTimestamp := oldestTimestamp;
             newestTimestamp := newestTimestamp |}
  end.

End Manager.
End StorageManager.

(** ** Vocabulary of the storage properties *)
Module StorageSpec.
Section Spec.

Variable config : Config.StorageConfig.

(** The names of a listing that the store takes for thoughts. *)
Definition enc_names (files : list jsstring) : list jsstring :=
  filter (fun file => JS.endsWith file (str ".enc")) files.

(** The record of the file at [p] whose [stat] answered [st]. *)
Definition record_of (p : jsstring) (st : Stats) : StoredThought :=
  {| id := Path.basename (Path.basename p None) (Some (str ".enc"));
     filepath := p;
     timestamp := mtimeMs st;
     sizeBytes := size st |}.

(** The records of those of [paths] whose [stat] succeeds, in order. *)
Definition stat_records (fs : FileSystem) (paths : list jsstring)
  : list StoredThought :=
  flat_map (fun p => match stat fs p with
                     | Ok st => [record_of p st]
                     | Err _ => []
                     end) paths.

(** The records [listMetadata] has to account for, before sorting. *)
Definition listed_records (fs : FileSystem) (files : list jsstring)
  : list StoredThought :=
  stat_records fs
    (map (Path.join (StorageManager.privateDir config)) (enc_names files)).

(** Newest first, equal timestamps allowed next to each other. *)
Definition newest_first (l : list StoredThought) : Prop :=
  StronglySorted (fun a b => (timestamp b <= timestamp a)%Q) l.

(** Newest first with no two equal timestamps. *)
Definition strictly_newest_first (l : list StoredThought) : Prop :=
  StronglySorted (fun a b => (timestamp b < timestamp a)%Q) l.

Definition sum_sizes (l : list StoredThought) : Z :=
  fold_right (fun t acc => (sizeBytes t + acc)%Z) 0%Z l.

Definition is_minimum (m : Q) (xs : list Q) : Prop :=
  In m xs /\ forall x, In x xs -> (m <= x)%Q.

Definition is_maximum (m : Q) (xs : list Q) : Prop :=
  In m xs /\ forall x, In x xs -> (x <= m)%Q.

(** The name [generateFilename] gives a file created at time [now]. *)
Definition filename_at (now : Z) : jsstring :=
  str "private_thought_"
    ++ JS.slice0 14 (StorageManager.strip_punctuation (Date.toISOString now))
    ++ str ".enc".

(** The world once [data] has been written to [p] and the call returned. *)
Definition after_write (w : World) (p : jsstring) (data : Buffer) : World :=
  elapse {| fsys := fs_write (fsys w) p data (clock w);
            clock := clock w;
            latency := latency w;
            entropy := entropy w |}.

(** The world [ensurePrivateDirectory] leaves when [access] has failed
    and [mkdir] was called. *)
Definition after_mkdir (w : World) : World :=
  let dir := StorageManager.privateDir config in
  elapse {| fsys := snd (fs_mkdirs (fsys w) (lineage dir) (clock (elapse w)));
            clock := clock (elapse w);
            latency := latency (elapse w);
            entropy := entropy w |}.

(** No asynchronous call takes negative time. *)
Definition time_moves_forward (w : World) : Prop :=
  Forall (fun d => (0 <= d)%Z) (latency w).

Definition empty_stats : StorageStats :=
  {| count := 0; totalSizeBytes := 0;
     oldestTimestamp := 0; newestTimestamp := 0 |}.

End Spec.
End StorageSpec.

(** ** Sample states of the store *)
Module Sample.

Definition config : Config.StorageConfig :=
  {| Config.basePath := str "";
     Config.privateDir := str "private";
     Config.metadataEnabled := true |}.

(** An engine whose calls take 125000 arguments. *)
Definition limit : nat := 125 * 1000.

Definition world (fs : FileSystem) : World :=
  {| fsys := fs; clock := 1712620354984; latency := [3; 1; 2; 5]%Z;
     entropy := fun i => match Byte.of_N (N.of_nat (i * 7 + 1) mod 256) with
                         | Some b => b
                         | None => x00
                         end |}.

(** No storage directory at all, on a system that stamps a change two
    milliseconds and a fraction after the clock reading of the call. *)
Definition fs_absent : FileSystem :=
  {| readdir := readdir empty_fs;
     stat := stat empty_fs;
     access := access empty_fs;
     readFile := readFile empty_fs;
     write_fault := write_fault empty_fs;
     mkdir_fault := mkdir_fault empty_fs;
     stamp := fun now => (inject_Z now + 2.0618)%Q |}.

(** Two thoughts, a key file and a dangling link. *)
Definition fs_mixed : FileSystem :=
  fs_dangling_link
    (fs_write
       (fs_write
          (fs_write (fs_mkdir empty_fs (str "private") 1000)
             (str "private/private_thought_20240408235234.enc")
             (repeat x00 32) 1712620354000)
          (str "private/key.txt") (repeat x41 44) 1712620300000)
       (str "private/private_thought_20240408235301.enc")
       (repeat x00 48) 1712620381000)
    (str "private") (str "lost.enc").

(** [fs_mixed] without the key file. *)
Definition fs_thoughts_only : FileSystem :=
  fs_dangling_link
    (fs_write
       (fs_write (fs_mkdir empty_fs (str "private") 1000)
          (str "private/private_thought_20240408235234.enc")
          (repeat x00 32) 1712620354000)
       (str "private/private_thought_20240408235301.enc")
       (repeat x00 48) 1712620381000)
    (str "private") (str "lost.enc").

(** Two thoughts whose files carry the same modification time. *)
Definition fs_ties : FileSystem :=
  fs_write
    (fs_write (fs_mkdir empty_fs (str "private") 1000)
       (str "private/private_thought_20240408235234.enc")
       (repeat x00 32) 1712620354000)
    (str "private/private_thought_20240408235235.enc")
    (repeat x00 32) 1712620354000.

(** What [readdir] answers for the directory of [fs_mixed]. *)
Definition listing_mixed : list jsstring :=
  [ str "private_thought_20240408235234.enc"; str "key.txt";
    str "private_thought_20240408235301.enc"; str "lost.enc" ].

Definition listing_thoughts_only : list jsstring :=
  [ str "private_thought_20240408235234.enc";
    str "private_thought_20240408235301.enc"; str "lost.enc" ].

(** The metadata of the two thoughts of [fs_mixed], newest first. *)
Definition thoughts_mixed : list StoredThought :=
  [ {| id := str "private_thought_20240408235301";
       filepath := str "private/private_thought_20240408235301.enc";
       timestamp := 1712620381000;
       sizeBytes := 48 |};
    {| id := str "private_thought_20240408235234";
       filepath := str "private/private_thought_20240408235234.enc";
       timestamp := 1712620354000;
       sizeBytes := 32 |} ].

(** The names of 140000 thoughts, saved one a second. *)
Definition names_large : list jsstring :=
  map (fun i => StorageSpec.filename_at (1712620354000 + 1000 * Z.of_nat i))
    (seq 0 (140 * 1000)).

(** A store that holds them and nothing else, every file of 32 bytes. *)
Definition fs_large : FileSystem :=
  {| readdir := fun d =>
       if JS.eqb d (str "private") then Ok names_large else Err ENOENT;
     stat := fun p =>
       if existsb (fun name => JS.eqb p (Path.join (str "private") name))
            names_large
       then Ok {| mtimeMs := 1712620354000; size := 32 |}
       else Err ENOENT;
     access := fun p =>
       if JS.eqb p (str "private") then Ok tt else Err ENOENT;
     readFile := fun _ => Err ENOENT;
     write_fault := fun _ => None;
     mkdir_fault := fun _ => None;
     stamp := inject_Z |}.

(** A first thought saved into [fs_absent]. *)
Definition blob : Buffer := repeat x01 32.

Definition saved : Result JsError StoredThought * World :=
  StorageManager.saveEncryptedThought config blob (world fs_absent).

(** What [save] returns for it. *)
Definition saved_thought : StoredThought :=
  {| id := str "private_thought_20240408235234";
     filepath := str "private/private_thought_20240408235234.enc";
     timestamp := 1712620354990;
     sizeBytes := 32 |}.

(** What [listMetadata] returns for it right afterwards. *)
Definition listed_thought : StoredThought :=
  {| id := str "private_thought_20240408235234";
     filepath := str "private/private_thought_20240408235234.enc";
     timestamp := 1712620354990.0618;
     sizeBytes := 32 |}.

End Sample.

(** ** Regular expressions

    The fragment of ECMAScript regular expressions the detector writes:
    literal characters, [\s], [\s+], sequence, alternation and [\b], with
    the [i] and [g] flags.  Matching follows the specification's
    continuation-passing matchers, backtracking in the order it
    prescribes. *)
Module Regex.

Inductive atom : Type :=
| Char (c : N)
| WhiteSpace.

Inductive regex : Type :=
| Empty
| Atom (a : atom)
| Plus (a : atom)
| Seq (r1 r2 : regex)
| Alt (r1 r2 : regex)
| WordBoundary.

Record RegExp : Type := {
  source : regex;
  ignoreCase : bool;
  global : bool
}.

(** The characters of [s], one after the other. *)
Definition literal (s : jsstring) : regex :=
  fold_right (fun c r => Seq (Atom (Char c)) r) Empty s.

Definition lit (s : string) : regex := literal (str s).

(** [(s|s1|...|sn)] *)
Fixpoint one_of (s : string) (ss : list string) : regex :=
  match ss with
  | [] => lit s
  | s' :: ss' => Alt (lit s) (one_of s' ss')
  end.

(** [r1 r2 ... rn] *)
Definition seq_of (rs : list regex) : regex := fold_right Seq Empty rs.

(** [\s+] *)
Definition spaces : regex := Plus WhiteSpace.

(** [\s]: white space and line terminators. *)
Definition is_whitespace (c : N) : bool :=
  ((9 <=? c) && (c <=? 13) || (c =? 32) || (c =? 160) || (c =? 5760)
   || (8192 <=? c) && (c <=? 8202) || (c =? 8232) || (c =? 8233)
   || (c =? 8239) || (c =? 8287) || (c =? 12288) || (c =? 65279))%N.

(** [\w] *)
Definition is_word_char (c : N) : bool :=
  ((97 <=? c) && (c <=? 122) || (65 <=? c) && (c <=? 90)
   || (48 <=? c) && (c <=? 57) || (c =? 95))%N.

Definition ascii_upper (c : N) : N :=
  if ((97 <=? c) && (c <=? 122))%N then (c - 32)%N else c.

Section Engine.

(** [toUpperCase] on a single code unit above 127, where it yields a
    single code unit (the unit itself where it does not). *)
Variable unicode_upper : N -> N.

(** [Canonicalize] for a pattern without the [u] flag. *)
Definition canonicalize (c : N) : N :=
  if (c <? 128)%N then ascii_upper c
  else let cu := unicode_upper c in if (cu <? 128)%N then c else cu.

Definition atom_matches (ic : bool) (a : atom) (c : N) : bool :=
  match a with
  | Char p => if ic then N.eqb (canonicalize p) (canonicalize c) else N.eqb p c
  | WhiteSpace => is_whitespace c
  end.

(** A position in the input: the characters before it, nearest first, and
    the characters from it on. *)
Definition state : Type := jsstring * jsstring.

Definition is_word_boundary (x : state) : bool :=
  let a := match fst x with c :: _ => is_word_char c | [] => false end in
  let b := match snd x with c :: _ => is_word_char c | [] => false end in
  xorb a b.

(** [a+], greedy: one match of [a], then as many more as the rest of the
    pattern allows. *)
Fixpoint plus_loop (ic : bool) (a : atom) (before after : jsstring)
  (k : state -> option state) : option state :=
  match after with
  | c :: rest =>
      if atom_matches ic a c then
        match plus_loop ic a (c :: before) rest k with
        | Some y => Some y
        | None => k (c :: before, rest)
        end
      else None
  | [] => None
  end.

(** The matcher of [r]: it tries [r] at [x] and hands each way it matches
    to the continuation [k], first success wins. *)
Fixpoint matcher (ic : bool) (r : regex) (x : state)
  (k : state -> option state) : option state :=
  match r with
  | Empty => k x
  | Atom a =>
      match snd x with
      | c :: rest =>
          if atom_matches ic a c then k (c :: fst x, rest) else None
      | [] => None
      end
  | Plus a => plus_loop ic a (fst x) (snd x) k
  | Seq r1 r2 => matcher ic r1 x (fun y => matcher ic r2 y k)
  | Alt r1 r2 =>
      match matcher ic r1 x k with
      | Some y => Some y
      | None => matcher ic r2 x k
      end
  | WordBoundary => if is_word_boundary x then k x else None
  end.

(** A match of [re] starting exactly at [x]: where it ends. *)
Definition match_at (re : RegExp) (x : state) : option state :=
  matcher (ignoreCase re) (source re) x (fun y => Some y).

(** Does [re] match somewhere from [x] on? *)
Fixpoint search (re : RegExp) (before after : jsstring) : bool :=
  match match_at re (before, after) with
  | Some _ => true
  | None =>
      match after with
      | c :: rest => search re (c :: before) rest
      | [] => false
      end
  end.

(** [re.test(s)] for a pattern without the [g] and [y] flags. *)
Definition test (re : RegExp) (s : jsstring) : bool := search re [] s.

(** The matches [s.match(re)] collects for a pattern with the [g] flag,
    counted.  [skip] is how many characters the last match still covers;
    after an empty match the search moves on by one. *)
Fixpoint count_from (re : RegExp) (before after : jsstring) (skip : nat)
  : nat :=
  match skip, after with
  | S n, c :: rest => count_from re (c :: before) rest n
  | S _, [] => 0
  | O, _ =>
      match match_at re (before, after) with
      | Some (_, after') =>
          match after with
          | c :: rest =>
              S (count_from re (c :: before) rest
                   (length after - length after' - 1))
          | [] => 1
          end
      | None =>
          match after with
          | c :: rest => count_from re (c :: before) rest 0
          | [] => 0
          end
      end
  end.

(** [(s.match(re) || []).length] *)
Definition match_count (re : RegExp) (s : jsstring) : nat :=
  count_from re [] s 0.

(** [s.split(re)] from a position on: [piece] holds, reversed, the
    characters since the last separator. *)
Fixpoint split_from (re : RegExp) (before after piece : jsstring)
  (skip : nat) : list jsstring :=
  match skip, after with
  | S n, c :: rest => split_from re (c :: before) rest [] n
  | S _, [] => [rev piece]
  | O, [] => [rev piece]
  | O, c :: rest =>
      match match_at re (before, after) with
      | None => split_from re (c :: before) rest (c :: piece) 0
      | Some (_, after') =>
          match (length after - length after')%nat, piece with
          | O, [] => split_from re (c :: before) rest [c] 0
          | O, _ :: _ => rev piece :: split_from re (c :: before) rest [c] 0
          | S n, _ => rev piece :: split_from re (c :: before) rest [] n
          end
      end
  end.

(** [s.split(re)] *)
Definition split (re : RegExp) (s : jsstring) : list jsstring :=
  match s with
  | [] => match match_at re ([], []) with Some _ => [] | None => [[]] end
  | _ => split_from re [] s [] 0
  end.

End Engine.
End Regex.

(** ** [new RegExp(source)]: the pattern grammar

    The parser of the constructor, for the patterns of the fragment
    above: pattern characters, [\s], [\b], a backslash before a syntax
    character or a slash, [+] after a single character or [\s], groups
    and alternation.  It answers [None] for any other source: one the
    constructor rejects with a [SyntaxError] (a quantifier with nothing
    to repeat, a group left open, a backslash at the end), or one that
    uses a construct outside the fragment.  The size of an expression is
    not bounded. *)
Module RegExpSyntax.
Import Regex.

(** [SyntaxCharacter]: one of [^ $ \ . * + ? ( ) [ ] { } |] *)
Definition syntax_characters : jsstring := str "^$\.*+?()[]{}|".

Definition is_syntax_character (c : N) : bool :=
  existsb (N.eqb c) syntax_characters.

Definition backslash : N := 92.
Definition slash : N := 47.
Definition open_paren : N := 40.
Definition close_paren : N := 41.
Definition bar : N := 124.
Definition plus : N := 43.
Definition star : N := 42.
Definition question : N := 63.
Definition open_brace : N := 123.
Definition letter_b : N := 98.
Definition letter_s : N := 115.

(** Does a quantifier start here? *)
Definition at_quantifier (s : jsstring) : bool :=
  match s with
  | c :: _ =>
      (c =? plus)%N || (c =? star)%N || (c =? question)%N
      || (c =? open_brace)%N
  | [] => false
  end.

(** [Atom Quantifier?] for an atom of one character: of the quantifiers,
    the greedy [+] is in the fragment. *)
Definition quantified (a : atom) (s : jsstring) : option (regex * jsstring) :=
  match s with
  | c :: rest =>
      if (c =? plus)%N then
        match rest with
        | lazy :: _ =>
            if (lazy =? question)%N then None else Some (Plus a, rest)
        | [] => Some (Plus a, rest)
        end
      else if at_quantifier s then None
      else Some (Atom a, s)
  | [] => Some (Atom a, [])
  end.

Section Terms.

(** The parser of what stands between the parentheses of a group. *)
Variable disjunction : jsstring -> option (regex * jsstring).

(** [( Disjunction )], the opening parenthesis read. *)
Definition group (s : jsstring) : option (regex * jsstring) :=
  match s with
  | c :: _ =>
      if (c =? question)%N then None
      else
        match disjunction s with
        | Some (r, close :: rest) =>
            if (close =? close_paren)%N && negb (at_quantifier rest)
            then Some (r, rest)
            else None
        | _ => None
        end
  | [] => None
  end.

(** [\ AtomEscape] and the assertion [\b], the backslash read. *)
Definition escaped (s : jsstring) : option (regex * jsstring) :=
  match s with
  | c :: rest =>
      if (c =? letter_b)%N then Some (WordBoundary, rest)
      else if (c =? letter_s)%N then quantified WhiteSpace rest
      else if is_syntax_character c || (c =? slash)%N
      then quantified (Char c) rest
      else None
  | [] => None
  end.

(** [Term] *)
Definition term (s : jsstring) : option (regex * jsstring) :=
  match s with
  | c :: rest =>
      if (c =? backslash)%N then escaped rest
      else if (c =? open_paren)%N then group rest
      else if is_syntax_character c then None
      else quantified (Char c) rest
  | [] => None
  end.

(** [Alternative]: terms up to a bar, a closing parenthesis or the end
    of the source. *)
Fixpoint alternative (fuel : nat) (s : jsstring)
  : option (regex * jsstring) :=
  match s with
  | [] => Some (Empty, [])
  | c :: _ =>
      if (c =? bar)%N || (c =? close_paren)%N then Some (Empty, s)
      else
        match fuel with
        | O => None
        | S fuel' =>
            match term s with
            | Some (t, rest) =>
                match alternative fuel' rest with
                | Some (r, rest') => Some (Seq t r, rest')
                | None => None
                end
            | None => None
            end
        end
  end.

End Terms.

(** [Disjunction]: alternatives with bars between them.  Every term has
    at least one character, and so has every bar and every parenthesis:
    fuel of the length of the source is enough. *)
Fixpoint disjunction (fuel : nat) (s : jsstring)
  : option (regex * jsstring) :=
  match fuel with
  | O => None
  | S fuel' =>
      match alternative (disjunction fuel') fuel' s with
      | Some (r1, c :: rest) =>
          if (c =? bar)%N then
            match disjunction fuel' rest with
            | Some (r2, rest') => Some (Alt r1 r2, rest')
            | None => None
            end
          else Some (r1, c :: rest)
      | other => other
      end
  end.

(** [Pattern]: a disjunction that takes the whole source. *)
Definition parse (source : jsstring) : option regex :=
  match disjunction (S (length source)) source with
  | Some (r, []) => Some r
  | _ => None
  end.

End RegExpSyntax.

(** ** Numbers *)
Module Num.
Import PrimFloat.

(** A count as a JavaScript number. *)
Definition of_nat (n : nat) : float :=
  of_uint63 (Uint63.of_Z (Z.of_nat n)).

(** [0.0] *)
Definition zero : float := 0%float.

(** [Math.min(a, b)] *)
Definition Math_min (a b : float) : float :=
  if is_nan a || is_nan b then nan
  else if ltb a b then a
  else if ltb b a then b
  else if is_zero a && get_sign a then a else b.

(** [a > b] *)
Definition gt (a b : float) : bool := ltb b a.

End Num.

(** ** [PrivacyDetector] ([core/privacy-detector.ts])

    The classifier and the two scores.  [splitIntoSegments] and
    [processOutput], which feed segments to them, follow in [Segmenter]
    and [PrivacyOutput]. *)
Module PrivacyDetector.
Import Regex.
Import PrimFloat.
Local Open Scope string_scope.

Record PrivacyConfig : Type := {
  introspectionThreshold : float;
  sensitivityThreshold : float;
  customPatterns : option (list jsstring)
}.

(** The fields of a detector. *)
Record t : Type := {
  config : PrivacyConfig;
  privacyPatterns : list RegExp
}.

(** [/r/i] *)
Definition re_i (r : regex) : RegExp :=
  {| source := r; ignoreCase := true; global := false |}.

(** [/r/gi] *)
Definition re_gi (r : regex) : RegExp :=
  {| source := r; ignoreCase := true; global := true |}.

(** [/\b(s|...)\b/gi] *)
Definition words_gi (s : string) (ss : list string) : RegExp :=
  re_gi (Seq WordBoundary (Seq (one_of s ss) WordBoundary)).

Definition DEFAULT_PRIVACY_INDICATORS : list RegExp :=
  [ re_i (one_of "private" ["secret"; "confidential"; "personal"; "sensitive"]);
    re_i (seq_of
            [ one_of "don't" ["do not"; "shouldn't"; "should not";
                              "wouldn't"; "would not"];
              spaces;
              one_of "share" ["tell"; "reveal"; "disclose"] ]);
    re_i (seq_of
            [ one_of "between" ["just"; "only"]; spaces;
              one_of "us" ["ourselves"; "me and you"] ]);
    re_i (seq_of
            [ lit "keep"; spaces; lit "this"; spaces;
              Alt (seq_of [lit "to"; spaces; lit "yourself"])
                (one_of "private" ["secret"; "confidential"]) ]);
    re_i (seq_of
            [ one_of "internal" ["introspective"; "inner"]; spaces;
              one_of "thought" ["reflection"; "monologue"; "dialogue"] ]);
    re_i (seq_of
            [ one_of "nobody" ["no one"]; spaces; lit "should"; spaces;
              one_of "know" ["hear"; "see"; "read"] ]);
    re_i (seq_of
            [ lit "if"; spaces; lit "I'm"; spaces; lit "being"; spaces;
              lit "honest" ]);
    re_i (seq_of
            [ lit "I"; spaces;
              one_of "wouldn't" ["won't"; "can't"; "cannot"; "don't"]; spaces;
              one_of "say" ["admit"; "acknowledge"]; spaces; lit "this"; spaces;
              one_of "publicly" ["openly"] ]) ].

(** [new PrivacyDetector(config)] *)
Definition new (config : PrivacyConfig) : t :=
  {| config := config; privacyPatterns := [] |}.

(** The characters of the class [[.*+?^${}()|[\]\\]]. *)
Definition special_characters : jsstring := str "\.*+?^${}()|[]".

(** [pattern.replace(/[.*+?^${}()|[\]\\]/g, '\\$&')]: a backslash goes
    before every character of the class. *)
Definition escape (pattern : jsstring) : jsstring :=
  flat_map
    (fun c =>
       if existsb (N.eqb c) special_characters
       then [RegExpSyntax.backslash; c]
       else [c])
    pattern.

(** [new RegExp(source, 'i')], [None] where it throws. *)
Definition new_RegExp_i (source : jsstring) : option RegExp :=
  option_map re_i (RegExpSyntax.parse source).

Definition initialize (this : t) : t :=
  let privacyPatterns := DEFAULT_PRIVACY_INDICATORS in
  let privacyPatterns :=
    match customPatterns (config this) with
    | Some ((_ :: _) as patterns) =>
        fold_left
          (fun acc pattern =>
             let escapedPattern := escape pattern in
             match new_RegExp_i escapedPattern with
             | Some re => (acc ++ [re])%list
             | None => acc
             end)
          patterns privacyPatterns
    | _ => privacyPatterns
    end in
  {| config := config this; privacyPatterns := privacyPatterns |}.

(** [createPrivacyDetector(config)] *)
Definition createPrivacyDetector (config : PrivacyConfig) : t :=
  initialize (new config).

Section Detector.

Variable unicode_upper : N -> N.

Definition calculateIntrospectionScore (text : jsstring) : float :=
  let firstPerson :=
    match_count unicode_upper
      (words_gi "I" ["me"; "my"; "mine"; "myself"]) text in
  let thinkingVerbs :=
    match_count unicode_upper
      (words_gi "think" ["feel"; "believe"; "wonder"; "question"; "doubt";
                         "reflect"]) text in
  let uncertainty :=
    match_count unicode_upper
      (words_gi "maybe" ["perhaps"; "possibly"; "might"; "could be";
                         "uncertain"; "unsure"]) text in
  let wordCount :=
    length (split unicode_upper
              {| source := spaces; ignoreCase := false; global := false |}
              text) in
  if (wordCount =? 0)%nat then 0.0%float
  else
    let introspectionIndicators :=
      (firstPerson + thinkingVerbs + uncertainty)%nat in
    Num.Math_min 1.0
      (Num.of_nat introspectionIndicators / (Num.of_nat wordCount * 0.3))%float.

Definition calculateSensitivityScore (text : jsstring) : float :=
  let sensitiveTopics :=
    [ words_gi "controversial" ["controversy"; "contentious"; "dispute";
                                "disagreement"];
      words_gi "personal" ["private"; "intimate"; "secret"];
      words_gi "worry" ["concern"; "afraid"; "fear"; "anxious"; "anxiety"];
      words_gi "critique" ["criticism"; "critical"; "flaw"; "weakness";
                           "shortcoming"] ] in
  let topicMentions :=
    fold_left
      (fun sum pattern => (sum + match_count unicode_upper pattern text)%nat)
      sensitiveTopics 0%nat in
  let cautionPhrases :=
    match_count unicode_upper
      (words_gi "careful" ["cautious"; "warning"; "between us"; "not for";
                           "hesitant"]) text in
  let wordCount :=
    length (split unicode_upper
              {| source := spaces; ignoreCase := false; global := false |}
              text) in
  if (wordCount =? 0)%nat then 0.0%float
  else
    let sensitivityIndicators := (topicMentions + cautionPhrases * 2)%nat in
    Num.Math_min 1.0
      (Num.of_nat sensitivityIndicators / (Num.of_nat wordCount * 0.25))%float.

Definition isLikelyPrivate (this : t) (text : jsstring)
  (introspectionScore sensitivityScore : option float) : bool :=
  if existsb (fun pattern => test unicode_upper pattern text)
       (privacyPatterns this)
  then true
  else
    let finalIntrospectionScore :=
      match introspectionScore with
      | Some v => v
      | None => calculateIntrospectionScore text
      end in
    if Num.gt finalIntrospectionScore (introspectionThreshold (config this))
    then true
    else
      let finalSensitivityScore :=
        match sensitivityScore with
        | Some v => v
        | None => calculateSensitivityScore text
        end in
      if Num.gt finalSensitivityScore (sensitivityThreshold (config this))
      then true
      else false.

End Detector.
End PrivacyDetector.

(** ** Vocabulary of the classification properties *)
Module PrivacySpec.

(** [/\s+/] *)
Definition whitespace_re : Regex.RegExp :=
  {| Regex.source := Regex.spaces;
     Regex.ignoreCase := false;
     Regex.global := false |}.

(** The whitespace-separated tokens of a text: the non-empty pieces
    between runs of white space. *)
Definition tokens (unicode_upper : N -> N) (text : jsstring) : list jsstring :=
  filter (fun piece => negb (JS.eqb piece []))
    (Regex.split unicode_upper whitespace_re text).

(** The expression that asks for the characters of [pattern], one after
    the other, letter case apart. *)
Definition literal_pattern (pattern : jsstring) : Regex.RegExp :=
  PrivacyDetector.re_i (Regex.literal pattern).

(** The explicit indicator patterns of a detector made from [config]:
    the built-in ones and the configured phrases. *)
Definition indicator_patterns (config : PrivacyDetector.PrivacyConfig)
  : list Regex.RegExp :=
  PrivacyDetector.DEFAULT_PRIVACY_INDICATORS
    ++ map literal_pattern
         (match PrivacyDetector.customPatterns config with
          | Some patterns => patterns
          | None => []
          end).

Definition all_whitespace (text : jsstring) : Prop :=
  Forall (fun c => Regex.is_whitespace c = true) text.

(** Every piece of a split is empty. *)
Definition all_empty (pieces : list jsstring) : Prop :=
  Forall (fun piece => piece = []) pieces.

(** The character just before a position is not a word character. *)
Definition quiet (before : jsstring) : Prop :=
  match before with
  | c :: _ => Regex.is_word_char c = false
  | [] => True
  end.

End PrivacySpec.

(** ** A sample detector *)
Module SampleDetector.
Import PrimFloat.

(** The configuration of the README. *)
Definition config : PrivacyDetector.PrivacyConfig :=
  {| PrivacyDetector.introspectionThreshold := 0.7%float;
     PrivacyDetector.sensitivityThreshold := 0.8%float;
     PrivacyDetector.customPatterns :=
       Some [ str "(?i)don't tell anyone"; str "(?i)this is just for you" ] |}.

(** No case mapping outside ASCII. *)
Definition unicode_upper (c : N) : N := c.

(** [/keep\s+this\s+(to\s+yourself|private|secret|confidential)/i] *)
Definition keep_this : Regex.RegExp :=
  nth 3 PrivacyDetector.DEFAULT_PRIVACY_INDICATORS
    (PrivacyDetector.re_i Regex.Empty).

End SampleDetector.

(** ** Text encodings of [Buffer] *)
Module Utf8.

Definition byte (n : N) : byte :=
  match Byte.of_N n with Some b => b | None => x00 end.

Definition is_high_surrogate (u : N) : bool := ((55296 <=? u) && (u <=? 56319))%N.
Definition is_low_surrogate (u : N) : bool := ((56320 <=? u) && (u <=? 57343))%N.

(** U+FFFD, which stands for what cannot be encoded or decoded. *)
Definition replacement : N := 65533%N.
Definition replacement_bytes : Buffer := [xef; xbf; xbd].

(** A code point that is not a surrogate. *)
Definition scalar_value (cp : N) : Prop :=
  (cp < 55296 \/ 57344 <= cp < 1114112)%N.

(** The UTF-8 bytes of a code point. *)
Definition encode_code_point (cp : N) : Buffer :=
  (if cp <? 128 then [byte cp]
   else if cp <? 2048 then [byte (192 + cp / 64); byte (128 + cp mod 64)]
   else if cp <? 65536 then
     [byte (224 + cp / 4096); byte (128 + (cp / 64) mod 64);
      byte (128 + cp mod 64)]
   else
     [byte (240 + cp / 262144); byte (128 + (cp / 4096) mod 64);
      byte (128 + (cp / 64) mod 64); byte (128 + cp mod 64)])%N.

(** [Buffer.from(s, 'utf-8')]: surrogate pairs become one code point, a
    surrogate on its own becomes U+FFFD. *)
Fixpoint encode (s : jsstring) : Buffer :=
  match s with
  | [] => []
  | u :: r =>
      if is_high_surrogate u then
        match r with
        | lo :: r' =>
            if is_low_surrogate lo
            then encode_code_point
                   (65536 + (u - 55296) * 1024 + (lo - 56320))%N ++ encode r'
            else replacement_bytes ++ encode r
        | [] => replacement_bytes
        end
      else if is_low_surrogate u then replacement_bytes ++ encode r
      else if (u <? 65536)%N then encode_code_point u ++ encode r
      else replacement_bytes ++ encode r
  end.

(** The UTF-16 code units of a code point. *)
Definition units_of_code_point (cp : N) : jsstring :=
  (if cp <? 65536 then [cp]
   else [55296 + (cp - 65536) / 1024; 56320 + (cp - 65536) mod 1024])%N.

Definition in_range (b : Byte.byte) (lo hi : N) : bool :=
  ((lo <=? Byte.to_N b) && (Byte.to_N b <=? hi))%N.

(** The six low bits of a continuation byte. *)
Definition low6 (b : Byte.byte) : N := (Byte.to_N b - 128)%N.

(** [buf.toString('utf-8')]: every maximal ill-formed run of bytes
    becomes one U+FFFD, and decoding goes on at the byte that broke the
    sequence. *)
Fixpoint decode (bs : Buffer) : jsstring :=
  match bs with
  | [] => []
  | b0 :: r0 =>
      let n0 := Byte.to_N b0 in
      if (n0 <? 128)%N then n0 :: decode r0
      else if in_range b0 194 223 then
        match r0 with
        | b1 :: r1 =>
            if in_range b1 128 191
            then ((n0 - 192) * 64 + low6 b1)%N :: decode r1
            else replacement :: decode r0
        | [] => [replacement]
        end
      else if in_range b0 224 239 then
        match r0 with
        | b1 :: r1 =>
            if in_range b1 (if (n0 =? 224)%N then 160 else 128)%N
                 (if (n0 =? 237)%N then 159 else 191)%N
            then
              match r1 with
              | b2 :: r2 =>
                  if in_range b2 128 191
                  then (((n0 - 224) * 64 + low6 b1) * 64 + low6 b2)%N
                         :: decode r2
                  else replacement :: decode r1
              | [] => [replacement]
              end
            else replacement :: decode r0
        | [] => [replacement]
        end
      else if in_range b0 240 244 then
        match r0 with
        | b1 :: r1 =>
            if in_range b1 (if (n0 =? 240)%N then 144 else 128)%N
                 (if (n0 =? 244)%N then 143 else 191)%N
            then
              match r1 with
              | b2 :: r2 =>
                  if in_range b2 128 191
                  then
                    match r2 with
                    | b3 :: r3 =>
                        if in_range b3 128 191
                        then
                          units_of_code_point
                            ((((n0 - 240) * 64 + low6 b1) * 64 + low6 b2) * 64
                             + low6 b3)%N ++ decode r3
                        else replacement :: decode r2
                    | [] => [replacement]
                    end
                  else replacement :: decode r1
              | [] => [replacement]
              end
            else replacement :: decode r0
        | [] => [replacement]
        end
      else replacement :: decode r0
  end.

(** A string whose surrogates come in pairs: what UTF-8 can carry. *)
Fixpoint well_formed (s : jsstring) : bool :=
  match s with
  | [] => true
  | u :: r =>
      if is_high_surrogate u then
        match r with
        | lo :: r' => is_low_surrogate lo && well_formed r'
        | [] => false
        end
      else negb (is_low_surrogate u) && (u <? 65536)%N && well_formed r
  end.

End Utf8.

(** Bytes written in hexadecimal. *)
Module Hex.

Definition nibble (c : ascii) : N :=
  let n := N_of_ascii c in
  (if n <? 58 then n - 48 else if n <? 71 then n - 55 else n - 87)%N.

Fixpoint of_digits (l : list ascii) : Buffer :=
  match l with
  | a :: b :: l' => Utf8.byte (nibble a * 16 + nibble b) :: of_digits l'
  | _ => []
  end.

Definition bytes (s : string) : Buffer := of_digits (list_ascii_of_string s).

End Hex.

Module Base64.

Definition alphabet : jsstring :=
  str "ABCDEFGHIJKLMNOPQRSTUVWXYZabcdefghijklmnopqrstuvwxyz0123456789+/".

Definition pad_char : N := 61.

Definition digit (n : N) : N := nth (N.to_nat n) alphabet pad_char.

(** [buf.toString('base64')] *)
Fixpoint encode (bs : Buffer) : jsstring :=
  match bs with
  | [] => []
  | [a] =>
      let x := Byte.to_N a in
      [digit (x / 4); digit (x mod 4 * 16); pad_char; pad_char]%N
  | [a; b] =>
      let x := Byte.to_N a in
      let y := Byte.to_N b in
      [digit (x / 4); digit (x mod 4 * 16 + y / 16);
       digit (y mod 16 * 4); pad_char]%N
  | a :: b :: c :: bs' =>
      let x := Byte.to_N a in
      let y := Byte.to_N b in
      let z := Byte.to_N c in
      (digit (x / 4) :: digit (x mod 4 * 16 + y / 16)
         :: digit (y mod 16 * 4 + z / 64) :: digit (z mod 64) :: encode bs')%N
  end.

(** The value of a base64 digit; the URL-safe alphabet is accepted too. *)
Definition value (c : N) : option N :=
  (if (65 <=? c) && (c <=? 90) then Some (c - 65)
   else if (97 <=? c) && (c <=? 122) then Some (c - 71)
   else if (48 <=? c) && (c <=? 57) then Some (c + 4)
   else if (c =? 43) || (c =? 45) then Some 62
   else if (c =? 47) || (c =? 95) then Some 63
   else None)%N.

(** The digits of [s] up to the first padding character, other
    characters skipped.  The decoder reads each code unit as a byte: of
    a unit above 255 it sees the low byte. *)
Fixpoint digits (s : jsstring) : list N :=
  match s with
  | [] => []
  | c :: s' =>
      let b := (c mod 256)%N in
      if N.eqb b pad_char then []
      else match value b with
           | Some v => v :: digits s'
           | None => digits s'
           end
  end.

Fixpoint bytes_of_digits (ds : list N) : Buffer :=
  match ds with
  | a :: b :: c :: d :: ds' =>
      (Utf8.byte (a * 4 + b / 16) :: Utf8.byte (b mod 16 * 16 + c / 4)
         :: Utf8.byte (c mod 4 * 64 + d) :: bytes_of_digits ds')%N
  | [a; b; c] =>
      [Utf8.byte (a * 4 + b / 16); Utf8.byte (b mod 16 * 16 + c / 4)]%N
  | [a; b] => [Utf8.byte (a * 4 + b / 16)]%N
  | _ => []
  end.

(** [Buffer.from(s, 'base64')] *)
Definition decode (s : jsstring) : Buffer := bytes_of_digits (digits s).

End Base64.

Module JSString.

Fixpoint trimStart (s : jsstring) : jsstring :=
  match s with
  | c :: s' => if Regex.is_whitespace c then trimStart s' else s
  | [] => []
  end.

(** [s.trim()] *)
Definition trim (s : jsstring) : jsstring :=
  rev (trimStart (rev (trimStart s))).

End JSString.

(** ** AES-256 (FIPS 197)

    What [crypto] computes for ['aes-256-cbc'], one block at a time.
    State bytes are kept as elements of GF(2^8), lowest bit first. *)
Module AES.

Definition gf : Type :=
  (bool * (bool * (bool * (bool * (bool * (bool * (bool * bool)))))))%type.

Definition gf_zero : gf :=
  (false, (false, (false, (false, (false, (false, (false, false))))))).

Definition gf_one : gf :=
  (true, (false, (false, (false, (false, (false, (false, false))))))).

(** Addition in GF(2^8). *)
Definition gf_xor (a b : gf) : gf :=
  let '(a0, (a1, (a2, (a3, (a4, (a5, (a6, a7))))))) := a in
  let '(b0, (b1, (b2, (b3, (b4, (b5, (b6, b7))))))) := b in
  (xorb a0 b0, (xorb a1 b1, (xorb a2 b2, (xorb a3 b3,
   (xorb a4 b4, (xorb a5 b5, (xorb a6 b6, xorb a7 b7))))))).

(** Multiplication by [x], reduced by [x^8 + x^4 + x^3 + x + 1]. *)
Definition xtime (a : gf) : gf :=
  let '(a0, (a1, (a2, (a3, (a4, (a5, (a6, a7))))))) := a in
  (a7, (xorb a0 a7, (a1, (xorb a2 a7, (xorb a3 a7, (a4, (a5, a6))))))).

Definition mul2 (a : gf) : gf := xtime a.
Definition mul3 (a : gf) : gf := gf_xor (xtime a) a.
Definition mul4 (a : gf) : gf := xtime (xtime a).
Definition mul8 (a : gf) : gf := xtime (mul4 a).
Definition mul9 (a : gf) : gf := gf_xor (mul8 a) a.
Definition mul11 (a : gf) : gf := gf_xor (gf_xor (mul8 a) (mul2 a)) a.
Definition mul13 (a : gf) : gf := gf_xor (gf_xor (mul8 a) (mul4 a)) a.
Definition mul14 (a : gf) : gf := gf_xor (gf_xor (mul8 a) (mul4 a)) (mul2 a).

Definition sbox_table : list byte :=
  [ x63; x7c; x77; x7b; xf2; x6b; x6f; xc5; x30; x01; x67; x2b; xfe; xd7; xab; x76;
    xca; x82; xc9; x7d; xfa; x59; x47; xf0; xad; xd4; xa2; xaf; x9c; xa4; x72; xc0;
    xb7; xfd; x93; x26; x36; x3f; xf7; xcc; x34; xa5; xe5; xf1; x71; xd8; x31; x15;
    x04; xc7; x23; xc3; x18; x96; x05; x9a; x07; x12; x80; xe2; xeb; x27; xb2; x75;
    x09; x83; x2c; x1a; x1b; x6e; x5a; xa0; x52; x3b; xd6; xb3; x29; xe3; x2f; x84;
    x53; xd1; x00; xed; x20; xfc; xb1; x5b; x6a; xcb; xbe; x39; x4a; x4c; x58; xcf;
    xd0; xef; xaa; xfb; x43; x4d; x33; x85; x45; xf9; x02; x7f; x50; x3c; x9f; xa8;
    x51; xa3; x40; x8f; x92; x9d; x38; xf5; xbc; xb6; xda; x21; x10; xff; xf3; xd2;
    xcd; x0c; x13; xec; x5f; x97; x44; x17; xc4; xa7; x7e; x3d; x64; x5d; x19; x73;
    x60; x81; x4f; xdc; x22; x2a; x90; x88; x46; xee; xb8; x14; xde; x5e; x0b; xdb;
    xe0; x32; x3a; x0a; x49; x06; x24; x5c; xc2; xd3; xac; x62; x91; x95; xe4; x79;
    xe7; xc8; x37; x6d; x8d; xd5; x4e; xa9; x6c; x56; xf4; xea; x65; x7a; xae; x08;
    xba; x78; x25; x2e; x1c; xa6; xb4; xc6; xe8; xdd; x74; x1f; x4b; xbd; x8b; x8a;
    x70; x3e; xb5; x66; x48; x03; xf6; x0e; x61; x35; x57; xb9; x86; xc1; x1d; x9e;
    xe1; xf8; x98; x11; x69; xd9; x8e; x94; x9b; x1e; x87; xe9; xce; x55; x28; xdf;
    x8c; xa1; x89; x0d; xbf; xe6; x42; x68; x41; x99; x2d; x0f; xb0; x54; xbb; x16 ].

Definition inv_sbox_table : list byte :=
  [ x52; x09; x6a; xd5; x30; x36; xa5; x38; xbf; x40; xa3; x9e; x81; xf3; xd7; xfb;
    x7c; xe3; x39; x82; x9b; x2f; xff; x87; x34; x8e; x43; x44; xc4; xde; xe9; xcb;
    x54; x7b; x94; x32; xa6; xc2; x23; x3d; xee; x4c; x95; x0b; x42; xfa; xc3; x4e;
    x08; x2e; xa1; x66; x28; xd9; x24; xb2; x76; x5b; xa2; x49; x6d; x8b; xd1; x25;
    x72; xf8; xf6; x64; x86; x68; x98; x16; xd4; xa4; x5c; xcc; x5d; x65; xb6; x92;
    x6c; x70; x48; x50; xfd; xed; xb9; xda; x5e; x15; x46; x57; xa7; x8d; x9d; x84;
    x90; xd8; xab; x00; x8c; xbc; xd3; x0a; xf7; xe4; x58; x05; xb8; xb3; x45; x06;
    xd0; x2c; x1e; x8f; xca; x3f; x0f; x02; xc1; xaf; xbd; x03; x01; x13; x8a; x6b;
    x3a; x91; x11; x41; x4f; x67; xdc; xea; x97; xf2; xcf; xce; xf0; xb4; xe6; x73;
    x96; xac; x74; x22; xe7; xad; x35; x85; xe2; xf9; x37; xe8; x1c; x75; xdf; x6e;
    x47; xf1; x1a; x71; x1d; x29; xc5; x89; x6f; xb7; x62; x0e; xaa; x18; xbe; x1b;
    xfc; x56; x3e; x4b; xc6; xd2; x79; x20; x9a; xdb; xc0; xfe; x78; xcd; x5a; xf4;
    x1f; xdd; xa8; x33; x88; x07; xc7; x31; xb1; x12; x10; x59; x27; x80; xec; x5f;
    x60; x51; x7f; xa9; x19; xb5; x4a; x0d; x2d; xe5; x7a; x9f; x93; xc9; x9c; xef;
    xa0; xe0; x3b; x4d; xae; x2a; xf5; xb0; xc8; xeb; xbb; x3c; x83; x53; x99; x61;
    x17; x2b; x04; x7e; xba; x77; xd6; x26; xe1; x69; x14; x63; x55; x21; x0c; x7d ].

Definition sbox (a : gf) : gf :=
  Byte.to_bits (nth (N.to_nat (Byte.to_N (Byte.of_bits a))) sbox_table x00).

Definition inv_sbox (a : gf) : gf :=
  Byte.to_bits (nth (N.to_nat (Byte.to_N (Byte.of_bits a))) inv_sbox_table x00).

(** A column of the state, and the state: four columns. *)
Definition word : Type := (gf * gf * gf * gf)%type.
Definition block : Type := (word * word * word * word)%type.

Definition word_map (f : gf -> gf) (w : word) : word :=
  let '(a0, a1, a2, a3) := w in (f a0, f a1, f a2, f a3).

Definition word_xor (v w : word) : word :=
  let '(a0, a1, a2, a3) := v in
  let '(b0, b1, b2, b3) := w in
  (gf_xor a0 b0, gf_xor a1 b1, gf_xor a2 b2, gf_xor a3 b3).

Definition block_map (f : word -> word) (s : block) : block :=
  let '(c0, c1, c2, c3) := s in (f c0, f c1, f c2, f c3).

Definition block_xor (s t : block) : block :=
  let '(c0, c1, c2, c3) := s in
  let '(d0, d1, d2, d3) := t in
  (word_xor c0 d0, word_xor c1 d1, word_xor c2 d2, word_xor c3 d3).

Definition SubBytes (s : block) : block := block_map (word_map sbox) s.
Definition InvSubBytes (s : block) : block := block_map (word_map inv_sbox) s.

(** Row [r] of the state moves [r] columns to the left. *)
Definition ShiftRows (s : block) : block :=
  let '((a0, a1, a2, a3), (b0, b1, b2, b3),
        (c0, c1, c2, c3), (d0, d1, d2, d3)) := s in
  ((a0, b1, c2, d3), (b0, c1, d2, a3), (c0, d1, a2, b3), (d0, a1, b2, c3)).

Definition InvShiftRows (s : block) : block :=
  let '((a0, a1, a2, a3), (b0, b1, b2, b3),
        (c0, c1, c2, c3), (d0, d1, d2, d3)) := s in
  ((a0, d1, c2, b3), (b0, a1, d2, c3), (c0, b1, a2, d3), (d0, c1, b2, a3)).

Definition mix_column (w : word) : word :=
  let '(a0, a1, a2, a3) := w in
  (gf_xor (gf_xor (mul2 a0) (mul3 a1)) (gf_xor a2 a3),
   gf_xor (gf_xor a0 (mul2 a1)) (gf_xor (mul3 a2) a3),
   gf_xor (gf_xor a0 a1) (gf_xor (mul2 a2) (mul3 a3)),
   gf_xor (gf_xor (mul3 a0) a1) (gf_xor a2 (mul2 a3))).

Definition inv_mix_column (w : word) : word :=
  let '(a0, a1, a2, a3) := w in
  (gf_xor (gf_xor (mul14 a0) (mul11 a1)) (gf_xor (mul13 a2) (mul9 a3)),
   gf_xor (gf_xor (mul9 a0) (mul14 a1)) (gf_xor (mul11 a2) (mul13 a3)),
   gf_xor (gf_xor (mul13 a0) (mul9 a1)) (gf_xor (mul14 a2) (mul11 a3)),
   gf_xor (gf_xor (mul11 a0) (mul13 a1)) (gf_xor (mul9 a2) (mul14 a3))).

Definition MixColumns (s : block) : block := block_map mix_column s.
Definition InvMixColumns (s : block) : block := block_map inv_mix_column s.

Definition AddRoundKey (s k : block) : block := block_xor s k.

(** Rounds 1 to Nr of the cipher, one round key each; the last round has
    no [MixColumns]. *)
Fixpoint rounds (s : block) (ks : list block) : block :=
  match ks with
  | [] => s
  | [k] => AddRoundKey (ShiftRows (SubBytes s)) k
  | k :: ks' =>
      rounds (AddRoundKey (MixColumns (ShiftRows (SubBytes s))) k) ks'
  end.

(** [Cipher] of FIPS 197, figure 5. *)
Definition Cipher (ks : list block) (s : block) : block :=
  match ks with
  | [] => s
  | k0 :: ks' => rounds (AddRoundKey s k0) ks'
  end.

Fixpoint inv_rounds (s : block) (ks : list block) : block :=
  match ks with
  | [] => s
  | [k] => InvSubBytes (InvShiftRows (AddRoundKey s k))
  | k :: ks' =>
      InvSubBytes
        (InvShiftRows (InvMixColumns (AddRoundKey (inv_rounds s ks') k)))
  end.

(** [InvCipher] of FIPS 197, figure 12. *)
Definition InvCipher (ks : list block) (s : block) : block :=
  match ks with
  | [] => s
  | k0 :: ks' => AddRoundKey (inv_rounds s ks') k0
  end.

Definition RotWord (w : word) : word :=
  let '(a0, a1, a2, a3) := w in (a1, a2, a3, a0).

Definition SubWord (w : word) : word := word_map sbox w.

(** The words [w[i]], [i >= 8], of the key schedule for [Nk = 8], newest
    first in [ws]; [rc] is the round constant the next multiple of 8
    uses. *)
Fixpoint expand (n i : nat) (rc : gf) (ws : list word) : list word :=
  match n with
  | O => ws
  | S n' =>
      let prev := nth 0 ws (gf_zero, gf_zero, gf_zero, gf_zero) in
      let back := nth 7 ws (gf_zero, gf_zero, gf_zero, gf_zero) in
      if (i mod 8 =? 0)%nat then
        let temp :=
          word_xor (SubWord (RotWord prev)) (rc, gf_zero, gf_zero, gf_zero) in
        expand n' (S i) (xtime rc) (word_xor back temp :: ws)
      else if (i mod 8 =? 4)%nat then
        expand n' (S i) rc (word_xor back (SubWord prev) :: ws)
      else
        expand n' (S i) rc (word_xor back prev :: ws)
  end.

Fixpoint words_of (bs : list byte) : list word :=
  match bs with
  | a0 :: a1 :: a2 :: a3 :: bs' =>
      (Byte.to_bits a0, Byte.to_bits a1, Byte.to_bits a2, Byte.to_bits a3)
        :: words_of bs'
  | _ => []
  end.

Fixpoint blocks_of_words (ws : list word) : list block :=
  match ws with
  | c0 :: c1 :: c2 :: c3 :: ws' => (c0, c1, c2, c3) :: blocks_of_words ws'
  | _ => []
  end.

(** [KeyExpansion] for a 256-bit key: fifteen round keys. *)
Definition KeyExpansion (key : list byte) : list block :=
  blocks_of_words (rev (expand 52 8 gf_one (rev (words_of key)))).

Definition bytes_of_word (w : word) : list byte :=
  let '(a0, a1, a2, a3) := w in
  [Byte.of_bits a0; Byte.of_bits a1; Byte.of_bits a2; Byte.of_bits a3].

Definition bytes_of_block (s : block) : list byte :=
  let '(c0, c1, c2, c3) := s in
  bytes_of_word c0 ++ bytes_of_word c1 ++ bytes_of_word c2 ++ bytes_of_word c3.

(** A byte string cut into blocks, when its length is a multiple of 16. *)
Fixpoint blocks_of (bs : list byte) : option (list block) :=
  match bs with
  | [] => Some []
  | a0 :: a1 :: a2 :: a3 :: b0 :: b1 :: b2 :: b3
      :: c0 :: c1 :: c2 :: c3 :: d0 :: d1 :: d2 :: d3 :: bs' =>
      match blocks_of bs' with
      | Some ss =>
          Some (((Byte.to_bits a0, Byte.to_bits a1, Byte.to_bits a2, Byte.to_bits a3),
                 (Byte.to_bits b0, Byte.to_bits b1, Byte.to_bits b2, Byte.to_bits b3),
                 (Byte.to_bits c0, Byte.to_bits c1, Byte.to_bits c2, Byte.to_bits c3),
                 (Byte.to_bits d0, Byte.to_bits d1, Byte.to_bits d2, Byte.to_bits d3))
                  :: ss)
      | None => None
      end
  | _ => None
  end.

End AES.

(** ** [crypto]: ['aes-256-cbc'] *)
Module Crypto.

Definition byte_of_nat (n : nat) : byte :=
  match Byte.of_nat n with Some b => b | None => x00 end.

(** How many bytes of padding a message of [n] bytes gets: one to
    sixteen. *)
Definition pad_length (n : nat) : nat := 16 - n mod 16.

(** PKCS#7 padding to whole blocks. *)
Definition pkcs7_pad (data : Buffer) : Buffer :=
  let n := pad_length (length data) in
  data ++ repeat (byte_of_nat n) n.

(** The message without its padding, when the padding is well formed. *)
Definition pkcs7_unpad (data : Buffer) : option Buffer :=
  let b := last data x00 in
  let n := Byte.to_nat b in
  if (1 <=? n)%nat && (n <=? 16)%nat && (n <=? length data)%nat
     && forallb (Byte.eqb b) (skipn (length data - n) data)
  then Some (firstn (length data - n) data)
  else None.

(** Cipher block chaining: each block is combined with the ciphertext
    block before it, the first one with the initialization vector. *)
Fixpoint cbc_encrypt (ks : list AES.block) (prev : AES.block)
  (ps : list AES.block) : list AES.block :=
  match ps with
  | [] => []
  | p :: ps' =>
      let c := AES.Cipher ks (AES.block_xor p prev) in
      c :: cbc_encrypt ks c ps'
  end.

Fixpoint cbc_decrypt (ks : list AES.block) (prev : AES.block)
  (cs : list AES.block) : list AES.block :=
  match cs with
  | [] => []
  | c :: cs' =>
      AES.block_xor (AES.InvCipher ks c) prev :: cbc_decrypt ks c cs'
  end.

Definition bytes_of_blocks (ss : list AES.block) : Buffer :=
  flat_map AES.bytes_of_block ss.

(** [const cipher = crypto.createCipheriv('aes-256-cbc', key, iv);
     Buffer.concat([cipher.update(data), cipher.final()])] *)
Definition cipheriv (key iv data : Buffer) : Result CryptoFault Buffer :=
  if negb (length key =? 32)%nat then Err InvalidKeyLength
  else
    match AES.blocks_of iv with
    | Some [v] =>
        match AES.blocks_of (pkcs7_pad data) with
        | Some ps =>
            Ok (bytes_of_blocks (cbc_encrypt (AES.KeyExpansion key) v ps))
        | None => Err WrongFinalBlockLength
        end
    | _ => Err InvalidIvLength
    end.

(** [const decipher = crypto.createDecipheriv('aes-256-cbc', key, iv);
     Buffer.concat([decipher.update(data), decipher.final()])] *)
Definition decipheriv (key iv data : Buffer) : Result CryptoFault Buffer :=
  if negb (length key =? 32)%nat then Err InvalidKeyLength
  else
    match AES.blocks_of iv with
    | Some [v] =>
        match AES.blocks_of data with
        | Some (c :: cs) =>
            match pkcs7_unpad
                    (bytes_of_blocks
                       (cbc_decrypt (AES.KeyExpansion key) v (c :: cs))) with
            | Some plain => Ok plain
            | None => Err BadDecrypt
            end
        | _ => Err WrongFinalBlockLength
        end
    | _ => Err InvalidIvLength
    end.

End Crypto.

(** ** [EncryptionManager] ([core/encryption.ts]) *)
Module EncryptionManager.

Local Open Scope io_scope.

(** The fields of a manager; [key] starts as [Buffer.alloc(0)]. *)
Record t : Type := {
  config : Config.EncryptionConfig;
  key : Buffer
}.

(** [new EncryptionManager(config)] *)
Definition new (config : Config.EncryptionConfig) : t :=
  {| config := config; key := [] |}.

(** The argument of [encrypt]: [string | Buffer]. *)
Inductive Data : Type :=
| Text (s : jsstring)
| Bytes (b : Buffer).

(** [await fsPromises.readFile(p, 'utf-8')] *)
Definition readFile_utf8 (p : jsstring) : IO jsstring :=
  content <- Sys.fs_readFile p ;; ret (Utf8.decode content).

(** [await fsPromises.writeFile(p, s)] for a string [s] *)
Definition writeFile_utf8 (p : jsstring) (s : jsstring) : IO unit :=
  Sys.fs_writeFile p (Utf8.encode s).

(** A call into [crypto] that may throw. *)
Definition crypto_call {A} (r : Result CryptoFault A) : IO A :=
  match r with
  | Ok a => ret a
  | Err fault => throw (CryptoFailure fault)
  end.

Definition loadOrCreateKey (this : t) : IO Buffer :=
  let keyFile := Config.keyFile (config this) in
  let keySize := Config.keySize (config this) in
  try_catch
    (Sys.fs_access keyFile ;;
     keyBase64 <- readFile_utf8 keyFile ;;
     let key := Base64.decode (JSString.trim keyBase64) in
     if negb (length key =? keySize)%nat
     then throw (EncryptionError ENCRYPTION_INVALID_KEY_SIZE)
     else ret key)
    (fun error =>
       if negb (has_code error ENOENT)
          && negb (instanceof_EncryptionError error)
       then throw error
       else
         key <- Sys.randomBytes keySize ;;
         writeFile_utf8 keyFile (Base64.encode key) ;;
         ret key).

(** [initialize] assigns [this.key]; the manager it leaves is returned. *)
Definition initialize (this : t) : IO t :=
  try_catch
    (key <- loadOrCreateKey this ;;
     ret {| config := config this; key := key |})
    (fun _ => throw (EncryptionError ENCRYPTION_INIT_FAILED)).

Definition encrypt (this : t) (data : Data) : IO Buffer :=
  try_catch
    (if (length (key this) =? 0)%nat
     then throw (EncryptionError ENCRYPTION_KEY_NOT_INITIALIZED)
     else
       let dataBuffer :=
         match data with
         | Text s => Utf8.encode s
         | Bytes b => b
         end in
       iv <- Sys.randomBytes 16 ;;
       encryptedData <- crypto_call (Crypto.cipheriv (key this) iv dataBuffer) ;;
       ret (iv ++ encryptedData))
    (fun error =>
       if instanceof_EncryptionError error then throw error
       else throw (EncryptionError ENCRYPTION_ENCRYPTION_FAILED)).

Definition decrypt (this : t) (encryptedData : Buffer) : IO jsstring :=
  try_catch
    (if (length (key this) =? 0)%nat
     then throw (EncryptionError ENCRYPTION_KEY_NOT_INITIALIZED)
     else if (length encryptedData <? 16)%nat
     then throw (EncryptionError ENCRYPTION_INVALID_ENCRYPTED_DATA)
     else
       let iv := firstn 16 encryptedData in
       let ciphertext := skipn 16 encryptedData in
       decrypted <- crypto_call (Crypto.decipheriv (key this) iv ciphertext) ;;
       ret (Utf8.decode decrypted))
    (fun error =>
       if instanceof_EncryptionError error then throw error
       else throw (EncryptionError ENCRYPTION_DECRYPTION_FAILED)).

(** [createEncryptionManager(config)] *)
Definition createEncryptionManager (config : Config.EncryptionConfig) : IO t :=
  initialize (new config).

End EncryptionManager.

(** ** Vocabulary of the cipher properties *)
Module EncryptionSpec.

(** The bytes [encrypt] works on. *)
Definition data_buffer (data : EncryptionManager.Data) : Buffer :=
  match data with
  | EncryptionManager.Text s => Utf8.encode s
  | EncryptionManager.Bytes b => b
  end.

(** The vector the next call of [encrypt] draws. *)
Definition fresh_iv (w : World) : Buffer := map (entropy w) (seq 0 16).

(** [data] holds the text [text]: as a string, or as its UTF-8 bytes. *)
Definition holds_text (data : EncryptionManager.Data) (text : jsstring) : Prop :=
  match data with
  | EncryptionManager.Text s => s = text
  | EncryptionManager.Bytes b => b = Utf8.encode text
  end.

(** The key [initialize] generates in [w] when it has to. *)
Definition fresh_key (config : Config.EncryptionConfig) (w : World) : Buffer :=
  map (entropy w) (seq 0 (Config.keySize config)).

(** The key a key file of the given content stands for. *)
Definition stored_key (content : Buffer) : Buffer :=
  Base64.decode (JSString.trim (Utf8.decode content)).

(** The key file is missing, or holds a key of the wrong size. *)
Definition needs_new_key (config : Config.EncryptionConfig) (fs : FileSystem)
  : Prop :=
  let keyFile := Config.keyFile config in
  access fs keyFile = Err ENOENT
  \/ (access fs keyFile = Ok tt /\ readFile fs keyFile = Err ENOENT)
  \/ (access fs keyFile = Ok tt
      /\ exists content,
           readFile fs keyFile = Ok content
           /\ length (stored_key content) <> Config.keySize config).


End EncryptionSpec.

(** ** Sample states of the key manager *)
Module SampleKeys.

Definition config : Config.EncryptionConfig :=
  {| Config.keyFile := str "key.txt"; Config.keySize := 32 |}.

(** A configuration asking for a 128-bit key. *)
Definition config_short : Config.EncryptionConfig :=
  {| Config.keyFile := str "key.txt"; Config.keySize := 16 |}.


(** A key file of 44 characters whose first is [U+0141], then 42 times
    the letter A and the padding character. *)
Definition fs_wide_unit : FileSystem :=
  fs_write empty_fs (str "key.txt")
    (Utf8.encode (321%N :: repeat 65%N 42 ++ [61%N])) 1000.


(** A manager on a fresh system, initialized. *)
Definition started : Result JsError EncryptionManager.t * World :=
  EncryptionManager.createEncryptionManager config (Sample.world empty_fs).

Definition started_short : Result JsError EncryptionManager.t * World :=
  EncryptionManager.createEncryptionManager config_short (Sample.world empty_fs).

(** The key the sample system generates for [config]. *)
Definition key : Buffer :=
  EncryptionSpec.fresh_key config (elapse (Sample.world empty_fs)).

Definition manager : EncryptionManager.t :=
  {| EncryptionManager.config := config; EncryptionManager.key := key |}.

(** A manager whose key has the sixteen bytes [config_short] asks for. *)
Definition manager_short : EncryptionManager.t :=
  {| EncryptionManager.config := config_short;
     EncryptionManager.key := firstn 16 key |}.

(** The world the manager runs in once it has started. *)
Definition running : World := snd started.

(** What [encrypt] returns for a value, the empty buffer if it throws. *)
Definition blob_of (data : EncryptionManager.Data) : Buffer :=
  match fst (EncryptionManager.encrypt manager data running) with
  | Ok blob => blob
  | Err _ => []
  end.

(** "naïve 😀": one two-byte, one four-byte character. *)
Definition text : jsstring :=
  [110; 97; 239; 118; 101; 32; 55357; 56832]%N.

End SampleKeys.

(** ** Vocabulary of the properties of saving *)
Module SaveSpec.
Definition refusal_code (c : Errno) : StorageCode :=
  if Errno_eqb c ENOSPC then STORAGE_STORAGE_FULL else STORAGE_SAVE_FAILED.
End SaveSpec.

Module FilenameSpec.
Local Open Scope Z_scope.
(** The digits [toISOString] writes down to the seconds, for the [s]-th
    second since the epoch: what is left of the string once the
    punctuation and the milliseconds are taken away. *)
Definition second_stamp (s : Z) : jsstring :=
  let '(y, m, d) := Date.civil_from_days (s / 86400) in
  let sec := s mod 86400 in
  let year :=
    if (0 <=? y) && (y <=? 9999) then Date.pad 4 y
    else (if y <? 0 then [] else str "+") ++ Date.pad 6 (Z.abs y) in
  year ++ Date.pad 2 m ++ Date.pad 2 d ++ Date.pad 2 (sec / 3600)
    ++ Date.pad 2 (sec / 60 mod 60) ++ Date.pad 2 (sec mod 60).
End FilenameSpec.


(** ** [PrivacyDetector]: segments and [processOutput]
    ([core/privacy-detector.ts]) *)
Module Segmenter.
Import Regex.

(** [a*], greedy: [a+] if it leads to a match, nothing otherwise. *)
Definition star (a : atom) : regex := Alt (Plus a) Empty.

(** [/\n\s*\n/] *)
Definition paragraph_break : RegExp :=
  {| source := Seq (Atom (Char 10)) (Seq (star WhiteSpace) (Atom (Char 10)));
     ignoreCase := false;
     global := false |}.

(** [.], [!] and [?] *)
Definition ends_sentence (c : N) : bool :=
  ((c =? 46) || (c =? 33) || (c =? 63))%N.

Section Splitting.

Variable unicode_upper : N -> N.

(** How many arguments a call takes in the engine that runs the
    detector. *)
Variable argumentLimit : nat.

(** A match of [/(?<=[.!?])\s+/] starting at a position: the character
    just before it ends a sentence, and white space follows. *)
Definition sentence_break_at (x : state) : option state :=
  match fst x with
  | c :: _ =>
      if ends_sentence c
      then match_at unicode_upper
             {| source := spaces; ignoreCase := false; global := false |} x
      else None
  | [] => None
  end.

(** [s.split(separator)] for a separator given by its matches; see
    [Regex.split_from]. *)
Fixpoint split_from_at (m : state -> option state)
  (before after piece : jsstring) (skip : nat) : list jsstring :=
  match skip, after with
  | S n, c :: rest => split_from_at m (c :: before) rest [] n
  | S _, [] => [rev piece]
  | O, [] => [rev piece]
  | O, c :: rest =>
      match m (before, after) with
      | None => split_from_at m (c :: before) rest (c :: piece) 0
      | Some (_, after') =>
          match (length after - length after')%nat, piece with
          | O, [] => split_from_at m (c :: before) rest [c] 0
          | O, _ :: _ => rev piece :: split_from_at m (c :: before) rest [c] 0
          | S n, _ => rev piece :: split_from_at m (c :: before) rest [] n
          end
      end
  end.

Definition split_at (m : state -> option state) (s : jsstring)
  : list jsstring :=
  match s with
  | [] => match m ([], []) with Some _ => [] | None => [[]] end
  | _ => split_from_at m [] s [] 0
  end.

(** One turn of the loop of [splitIntoSegments];
    [result.push(...sentenceSplits)] throws when the sentences are more
    than a call takes as arguments. *)
Definition push_segment (result : list jsstring) (segment : jsstring)
  : Result JsError (list jsstring) :=
  if (500 <? length (JSString.trim segment))%nat
  then
    let sentenceSplits := split_at sentence_break_at segment in
    match JSArray.spread argumentLimit sentenceSplits with
    | Ok pushed => Ok (result ++ pushed)
    | Err e => Err e
    end
  else Ok (result ++ [segment]).

(** The loop: once a turn has thrown, the rest is not run. *)
Fixpoint push_segments (segments : list jsstring) (result : list jsstring)
  : Result JsError (list jsstring) :=
  match segments with
  | [] => Ok result
  | segment :: segments' =>
      match push_segment result segment with
      | Ok result' => push_segments segments' result'
      | Err e => Err e
      end
  end.

Definition splitIntoSegments (text : jsstring)
  : Result JsError (list jsstring) :=
  let segments := split unicode_upper paragraph_break text in
  match push_segments segments [] with
  | Ok result =>
      Ok (filter (fun s => (0 <? length s)%nat) (map JSString.trim result))
  | Err e => Err e
  end.

End Splitting.
End Segmenter.

(** ** Vocabulary of the segment properties *)
Module SegmentSpec.
Section Spec.

Variable unicode_upper : N -> N.

(** What a paragraph contributes: its sentences when it is long, itself
    otherwise. *)
Definition pieces (segment : jsstring) : list jsstring :=
  if (500 <? length (JSString.trim segment))%nat
  then Segmenter.split_at (Segmenter.sentence_break_at unicode_upper) segment
  else [segment].

(** The segments of a text: the pieces of its paragraphs, trimmed, the
    empty ones left out. *)
Definition segments (text : jsstring) : list jsstring :=
  filter (fun s => (0 <? length s)%nat)
    (map JSString.trim
       (flat_map pieces
          (Regex.split unicode_upper Segmenter.paragraph_break text))).

(** A long paragraph with more sentences than a call takes as
    arguments. *)
Definition overflows (limit : nat) (segment : jsstring) : bool :=
  (500 <? length (JSString.trim segment))%nat
  && (limit <? length (Segmenter.split_at
                         (Segmenter.sentence_break_at unicode_upper)
                         segment))%nat.

End Spec.
End SegmentSpec.

Module PrivacyOutput.
Import PrimFloat.

(** [Record<string, number>]: the properties in the order they were
    created.  (No key used here is an array index.) *)
Definition NumberRecord : Type := list (jsstring * float).

(** [record[key] = value] *)
Fixpoint set_property (record : NumberRecord) (key : jsstring) (value : float)
  : NumberRecord :=
  match record with
  | [] => [(key, value)]
  | (k, v) :: record' =>
      if JS.eqb k key then (k, value) :: record'
      else (k, v) :: set_property record' key value
  end.

Record Scores : Type := {
  introspectionScores : NumberRecord;
  sensitivityScores : NumberRecord
}.

(** [PrivacyAnalysisResult] ([core/types.ts]) *)
Record PrivacyAnalysisResult : Type := {
  publicOutput : jsstring;
  privateThoughts : list jsstring;
  scores : option Scores
}.

(** [parts.join(separator)] *)
Fixpoint join (separator : jsstring) (parts : list jsstring) : jsstring :=
  match parts with
  | [] => []
  | [part] => part
  | part :: parts' => part ++ separator ++ join separator parts'
  end.

(** The variables of the loop of [processOutput]. *)
Record Analysis : Type := {
  publicSegments : list jsstring;
  privateSoFar : list jsstring;
  introspectionSoFar : NumberRecord;
  sensitivitySoFar : NumberRecord
}.

Section Processing.

Variable unicode_upper : N -> N.

Variable argumentLimit : nat.

(** One turn of the loop of [processOutput]. *)
Definition analyse (this : PrivacyDetector.t) (a : Analysis)
  (segment : jsstring) : Analysis :=
  let introspectionScore :=
    PrivacyDetector.calculateIntrospectionScore unicode_upper segment in
  let sensitivityScore :=
    PrivacyDetector.calculateSensitivityScore unicode_upper segment in
  let key := JS.slice0 30 segment ++ str "..." in
  let introspectionScores :=
    set_property (introspectionSoFar a) key introspectionScore in
  let sensitivityScores :=
    set_property (sensitivitySoFar a) key sensitivityScore in
  if PrivacyDetector.isLikelyPrivate unicode_upper this segment
       (Some introspectionScore) (Some sensitivityScore)
  then {| publicSegments := publicSegments a;
          privateSoFar := privateSoFar a ++ [segment];
          introspectionSoFar := introspectionScores;
          sensitivitySoFar := sensitivityScores |}
  else {| publicSegments := publicSegments a ++ [segment];
          privateSoFar := privateSoFar a;
          introspectionSoFar := introspectionScores;
          sensitivitySoFar := sensitivityScores |}.

Definition processOutput (this : PrivacyDetector.t) (text : jsstring)
  : IO PrivacyAnalysisResult :=
  try_catch
    (segments <-
       settle (Segmenter.splitIntoSegments unicode_upper argumentLimit text) ;;
     let a :=
       fold_left (analyse this) segments
         {| publicSegments := []; privateSoFar := [];
            introspectionSoFar := []; sensitivitySoFar := [] |} in
     ret {| publicOutput := join (str " ") (publicSegments a);
            privateThoughts := privateSoFar a;
            scores := Some {| introspectionScores := introspectionSoFar a;
                              sensitivityScores := sensitivitySoFar a |} |})%io
    (fun _ => throw (PrivacyError PRIVACY_PROCESS_FAILED)).

End Processing.
End PrivacyOutput.

(** ** Sample texts *)
Module SampleTexts.

Definition detector : PrivacyDetector.t :=
  PrivacyDetector.createPrivacyDetector SampleDetector.config.

(** The response of the first example of the README. *)
Definition readme_response : jsstring :=
  str "Here is my public response. This is my private thought that I don't want to share.".

(** Three paragraphs, the second one confidential; the breaks between
    them hold blanks. *)
Definition three_paragraphs : jsstring :=
  str "The meeting is at noon." ++ [10; 10]%N
    ++ str "  Keep this to yourself.  " ++ [10; 32; 9; 10]%N
    ++ str "See you there!".

(** Blank lines only. *)
Definition blank : jsstring := [32; 10; 10; 9; 32; 10]%N.

End SampleTexts.

(** ** Vocabulary of the properties of letter case *)
Module CaseSpec.

(** A string with its ASCII letters in upper case. *)
Definition upper (s : jsstring) : jsstring := map Regex.ascii_upper s.

(** A position of the input, moved to [upper] of the input. *)
Definition upper_state (x : Regex.state) : Regex.state :=
  (upper (fst x), upper (snd x)).

End CaseSpec.

(** ** Vocabulary of the properties of the scores *)
Module ScoreSpec.
Import PrimFloat.

(** [1.0], the top of the scale of the two scores. *)
Definition one : float := 1%float.

(** [1.0 <= t] *)
Definition at_least_one (t : float) : bool := leb one t.

End ScoreSpec.

(** A detector whose thresholds are at the top of the scale. *)
Module SampleStrict.
Import PrimFloat.

Definition config : PrivacyDetector.PrivacyConfig :=
  {| PrivacyDetector.introspectionThreshold := 1.0%float;
     PrivacyDetector.sensitivityThreshold := 1.0%float;
     PrivacyDetector.customPatterns := None |}.

(** A text made of nothing but first-person pronouns and doubt. *)
Definition musing : jsstring := str "I think I doubt myself".

End SampleStrict.

(** ** Vocabulary of the properties of custom patterns *)
Module PatternSpec.

Section Occurrence.

Variable unicode_upper : N -> N.

(** [mid] is [pattern] up to letter case: character by character the two
    have the same canonical form. *)
Definition same_up_to_case (pattern mid : jsstring) : Prop :=
  Forall2
    (fun p c =>
       Regex.canonicalize unicode_upper p = Regex.canonicalize unicode_upper c)
    pattern mid.

(** [text] holds [pattern] somewhere, up to letter case. *)
Definition occurs_in (pattern text : jsstring) : Prop :=
  exists pre mid post,
    text = pre ++ mid ++ post /\ same_up_to_case pattern mid.

End Occurrence.
End PatternSpec.

(** ** Sample runs of the store and of the whole path of a thought *)
Module SampleRuns.

(** A second thought, saved right after [Sample.saved]: the clock still
    shows the same second. *)
Definition blob2 : Buffer := repeat x02 48.

Definition saved_again : Result JsError StoredThought * World :=
  StorageManager.saveEncryptedThought Sample.config blob2 (snd Sample.saved).

Definition saved_again_thought : StoredThought :=
  {| id := str "private_thought_20240408235234";
     filepath := str "private/private_thought_20240408235234.enc";
     timestamp := 1712620354995;
     sizeBytes := 48 |}.

(** The store of [Sample.fs_mixed], some seconds later. *)
Definition later : World :=
  {| fsys := Sample.fs_mixed; clock := 1712620400123; latency := [2; 3; 4]%Z;
     entropy := entropy (Sample.world empty_fs) |}.

Definition stats_before : StorageStats :=
  {| count := 2; totalSizeBytes := 80;
     oldestTimestamp := 1712620354000; newestTimestamp := 1712620381000 |}.

Definition saved_later : Result JsError StoredThought * World :=
  StorageManager.saveEncryptedThought Sample.config blob2 later.

Definition saved_later_thought : StoredThought :=
  {| id := str "private_thought_20240408235320";
     filepath := str "private/private_thought_20240408235320.enc";
     timestamp := 1712620400128;
     sizeBytes := 48 |}.

(** The sample text on its way to a file: encrypted by the sample
    manager, then saved. *)
Definition encrypted : Result JsError Buffer * World :=
  EncryptionManager.encrypt SampleKeys.manager
    (EncryptionManager.Text SampleKeys.text) SampleKeys.running.

Definition blob : Buffer :=
  SampleKeys.blob_of (EncryptionManager.Text SampleKeys.text).

Definition stored : Result JsError StoredThought * World :=
  StorageManager.saveEncryptedThought Sample.config blob (snd encrypted).

Definition stored_thought : StoredThought :=
  {| id := str "private_thought_20240408235234";
     filepath := str "private/private_thought_20240408235234.enc";
     timestamp := 1712620354995;
     sizeBytes := 32 |}.

End SampleRuns.

(** * Properties *)

(** ** The runtime model on known answers *)

Example path_join_default_directory :
  Path.join (str "") (str "private") = str "private".
Proof. reflexivity. Qed.

Example path_join_normalizes :
  Path.join (str "/srv//data/../store/") (str "./a.enc") = str "/srv/store/a.enc".
Proof. reflexivity. Qed.

Example path_basename_of_thought :
  Path.basename (str "private/private_thought_20240408235234.enc") None
  = str "private_thought_20240408235234.enc".
Proof. reflexivity. Qed.

Example path_basename_strips_suffix :
  Path.basename (str "private_thought_20240408235234.enc") (Some (str ".enc"))
  = str "private_thought_20240408235234".
Proof. reflexivity. Qed.

Example toISOString_2024 :
  Date.toISOString 1712620354984 = str "2024-04-08T23:52:34.984Z".
Proof. reflexivity. Qed.

Example toISOString_leap_day :
  Date.toISOString 951782400000 = str "2000-02-29T00:00:00.000Z".
Proof. reflexivity. Qed.

Example toISOString_before_epoch :
  Date.toISOString (-1) = str "1969-12-31T23:59:59.999Z".
Proof. reflexivity. Qed.

Example split_on_whitespace :
  Regex.split SampleDetector.unicode_upper PrivacySpec.whitespace_re
    (str "  keep this   quiet ")
  = [str ""; str "keep"; str "this"; str "quiet"; str ""].
Proof. reflexivity. Qed.

Example split_empty_string :
  Regex.split SampleDetector.unicode_upper PrivacySpec.whitespace_re (str "")
  = [str ""].
Proof. reflexivity. Qed.

Example count_first_person :
  Regex.match_count SampleDetector.unicode_upper
    (PrivacyDetector.words_gi "I" ["me"; "my"; "mine"; "myself"]%string)
    (str "I, me; my-mine myself mean Im i") = 6%nat.
Proof. reflexivity. Qed.

Example utf8_encode_mixed :
  Utf8.encode SampleKeys.text = Hex.bytes "6e61c3af766520f09f9880".
Proof. reflexivity. Qed.

Example utf8_decode_ill_formed :
  Utf8.decode (Hex.bytes "e28241eda080") = [65533; 65; 65533; 65533; 65533]%N.
Proof. reflexivity. Qed.

Example base64_encode_padding :
  Base64.encode (Hex.bytes "414243fffe") = str "QUJD//4=".
Proof. reflexivity. Qed.

Example base64_decode_lenient :
  Base64.decode (str "QUJD
__4") = Hex.bytes "414243fffe".
Proof. reflexivity. Qed.

(** The sample manager is the one [createEncryptionManager] returns on a
    fresh system, and starting again reads the same key back. *)
Example sample_manager_started :
  fst SampleKeys.started = Ok SampleKeys.manager
  /\ fst (EncryptionManager.createEncryptionManager SampleKeys.config
            SampleKeys.running) = Ok SampleKeys.manager.
Proof. split; vm_compute; reflexivity. Qed.

(** FIPS 197, appendix C.3. *)
Example aes256_fips197_vector :
  option_map
    (map (AES.Cipher
            (AES.KeyExpansion
               (Hex.bytes
                  "000102030405060708090a0b0c0d0e0f101112131415161718191a1b1c1d1e1f"))))
    (AES.blocks_of (Hex.bytes "00112233445566778899aabbccddeeff"))
  = AES.blocks_of (Hex.bytes "8ea2b7ca516745bfeafc49904b496089").
Proof. vm_compute. reflexivity. Qed.

(** NIST SP 800-38A, F.2.5 (CBC-AES256.Encrypt), first two blocks,
    followed by the block of padding the cipher adds. *)
Example aes256_cbc_sp800_38a_vector :
  Crypto.cipheriv
    (Hex.bytes "603deb1015ca71be2b73aef0857d77811f352c073b6108d72d9810a30914dff4")
    (Hex.bytes "000102030405060708090a0b0c0d0e0f")
    (Hex.bytes "6bc1bee22e409f96e93d7e117393172aae2d8a571e03ac9c9eb76fac45af8e51")
  = Ok (Hex.bytes
          "f58c4c04d6e5f1ba779eabfb5f7bfbd69cfc4e967edb808d679f777bc6702c7d3a3aa5e0213db1a9901f9036cf5102d2").
Proof. vm_compute. reflexivity. Qed.

Lemma jsstring_eqb_eq (s t : jsstring) : JS.eqb s t = true <-> s = t.
Proof.
  revert t; induction s as [|a s IH]; intros [|b t]; simpl;
    try (split; [discriminate|discriminate]); try tauto.
  rewrite andb_true_iff, N.eqb_eq, IH.
  split; [intros [-> ->]; reflexivity | intros E; inversion E; auto].
Qed.

Lemma jsstring_eqb_refl (s : jsstring) : JS.eqb s s = true.
Proof. apply jsstring_eqb_eq; reflexivity. Qed.

(** ** The IO monad *)

Lemma fsys_elapse (w : World) : fsys (elapse w) = fsys w.
Proof. reflexivity. Qed.

Lemma Ok_inj (E A : Type) (a b : A) : @Ok E A a = Ok b -> a = b.
Proof. intros H. injection H as H. exact H. Qed.

(** ** Sorting *)
Section SortFacts.

Variable A : Type.
Variable key : A -> Q.

Let cmp : A -> A -> Q := fun a b => (key b - key a)%Q.
Let desc : A -> A -> Prop := fun a b => (key b <= key a)%Q.

Lemma insert_perm (x : A) (l : list A) :
  Permutation (x :: l) (JSArray.insert cmp x l).
Proof.
  induction l as [|y l IH]; simpl; [reflexivity|].
  destruct (Qle_bool (cmp x y) 0); [reflexivity|].
  rewrite perm_swap. constructor. exact IH.
Qed.

Lemma sort_perm (l : list A) : Permutation l (JSArray.sort cmp l).
Proof.
  induction l as [|x l IH]; simpl; [constructor|].
  rewrite <- insert_perm. constructor. exact IH.
Qed.

Lemma insert_sorted (x : A) (l : list A) :
  StronglySorted desc l -> StronglySorted desc (JSArray.insert cmp x l).
Proof.
  induction 1 as [|y l Hs IH Hall]; simpl.
  - repeat constructor.
  - destruct (Qle_bool (cmp x y) 0) eqn:E.
    + apply Qle_bool_iff in E. unfold cmp in E.
      constructor; [constructor; assumption|].
      constructor; [unfold desc; lra|].
      eapply Forall_impl; [|exact Hall].
      unfold desc; intros; lra.
    + assert (E' : ~ (cmp x y <= 0)%Q).
      { intros H. apply Qle_bool_iff in H. congruence. }
      unfold cmp in E'.
      constructor; [exact IH|].
      eapply Permutation_Forall; [apply insert_perm|].
      constructor; [unfold desc; lra | exact Hall].
Qed.

Lemma sort_sorted (l : list A) : StronglySorted desc (JSArray.sort cmp l).
Proof.
  induction l as [|x l IH]; simpl; [constructor|].
  apply insert_sorted; exact IH.
Qed.

End SortFacts.

(** ** [StorageManager]: listing *)
Section StorageListing.

Variable config : Config.StorageConfig.

Let dir := StorageManager.privateDir config.

Lemma getSavedFiles_run (w : World) :
  StorageManager.getSavedFiles config w =
  (match readdir (fsys w) dir with
   | Ok files => Ok (map (Path.join dir) (StorageSpec.enc_names files))
   | Err ENOENT => Ok []
   | Err _ => Err (StorageError STORAGE_LIST_FAILED)
   end, elapse w).
Proof.
  unfold StorageManager.getSavedFiles, try_catch, bind, Sys.fs_readdir, ret,
    throw, StorageSpec.enc_names. fold dir.
  destruct (readdir (fsys w) dir) as [files|[]]; reflexivity.
Qed.

Lemma metadata_loop_run (paths : list jsstring) :
  forall (acc : list StoredThought) (w : World),
  exists w',
    JSArray.for_of paths StorageManager.metadata_step acc w =
      (Ok (acc ++ StorageSpec.stat_records (fsys w) paths), w')
    /\ fsys w' = fsys w.
Proof.
  induction paths as [|p paths IH]; intros acc w; simpl.
  - exists w. rewrite app_nil_r. split; reflexivity.
  - unfold bind at 1.
    unfold StorageManager.metadata_step at 1.
    unfold try_catch, bind, Sys.fs_stat, ret.
    destruct (stat (fsys w) p) as [st|e] eqn:Est; simpl.
    + destruct (IH (acc ++ [StorageSpec.record_of p st]) (elapse w))
        as (w' & Hrun & Hfs).
      exists w'. split; [|exact Hfs].
      unfold StorageSpec.record_of in Hrun. rewrite Hrun.
      rewrite fsys_elapse, <- app_assoc. reflexivity.
    + destruct (IH acc (elapse w)) as (w' & Hrun & Hfs).
      exists w'. split; [|exact Hfs].
      rewrite Hrun, fsys_elapse. reflexivity.
Qed.

(** What [getThoughtMetadata] returns, read off the file system. *)
Lemma getThoughtMetadata_run (w : World) :
  fst (StorageManager.getThoughtMetadata config w) =
  match readdir (fsys w) dir with
  | Ok files =>
      Ok (JSArray.sort (fun a b => (timestamp b - timestamp a)%Q)
            (StorageSpec.listed_records config (fsys w) files))
  | Err ENOENT => Ok []
  | Err _ => Err (StorageError STORAGE_LIST_FAILED)
  end.
Proof.
  unfold StorageManager.getThoughtMetadata.
  unfold bind at 1. rewrite getSavedFiles_run.
  unfold StorageSpec.listed_records. fold dir.
  destruct (readdir (fsys w) dir) as [files|e].
  - unfold bind.
    destruct (metadata_loop_run
                (map (Path.join dir) (StorageSpec.enc_names files)) [] (elapse w))
      as (w' & Hrun & _).
    rewrite Hrun. reflexivity.
  - destruct e; reflexivity.
Qed.

(** What [getStorageStats] returns, read off the listing: beyond
    [limit] records [Math.min(...timestamps)] throws. *)
Lemma getStorageStats_run (limit : nat) (w : World) :
  fst (StorageManager.getStorageStats config limit w) =
  match fst (StorageManager.getThoughtMetadata config w) with
  | Ok [] => Ok StorageSpec.empty_stats
  | Ok (t :: rest) =>
      if (limit <? length (t :: rest))%nat then Err RangeError
      else
        Ok {| count := Z.of_nat (length (t :: rest));
              totalSizeBytes :=
                fold_left (fun sum thought => (sum + sizeBytes thought)%Z)
                  (t :: rest) 0%Z;
              oldestTimestamp :=
                fold_left Qmin (map timestamp rest) (timestamp t);
              newestTimestamp :=
                fold_left Qmax (map timestamp rest) (timestamp t) |}
  | Err e => Err e
  end.
Proof.
  unfold StorageManager.getStorageStats. unfold bind at 1.
  destruct (StorageManager.getThoughtMetadata config w) as [[l|e] w'];
    cbn [fst]; [|reflexivity].
  destruct l as [|t rest]; [reflexivity|].
  unfold bind, settle, JSArray.Math_min, JSArray.Math_max, JSArray.spread, ret.
  cbn [length]. rewrite length_map.
  destruct (limit <? S (length rest))%nat; reflexivity.
Qed.

End StorageListing.

(** ** Aggregates *)

Lemma fold_left_sizes (l : list StoredThought) (acc : Z) :
  fold_left (fun sum thought => (sum + sizeBytes thought)%Z) l acc =
  (acc + StorageSpec.sum_sizes l)%Z.
Proof.
  revert acc; induction l as [|t l IH]; intros acc; simpl.
  - lia.
  - rewrite IH. lia.
Qed.

Lemma Qmin_cases (x y : Q) :
  (Qmin x y = x /\ (x <= y)%Q) \/ (Qmin x y = y /\ (y <= x)%Q).
Proof.
  unfold Qmin, GenericMinMax.gmin.
  destruct (Qcompare x y) eqn:C.
  - left. split; [reflexivity|]. apply Qeq_alt in C. rewrite C. apply Qle_refl.
  - left. split; [reflexivity|]. apply Qlt_alt in C. apply Qlt_le_weak. exact C.
  - right. split; [reflexivity|]. apply Qgt_alt in C. apply Qlt_le_weak. exact C.
Qed.

Lemma Qmax_cases (x y : Q) :
  (Qmax x y = x /\ (y <= x)%Q) \/ (Qmax x y = y /\ (x <= y)%Q).
Proof.
  unfold Qmax, GenericMinMax.gmax.
  destruct (Qcompare x y) eqn:C.
  - left. split; [reflexivity|]. apply Qeq_alt in C. rewrite C. apply Qle_refl.
  - right. split; [reflexivity|]. apply Qlt_alt in C. apply Qlt_le_weak. exact C.
  - left. split; [reflexivity|]. apply Qgt_alt in C. apply Qlt_le_weak. exact C.
Qed.

Lemma Math_min_is_minimum (xs : list Q) :
  forall x, StorageSpec.is_minimum (fold_left Qmin xs x) (x :: xs).
Proof.
  unfold StorageSpec.is_minimum.
  induction xs as [|y xs IH]; intros x; simpl.
  - split; [left; reflexivity | intros ? [<-|[]]; apply Qle_refl].
  - destruct (IH (Qmin x y)) as [Hin Hle].
    pose proof (Hle (Qmin x y) (or_introl eq_refl)) as Hm.
    split.
    + destruct Hin as [E|Hin]; [|right; right; exact Hin].
      rewrite <- E. destruct (Qmin_cases x y) as [[-> _]|[-> _]]; auto.
    + intros z [<-|[<-|Hz]].
      * destruct (Qmin_cases x y) as [[E H]|[E H]]; rewrite E in *; lra.
      * destruct (Qmin_cases x y) as [[E H]|[E H]]; rewrite E in *; lra.
      * apply Hle. right; exact Hz.
Qed.

Lemma Math_max_is_maximum (xs : list Q) :
  forall x, StorageSpec.is_maximum (fold_left Qmax xs x) (x :: xs).
Proof.
  unfold StorageSpec.is_maximum.
  induction xs as [|y xs IH]; intros x; simpl.
  - split; [left; reflexivity | intros ? [<-|[]]; apply Qle_refl].
  - destruct (IH (Qmax x y)) as [Hin Hle].
    pose proof (Hle (Qmax x y) (or_introl eq_refl)) as Hm.
    split.
    + destruct Hin as [E|Hin]; [|right; right; exact Hin].
      rewrite <- E. destruct (Qmax_cases x y) as [[-> _]|[-> _]]; auto.
    + intros z [<-|[<-|Hz]].
      * destruct (Qmax_cases x y) as [[E H]|[E H]]; rewrite E in *; lra.
      * destruct (Qmax_cases x y) as [[E H]|[E H]]; rewrite E in *; lra.
      * apply Hle. right; exact Hz.
Qed.

(** ** Claims about the store's views *)

(** C6. [stats()] over an empty listing is all zeros; over a listing of
    N > 0 records it reports N, the sum of the sizes, and the least and
    the greatest timestamp, as long as one call takes N arguments.  Over
    a longer listing [Math.min(...timestamps)] throws, and [stats()]
    ends with the engine's [RangeError]. *)
Theorem getStorageStats_aggregates
  (config : Config.StorageConfig) (limit : nat) (w : World)
  (l : list StoredThought) :
  fst (StorageManager.getThoughtMetadata config w) = Ok l ->
  ((length l <= limit)%nat ->
   exists s,
     fst (StorageManager.getStorageStats config limit w) = Ok s
     /\ (l = [] -> s = StorageSpec.empty_stats)
     /\ (l <> [] ->
         count s = Z.of_nat (length l)
         /\ totalSizeBytes s = StorageSpec.sum_sizes l
         /\ StorageSpec.is_minimum (oldestTimestamp s) (map timestamp l)
         /\ StorageSpec.is_maximum (newestTimestamp s) (map timestamp l)))
  /\ ((limit < length l)%nat ->
      fst (StorageManager.getStorageStats config limit w) = Err RangeError).
Proof.
  intros Hl. rewrite getStorageStats_run, Hl. split.
  - intros Hlimit. destruct l as [|t rest].
    + eexists; split; [reflexivity|]. split; [reflexivity|congruence].
    + apply Nat.ltb_ge in Hlimit. rewrite Hlimit.
      eexists; split; [reflexivity|]. split; [discriminate|].
      intros _. cbn [count totalSizeBytes oldestTimestamp newestTimestamp].
      split; [reflexivity|]. split; [apply fold_left_sizes|].
      split; [apply Math_min_is_minimum | apply Math_max_is_maximum].
  - intros Hlimit. destruct l as [|t rest]; [inversion Hlimit|].
    apply Nat.ltb_lt in Hlimit. rewrite Hlimit. reflexivity.
Qed.

(** A record of [listed_records] belongs to a listed [.enc] name whose
    [stat] succeeded. *)
Lemma listed_records_origin
  (config : Config.StorageConfig) (fs : FileSystem) (files : list jsstring)
  (t : StoredThought) :
  In t (StorageSpec.listed_records config fs files) <->
  exists file st,
    In file files
    /\ JS.endsWith file (str ".enc") = true
    /\ stat fs (Path.join (StorageManager.privateDir config) file) = Ok st
    /\ t = StorageSpec.record_of
             (Path.join (StorageManager.privateDir config) file) st.
Proof.
  unfold StorageSpec.listed_records, StorageSpec.stat_records,
    StorageSpec.enc_names.
  rewrite in_flat_map. split.
  - intros (p & Hp & Ht). apply in_map_iff in Hp as (file & <- & Hfile).
    apply filter_In in Hfile as [Hin Henc].
    destruct (stat fs _) as [st|] eqn:Est; [|contradiction].
    destruct Ht as [<-|[]]. exists file, st. auto.
  - intros (file & st & Hin & Henc & Est & ->).
    exists (Path.join (StorageManager.privateDir config) file). split.
    + apply in_map. apply filter_In. auto.
    + rewrite Est. left; reflexivity.
Qed.

(** C7, as the code has it.  [listMetadata()] answers the empty list when
    the directory is missing; otherwise it answers, newest first, exactly
    the records of the listed [.enc] files whose [stat] succeeds, a file
    whose [stat] fails being left out.  Files with equal modification
    times stay next to each other, so the order is descending but not
    strictly so. *)
Theorem getThoughtMetadata_newest_first
  (config : Config.StorageConfig) (w : World) :
  (readdir (fsys w) (StorageManager.privateDir config) = Err ENOENT ->
   fst (StorageManager.getThoughtMetadata config w) = Ok [])
  /\ (forall files,
        readdir (fsys w) (StorageManager.privateDir config) = Ok files ->
        exists l,
          fst (StorageManager.getThoughtMetadata config w) = Ok l
          /\ Permutation (StorageSpec.listed_records config (fsys w) files) l
          /\ (forall t,
                In t l <->
                exists file st,
                  In file files
                  /\ JS.endsWith file (str ".enc") = true
                  /\ stat (fsys w)
                       (Path.join (StorageManager.privateDir config) file)
                     = Ok st
                  /\ t = StorageSpec.record_of
                           (Path.join (StorageManager.privateDir config) file)
                           st)
          /\ StorageSpec.newest_first l).
Proof.
  rewrite getThoughtMetadata_run. split.
  - intros ->. reflexivity.
  - intros files ->. eexists. split; [reflexivity|]. split; [|split].
    + apply (sort_perm timestamp).
    + intros t. rewrite <- listed_records_origin. split; intros Ht.
      * exact (Permutation_in _ (Permutation_sym (sort_perm timestamp _)) Ht).
      * exact (Permutation_in _ (sort_perm timestamp _) Ht).
    + apply (sort_sorted timestamp).
Qed.

(** C10. Only names ending in [.enc] reach the views: every record
    returned comes from such a name, and two directory states with the
    same [.enc] names and the same [stat] answers on them give the same
    metadata and the same statistics, whatever else they hold. *)
Theorem views_only_consider_enc_files
  (config : Config.StorageConfig) (limit : nat) (w w' : World)
  (files files' : list jsstring) :
  readdir (fsys w) (StorageManager.privateDir config) = Ok files ->
  readdir (fsys w') (StorageManager.privateDir config) = Ok files' ->
  StorageSpec.enc_names files = StorageSpec.enc_names files' ->
  (forall file,
     In file (StorageSpec.enc_names files) ->
     stat (fsys w) (Path.join (StorageManager.privateDir config) file) =
     stat (fsys w') (Path.join (StorageManager.privateDir config) file)) ->
  (forall l t,
     fst (StorageManager.getThoughtMetadata config w) = Ok l -> In t l ->
     exists file,
       In file files /\ JS.endsWith file (str ".enc") = true
       /\ filepath t = Path.join (StorageManager.privateDir config) file)
  /\ fst (StorageManager.getThoughtMetadata config w') =
     fst (StorageManager.getThoughtMetadata config w)
  /\ fst (StorageManager.getStorageStats config limit w') =
     fst (StorageManager.getStorageStats config limit w).
Proof.
  intros Hdir Hdir' Hnames Hstat.
  assert (Hsame : fst (StorageManager.getThoughtMetadata config w') =
                  fst (StorageManager.getThoughtMetadata config w)).
  { rewrite !getThoughtMetadata_run, Hdir, Hdir'. f_equal. f_equal.
    unfold StorageSpec.listed_records, StorageSpec.stat_records.
    rewrite <- Hnames. revert Hstat.
    generalize (StorageSpec.enc_names files) as names.
    induction names as [|f names IH]; intros Hstat; [reflexivity|].
    cbn [map flat_map]. rewrite (Hstat f (or_introl eq_refl)).
    f_equal. apply IH. intros file Hin. apply Hstat. right; exact Hin. }
  split; [|split].
  - intros l t Hl Ht. rewrite getThoughtMetadata_run, Hdir in Hl.
    injection Hl as <-.
    apply (Permutation_in _ (Permutation_sym (sort_perm timestamp _))) in Ht.
    apply listed_records_origin in Ht as (file & st & Hin & Henc & _ & ->).
    exists file. auto.
  - exact Hsame.
  - rewrite !getStorageStats_run, Hsame. reflexivity.
Qed.

Lemma getStorageStats_aggregates_witness :
  exists s,
    fst (StorageManager.getStorageStats Sample.config Sample.limit
           (Sample.world Sample.fs_mixed)) = Ok s
    /\ (Sample.thoughts_mixed = [] -> s = StorageSpec.empty_stats)
    /\ (Sample.thoughts_mixed <> [] ->
        count s = Z.of_nat (length Sample.thoughts_mixed)
        /\ totalSizeBytes s = StorageSpec.sum_sizes Sample.thoughts_mixed
        /\ StorageSpec.is_minimum (oldestTimestamp s)
             (map timestamp Sample.thoughts_mixed)
        /\ StorageSpec.is_maximum (newestTimestamp s)
             (map timestamp Sample.thoughts_mixed)).
Proof.
  apply (getStorageStats_aggregates Sample.config Sample.limit
           (Sample.world Sample.fs_mixed) (l := Sample.thoughts_mixed)).
  - vm_compute. reflexivity.
  - apply Nat.leb_le. vm_compute. reflexivity.
Defined.

Lemma getThoughtMetadata_newest_first_witness :
  fst (StorageManager.getThoughtMetadata Sample.config
         (Sample.world Sample.fs_absent)) = Ok []
  /\ exists l,
       fst (StorageManager.getThoughtMetadata Sample.config
              (Sample.world Sample.fs_mixed)) = Ok l
       /\ Permutation
            (StorageSpec.listed_records Sample.config Sample.fs_mixed
               Sample.listing_mixed) l
       /\ (forall t,
             In t l <->
             exists file st,
               In file Sample.listing_mixed
               /\ JS.endsWith file (str ".enc") = true
               /\ stat Sample.fs_mixed
                    (Path.join (StorageManager.privateDir Sample.config) file)
                  = Ok st
               /\ t = StorageSpec.record_of
                        (Path.join (StorageManager.privateDir Sample.config)
                           file) st)
       /\ StorageSpec.newest_first l.
Proof.
  split.
  - apply (proj1 (getThoughtMetadata_newest_first Sample.config
                    (Sample.world Sample.fs_absent))).
    reflexivity.
  - apply (proj2 (getThoughtMetadata_newest_first Sample.config
                    (Sample.world Sample.fs_mixed)) Sample.listing_mixed).
    reflexivity.
Defined.

(** C7 as stated fails: two files with the same modification time are
    listed next to each other, so the listing is not strictly descending. *)
Lemma getThoughtMetadata_not_strictly_descending :
  exists l,
    fst (StorageManager.getThoughtMetadata Sample.config
           (Sample.world Sample.fs_ties)) = Ok l
    /\ length l = 2%nat
    /\ ~ StorageSpec.strictly_newest_first l.
Proof.
  eexists. split; [vm_compute; reflexivity|]. split; [reflexivity|].
  unfold StorageSpec.strictly_newest_first. intros H.
  apply StronglySorted_inv in H as [_ H].
  apply Forall_inv in H. unfold Qlt in H. cbn in H. lia.
Qed.

Lemma views_only_consider_enc_files_witness :
  (forall l t,
     fst (StorageManager.getThoughtMetadata Sample.config
            (Sample.world Sample.fs_mixed)) = Ok l ->
     In t l ->
     exists file,
       In file Sample.listing_mixed
       /\ JS.endsWith file (str ".enc") = true
       /\ filepath t =
          Path.join (StorageManager.privateDir Sample.config) file)
  /\ fst (StorageManager.getThoughtMetadata Sample.config
            (Sample.world Sample.fs_thoughts_only)) =
     fst (StorageManager.getThoughtMetadata Sample.config
            (Sample.world Sample.fs_mixed))
  /\ fst (StorageManager.getStorageStats Sample.config Sample.limit
            (Sample.world Sample.fs_thoughts_only)) =
     fst (StorageManager.getStorageStats Sample.config Sample.limit
            (Sample.world Sample.fs_mixed)).
Proof.
  apply (views_only_consider_enc_files Sample.config Sample.limit
           (Sample.world Sample.fs_mixed)
           (Sample.world Sample.fs_thoughts_only)
           (files' := Sample.listing_thoughts_only)).
  - reflexivity.
  - reflexivity.
  - reflexivity.
  - intros file Hin. vm_compute in Hin.
    destruct Hin as [<-|[<-|[<-|[]]]]; reflexivity.
Defined.

(** ** Paths *)
Section PathFacts.

Lemma split_slash_nonempty (p : jsstring) : Path.split_slash p <> [].
Proof.
  destruct p as [|c p]; simpl; [discriminate|].
  destruct (N.eqb c Path.slash); [discriminate|].
  destruct (Path.split_slash p); discriminate.
Qed.

Lemma split_slash_no_slash (f : jsstring) :
  no_slash f -> Path.split_slash f = [f].
Proof.
  induction 1 as [|c f Hc Hf IH]; simpl; [reflexivity|].
  apply N.eqb_neq in Hc. rewrite Hc, IH. reflexivity.
Qed.

Lemma split_slash_snoc (pre f : jsstring) :
  no_slash f ->
  Path.split_slash (pre ++ Path.slash :: f) = Path.split_slash pre ++ [f].
Proof.
  intros Hf. induction pre as [|c pre IH]; simpl.
  - rewrite (split_slash_no_slash Hf). reflexivity.
  - destruct (N.eqb c Path.slash); rewrite IH; [reflexivity|].
    destruct (Path.split_slash pre) as [|seg segs] eqn:E; [|reflexivity].
    exfalso. exact (split_slash_nonempty pre E).
Qed.

Lemma jsstring_eqb_neq (s t : jsstring) : s <> t -> JS.eqb s t = false.
Proof.
  intros H. destruct (JS.eqb s t) eqn:E; [|reflexivity].
  apply jsstring_eqb_eq in E. contradiction.
Qed.

Lemma normalize_step_plain (allow : bool) (res : list jsstring) (f : jsstring) :
  plain_name f -> Path.normalize_step allow res f = f :: res.
Proof.
  intros (H0 & _ & H1 & H2). unfold Path.normalize_step.
  rewrite (jsstring_eqb_neq H0), (jsstring_eqb_neq H1), (jsstring_eqb_neq H2).
  reflexivity.
Qed.

Lemma join_slash_snoc (l : list jsstring) (f : jsstring) :
  Path.join_slash (l ++ [f]) =
  match l with [] => f | _ => Path.join_slash l ++ Path.slash :: f end.
Proof.
  induction l as [|a l IH]; [reflexivity|].
  destruct l as [|b l]; [reflexivity|].
  change (Path.join_slash ((a :: b :: l) ++ [f]))
    with (a ++ Path.slash :: Path.join_slash ((b :: l) ++ [f])).
  rewrite IH.
  change (Path.join_slash (a :: b :: l))
    with (a ++ Path.slash :: Path.join_slash (b :: l)).
  rewrite <- app_assoc. reflexivity.
Qed.

Lemma normalizeString_ends (p : jsstring) (segs : list jsstring)
  (f : jsstring) (allow : bool) :
  plain_name f -> Path.split_slash p = segs ++ [f] ->
  ends_in_component (Path.normalizeString p allow) f.
Proof.
  intros Hf Hsplit. unfold Path.normalizeString.
  rewrite Hsplit, fold_left_app. cbn [fold_left].
  rewrite (normalize_step_plain _ _ Hf). cbn [rev].
  rewrite join_slash_snoc.
  destruct (rev _); [left; reflexivity | right; eexists; reflexivity].
Qed.

Lemma last_nonempty_no_slash (f : jsstring) :
  f <> [] -> no_slash f -> last f 0%N <> Path.slash.
Proof.
  intros H0 Hf. destruct (exists_last H0) as (f' & c & ->).
  rewrite last_last. apply Forall_app in Hf as [_ Hc].
  inversion Hc; assumption.
Qed.

Lemma last_app_nonempty (A : Type) (l f : list A) (d : A) :
  f <> [] -> last (l ++ f) d = last f d.
Proof.
  intros H0. destruct (exists_last H0) as (f' & c & ->).
  rewrite app_assoc, !last_last. reflexivity.
Qed.

Lemma normalize_ends (p : jsstring) (segs : list jsstring) (f : jsstring) :
  plain_name f -> Path.split_slash p = segs ++ [f] ->
  last p 0%N <> Path.slash ->
  ends_in_component (Path.normalize p) f.
Proof.
  intros Hf Hsplit Hlast. unfold Path.normalize.
  destruct p as [|c p'].
  { exfalso. destruct Hf as (H0 & _). simpl in Hsplit.
    destruct segs as [|s [|s' segs]]; simpl in Hsplit; try discriminate.
    injection Hsplit as <-. contradiction. }
  apply N.eqb_neq in Hlast. rewrite Hlast.
  destruct (@normalizeString_ends _ _ _ (negb (N.eqb c Path.slash)) Hf Hsplit)
    as [E|(pre & E)]; rewrite E.
  - destruct Hf as (H0 & _). destruct f as [|a f]; [contradiction|].
    destruct (N.eqb c Path.slash);
      [right; exists []; reflexivity | left; reflexivity].
  - destruct (pre ++ Path.slash :: f) as [|a q] eqn:Eq;
      [destruct pre; discriminate|].
    rewrite <- Eq.
    destruct (N.eqb c Path.slash).
    + right. exists (Path.slash :: pre). reflexivity.
    + right. exists pre. reflexivity.
Qed.

Lemma last_component_ends (q f : jsstring) :
  plain_name f -> ends_in_component q f -> Path.last_component q = f.
Proof.
  intros (H0 & Hf & _) Hq. unfold Path.last_component.
  assert (Hstrip : Path.strip_trailing_slashes_rev (rev q) = rev q).
  { assert (Hl : last q 0%N <> Path.slash).
    { destruct Hq as [->|(pre & ->)].
      - apply last_nonempty_no_slash; assumption.
      - change (pre ++ Path.slash :: f) with (pre ++ [Path.slash] ++ f).
        rewrite app_assoc, last_app_nonempty by assumption.
        apply last_nonempty_no_slash; assumption. }
    assert (Hq0 : q <> []).
    { destruct Hq as [->|(pre & ->)]; [assumption|destruct pre; discriminate]. }
    destruct (exists_last Hq0) as (q' & c & ->).
    rewrite last_last in Hl. rewrite rev_app_distr. simpl.
    apply N.eqb_neq in Hl. rewrite Hl. reflexivity. }
  rewrite Hstrip, rev_involutive.
  destruct Hq as [->|(pre & ->)].
  - rewrite split_slash_no_slash by assumption. reflexivity.
  - rewrite split_slash_snoc by assumption. apply last_last.
Qed.

(** The base name of [path.join(d, f)] is [f] for an ordinary name [f]. *)
Lemma basename_join (d f : jsstring) :
  plain_name f -> Path.basename (Path.join d f) None = f.
Proof.
  intros Hf. unfold Path.basename. apply last_component_ends; [exact Hf|].
  pose proof Hf as (H0 & Hns & _).
  unfold Path.join. destruct d as [|c d], f as [|a f]; try contradiction.
  - apply normalize_ends with (segs := []); [exact Hf| |].
    + apply split_slash_no_slash; exact Hns.
    + apply last_nonempty_no_slash; assumption.
  - apply normalize_ends with (segs := Path.split_slash (c :: d)); [exact Hf| |].
    + apply split_slash_snoc; exact Hns.
    + change ((c :: d) ++ Path.slash :: a :: f)
        with ((c :: d) ++ [Path.slash] ++ a :: f).
      rewrite app_assoc, last_app_nonempty by discriminate.
      apply last_nonempty_no_slash; assumption.
Qed.

End PathFacts.

(** ** File names *)

Lemma digits_rev_no_slash (width : nat) :
  forall n, no_slash (Date.digits_rev width n).
Proof.
  induction width as [|width IH]; intros n; cbn [Date.digits_rev];
    constructor; [|apply IH].
  pose proof (Z.mod_pos_bound n 10 ltac:(lia)) as Hd.
  intros E. apply (f_equal Z.of_N) in E.
  rewrite Z2N.id in E by lia. unfold Path.slash in E. lia.
Qed.

Lemma pad_no_slash (width : nat) (n : Z) : no_slash (Date.pad width n).
Proof. apply Forall_rev, digits_rev_no_slash. Qed.

Lemma literal_chars (s : string) :
  forallb (fun c => negb (N.eqb c Path.slash)) (str s) = true ->
  no_slash (str s).
Proof.
  intros H. apply Forall_forall. intros c Hc.
  rewrite forallb_forall in H. specialize (H c Hc).
  apply negb_true_iff in H. apply N.eqb_neq. exact H.
Qed.

Lemma no_slash_app (s t : jsstring) : no_slash s -> no_slash t -> no_slash (s ++ t).
Proof. intros Hs Ht. apply Forall_app. split; assumption. Qed.

Lemma toISOString_no_slash (t : Z) : no_slash (Date.toISOString t).
Proof.
  unfold Date.toISOString.
  destruct (Date.civil_from_days _) as [[y m] d].
  repeat first
    [ apply pad_no_slash
    | apply literal_chars; reflexivity
    | apply no_slash_app ].
  destruct (_ && _); [apply pad_no_slash|].
  apply no_slash_app; [|apply pad_no_slash].
  destruct (y <? 0)%Z; apply literal_chars; reflexivity.
Qed.

Lemma no_slash_firstn (n : nat) (s : jsstring) :
  no_slash s -> no_slash (firstn n s).
Proof.
  intros H. revert n. induction H as [|c s Hc Hs IH]; intros [|n]; simpl;
    try (constructor; fail).
  constructor; [exact Hc | apply IH].
Qed.

Lemma no_slash_filter (keep : N -> bool) (s : jsstring) :
  no_slash s -> no_slash (filter keep s).
Proof.
  unfold no_slash. rewrite !Forall_forall. intros H c Hc.
  apply H. apply filter_In in Hc. tauto.
Qed.

Lemma filename_at_shape (now : Z) :
  exists ts,
    StorageSpec.filename_at now = (112%N :: str "rivate_thought_" ++ ts) ++ str ".enc"
    /\ no_slash ts.
Proof.
  eexists. split; [reflexivity|].
  apply no_slash_firstn, no_slash_filter, toISOString_no_slash.
Qed.

Lemma filename_at_plain (now : Z) : plain_name (StorageSpec.filename_at now).
Proof.
  destruct (filename_at_shape now) as (ts & -> & Hts).
  repeat split; try discriminate.
  change (no_slash (str "private_thought_" ++ ts ++ str ".enc")).
  repeat first
    [ assumption | apply literal_chars; reflexivity | apply no_slash_app ].
Qed.

Lemma filename_at_enc (now : Z) :
  JS.endsWith (StorageSpec.filename_at now) (str ".enc") = true.
Proof.
  destruct (filename_at_shape now) as (ts & -> & _).
  unfold JS.endsWith. rewrite length_app.
  replace (_ + _ - _)%nat with (length (112%N :: str "rivate_thought_" ++ ts))
    by (change (length (str ".enc")) with 4%nat; lia).
  rewrite skipn_app, skipn_all, Nat.sub_diag. apply jsstring_eqb_refl.
Qed.

(** [path.basename(f, '.enc')] removes the suffix of a plain name. *)
Lemma basename_strips_enc (stem : jsstring) :
  stem <> [] -> plain_name (stem ++ str ".enc") ->
  Path.basename (stem ++ str ".enc") (Some (str ".enc")) = stem.
Proof.
  intros Hstem Hplain. unfold Path.basename.
  assert (Hlen : length (stem ++ str ".enc") = (length stem + 4)%nat)
    by (rewrite length_app; reflexivity).
  assert (Hne : JS.eqb (str ".enc") (stem ++ str ".enc") = false).
  { apply jsstring_eqb_neq. intros E. apply (f_equal (@length N)) in E.
    rewrite Hlen in E. change (length (str ".enc")) with 4%nat in E.
    destruct stem; [contradiction|simpl in E; lia]. }
  assert (Hne' : JS.eqb (stem ++ str ".enc") (str ".enc") = false).
  { apply jsstring_eqb_neq. intros E. symmetry in E.
    apply jsstring_eqb_eq in E. congruence. }
  rewrite Hne.
  rewrite (last_component_ends Hplain (or_introl eq_refl)).
  rewrite Hne'. unfold JS.endsWith. rewrite Hlen.
  change (length (str ".enc")) with 4%nat.
  replace (length stem + 4 - 4)%nat with (length stem) by lia.
  rewrite skipn_app, skipn_all, Nat.sub_diag. cbn [skipn app].
  rewrite jsstring_eqb_refl.
  replace ((0 <? 4)%nat && (4 <=? length stem + 4)%nat) with true.
  - cbn [andb negb]. rewrite firstn_app, firstn_all, Nat.sub_diag.
    cbn [firstn]. apply app_nil_r.
  - symmetry. apply andb_true_iff. split; [reflexivity|].
    apply Nat.leb_le. lia.
Qed.

(** ** [StorageManager]: saving *)
Section StorageSaving.

Variable config : Config.StorageConfig.

Let dir := StorageManager.privateDir config.

Lemma generateFilename_run (w : World) :
  StorageManager.generateFilename w = (Ok (StorageSpec.filename_at (clock w)), w).
Proof. reflexivity. Qed.

Lemma time_moves_forward_elapse (w : World) :
  StorageSpec.time_moves_forward w ->
  StorageSpec.time_moves_forward (elapse w) /\ (clock w <= clock (elapse w))%Z.
Proof.
  unfold StorageSpec.time_moves_forward, elapse. cbn [latency clock].
  intros H. destruct H as [|d ds Hd Hds]; cbn [hd tl]; split;
    try constructor; try assumption; lia.
Qed.

Lemma ensurePrivateDirectory_time (w w1 : World) (r : Result JsError unit) :
  StorageManager.ensurePrivateDirectory config w = (r, w1) ->
  StorageSpec.time_moves_forward w ->
  StorageSpec.time_moves_forward w1.
Proof.
  unfold StorageManager.ensurePrivateDirectory, try_catch, Sys.fs_access,
    Sys.fs_mkdir_p.
  intros Hrun Hw. apply time_moves_forward_elapse in Hw as [Hw _].
  destruct (lift_errno _).
  - injection Hrun as _ <-. exact Hw.
  - injection Hrun as _ <-.
    apply (time_moves_forward_elapse (w := elapse w)) in Hw as [Hw _].
    exact Hw.
Qed.

(** A successful [save], step by step. *)
Lemma saveEncryptedThought_ok (data : Buffer) (w w' : World) (T : StoredThought) :
  StorageManager.saveEncryptedThought config data w = (Ok T, w') ->
  exists w1,
    StorageManager.ensurePrivateDirectory config w = (Ok tt, w1)
    /\ data <> []
    /\ let filename := StorageSpec.filename_at (clock w1) in
       let p := Path.join dir filename in
       write_fault (fsys w1) p = None
       /\ w' = StorageSpec.after_write w1 p data
       /\ T = {| id := Path.basename filename (Some (str ".enc"));
                 filepath := p;
                 timestamp := inject_Z (clock w');
                 sizeBytes := Z.of_nat (length data) |}.
Proof.
  unfold StorageManager.saveEncryptedThought, try_catch.
  destruct data as [|b data]; cbn [length Nat.eqb].
  - unfold throw. cbn. discriminate.
  - unfold bind at 1.
    destruct (StorageManager.ensurePrivateDirectory config w) as [[[]|e] w1].
    + unfold bind at 1. rewrite generateFilename_run.
      unfold bind at 1. unfold Sys.fs_writeFile. fold dir.
      destruct (write_fault (fsys w1) _) eqn:Hfault.
      * cbn [instanceof_StorageError]. unfold throw.
        destruct (has_code (SystemError e) ENOSPC); discriminate.
      * unfold bind, Sys.now, ret. intros E. injection E as <- <-.
        exists w1. repeat split; try discriminate. exact Hfault.
    + unfold throw.
      destruct (instanceof_StorageError e); [discriminate|].
      destruct (has_code e ENOSPC); discriminate.
Qed.


Lemma stat_after_write (w : World) (p : jsstring) (data : Buffer) :
  stat (fsys (StorageSpec.after_write w p data)) p =
  Ok {| mtimeMs := stamp (fsys w) (clock w); size := Z.of_nat (length data) |}.
Proof.
  unfold StorageSpec.after_write. cbn [fsys elapse fs_write stat].
  rewrite jsstring_eqb_refl. reflexivity.
Qed.

Lemma filename_of_id (now : Z) :
  Path.basename (StorageSpec.filename_at now) (Some (str ".enc")) ++ str ".enc"
  = StorageSpec.filename_at now.
Proof.
  pose proof (filename_at_plain now) as Hplain.
  destruct (filename_at_shape now) as (ts & E & _). rewrite E in *.
  rewrite basename_strips_enc; [reflexivity|discriminate|exact Hplain].
Qed.

End StorageSaving.

(** The file a successful [save] wrote is in the listing of the
    directory, whenever the directory can be listed afterwards. *)
Lemma saved_file_is_listed
  (config : Config.StorageConfig) (data : Buffer) (w w' : World)
  (T : StoredThought) (files : list jsstring) :
  StorageManager.saveEncryptedThought config data w = (Ok T, w') ->
  readdir (fsys w') (StorageManager.privateDir config) = Ok files ->
  In (id T ++ str ".enc") files.
Proof.
  intros Hsave Hdir.
  apply saveEncryptedThought_ok in Hsave as (w1 & _ & _ & _ & Hw' & HT).
  rewrite HT. cbn [id]. rewrite filename_of_id.
  rewrite Hw' in Hdir. unfold StorageSpec.after_write in Hdir.
  cbn [fsys elapse fs_write readdir] in Hdir.
  destruct (readdir (fsys w1) (StorageManager.privateDir config))
    as [names|]; [|discriminate].
  apply Ok_inj in Hdir. subst files. unfold listing_with.
  rewrite basename_join by apply filename_at_plain.
  rewrite jsstring_eqb_refl. cbn [andb].
  destruct (existsb _ names) eqn:E; cbn [negb].
  - apply existsb_exists in E as (n & Hin & Hn).
    apply jsstring_eqb_eq in Hn. subst n. exact Hin.
  - apply in_or_app. right. left. reflexivity.
Qed.

(** C5, as the code has it.  When [save] has returned the record [T] and
    the file it wrote is later still listed and unchanged, [listMetadata]
    returns a record for that file, and every such record has the [id]
    and the [sizeBytes] of [T].  The timestamps are readings of two
    clocks and need not agree: [save] answers [Date.now()], read after
    the write has completed; [listMetadata] answers the modification
    time the file system has stamped the file with. *)
Theorem save_and_listing_agree
  (config : Config.StorageConfig) (data : Buffer) (w w' later : World)
  (T : StoredThought) (files : list jsstring) :
  StorageManager.saveEncryptedThought config data w = (Ok T, w') ->
  readdir (fsys later) (StorageManager.privateDir config) = Ok files ->
  In (id T ++ str ".enc") files ->
  stat (fsys later) (filepath T) = stat (fsys w') (filepath T) ->
  sizeBytes T = Z.of_nat (length data)
  /\ timestamp T = inject_Z (clock w')
  /\ exists l,
       fst (StorageManager.getThoughtMetadata config later) = Ok l
       /\ (exists T', In T' l /\ filepath T' = filepath T)
       /\ (forall T',
             In T' l -> filepath T' = filepath T ->
             id T' = id T
             /\ sizeBytes T' = sizeBytes T
             /\ exists st,
                  stat (fsys later) (filepath T) = Ok st
                  /\ timestamp T' = mtimeMs st).
Proof.
  intros Hsave Hdir Hlisted Hsame.
  apply saveEncryptedThought_ok in Hsave
    as (w1 & Hensure & Hdata & Hfault & Hw' & HT).
  set (fn := StorageSpec.filename_at (clock w1)) in *.
  set (p := Path.join (StorageManager.privateDir config) fn) in *.
  assert (Hstat : stat (fsys later) p =
                  Ok {| mtimeMs := stamp (fsys w1) (clock w1);
                        size := Z.of_nat (length data) |}).
  { rewrite HT in Hsame. cbn [filepath] in Hsame.
    rewrite Hsame, Hw'. apply stat_after_write. }
  assert (Hid : id T ++ str ".enc" = fn).
  { rewrite HT. cbn [id]. apply filename_of_id. }
  rewrite Hid in Hlisted.
  split; [rewrite HT; reflexivity|]. split; [rewrite HT; reflexivity|].
  rewrite getThoughtMetadata_run, Hdir. eexists. split; [reflexivity|]. split.
  - exists (StorageSpec.record_of p
              {| mtimeMs := stamp (fsys w1) (clock w1);
                 size := Z.of_nat (length data) |}).
    split; [|rewrite HT; reflexivity].
    apply (Permutation_in _ (sort_perm timestamp _)).
    apply listed_records_origin. exists fn. eexists.
    split; [exact Hlisted|]. split; [apply filename_at_enc|].
    split; [exact Hstat|reflexivity].
  - intros T' HT' Hpath.
    apply (Permutation_in _ (Permutation_sym (sort_perm timestamp _))) in HT'.
    apply listed_records_origin in HT' as (file & st & _ & _ & Hst & ->).
    cbn [filepath StorageSpec.record_of] in Hpath.
    rewrite HT in Hpath. cbn [filepath] in Hpath. fold p in Hpath.
    rewrite Hpath in Hst |- *. rewrite Hstat in Hst. injection Hst as <-.
    rewrite HT. cbn [id sizeBytes timestamp StorageSpec.record_of mtimeMs size
                     filepath].
    unfold p at 1. rewrite basename_join by apply filename_at_plain.
    split; [reflexivity|]. split; [reflexivity|].
    eexists. split; [exact Hstat|reflexivity].
Qed.

Lemma run_eta (A : Type) (r : Result JsError A * World) (a : Result JsError A) :
  fst r = a -> r = (a, snd r).
Proof. intros <-. destruct r; reflexivity. Qed.

Lemma save_and_listing_agree_witness :
  sizeBytes Sample.saved_thought = Z.of_nat (length Sample.blob)
  /\ timestamp Sample.saved_thought = inject_Z (clock (snd Sample.saved))
  /\ exists l,
       fst (StorageManager.getThoughtMetadata Sample.config (snd Sample.saved))
         = Ok l
       /\ (exists T', In T' l /\ filepath T' = filepath Sample.saved_thought)
       /\ (forall T',
             In T' l -> filepath T' = filepath Sample.saved_thought ->
             id T' = id Sample.saved_thought
             /\ sizeBytes T' = sizeBytes Sample.saved_thought
             /\ exists st,
                  stat (fsys (snd Sample.saved))
                    (filepath Sample.saved_thought) = Ok st
                  /\ timestamp T' = mtimeMs st).
Proof.
  apply (@save_and_listing_agree Sample.config Sample.blob
           (Sample.world Sample.fs_absent) (snd Sample.saved)
           (snd Sample.saved) Sample.saved_thought
           [str "private_thought_20240408235234.enc"]).
  - apply run_eta. vm_compute. reflexivity.
  - vm_compute. reflexivity.
  - left. vm_compute. reflexivity.
  - vm_compute. reflexivity.
Defined.

(** C5 as stated fails on the timestamp: [save] answers the whole
    millisecond [Date.now()] shows once the write has completed, the
    listing answers the time the sample system stamped the file with,
    a fraction of a millisecond later. *)
Lemma save_timestamp_differs_from_listing :
  fst Sample.saved = Ok Sample.saved_thought
  /\ fst (StorageManager.getThoughtMetadata Sample.config (snd Sample.saved))
     = Ok [Sample.listed_thought]
  /\ filepath Sample.listed_thought = filepath Sample.saved_thought
  /\ ~ (timestamp Sample.listed_thought == timestamp Sample.saved_thought)%Q
  /\ (timestamp Sample.saved_thought < timestamp Sample.listed_thought)%Q.
Proof.
  split; [vm_compute; reflexivity|].
  split; [vm_compute; reflexivity|].
  split; [reflexivity|].
  split; [intros E; vm_compute in E; discriminate|].
  vm_compute. reflexivity.
Qed.

(** ** A store too large for [stats()] *)

Lemma enc_names_all (files : list jsstring) :
  Forall (fun file => JS.endsWith file (str ".enc") = true) files ->
  StorageSpec.enc_names files = files.
Proof.
  unfold StorageSpec.enc_names.
  induction 1 as [|file files Hfile _ IH]; [reflexivity|].
  cbn [filter]. rewrite Hfile, IH. reflexivity.
Qed.

Lemma stat_records_length (fs : FileSystem) (paths : list jsstring) :
  Forall (fun p => exists st, stat fs p = Ok st) paths ->
  length (StorageSpec.stat_records fs paths) = length paths.
Proof.
  unfold StorageSpec.stat_records.
  induction 1 as [|p paths (st & Hst) _ IH]; [reflexivity|].
  cbn [flat_map]. rewrite Hst, length_app, IH. reflexivity.
Qed.

(** Every name of the large store is listed with a record. *)
Lemma listed_records_large :
  length (StorageSpec.listed_records Sample.config Sample.fs_large
            Sample.names_large)
  = (140 * 1000)%nat.
Proof.
  unfold StorageSpec.listed_records.
  rewrite enc_names_all, stat_records_length, length_map.
  - unfold Sample.names_large. rewrite length_map. apply length_seq.
  - apply Forall_forall. intros p Hp.
    apply in_map_iff in Hp as (name & <- & Hname).
    eexists. cbn [Sample.fs_large stat].
    replace (existsb _ Sample.names_large) with true; [reflexivity|].
    symmetry. apply existsb_exists. exists name.
    split; [exact Hname|apply jsstring_eqb_refl].
  - apply Forall_forall. intros file Hfile.
    apply in_map_iff in Hfile as (i & <- & _). apply filename_at_enc.
Qed.

(** C6 as stated fails on a large store.  With 140000 thoughts in the
    directory [listMetadata] yields 140000 records, and [stats()] does
    not return their count and sums: [Math.min(...timestamps)] is handed
    more arguments than a call takes, here 125000, and [stats()] ends
    with the engine's [RangeError]. *)
Lemma getStorageStats_fails_on_a_large_store :
  exists l,
    fst (StorageManager.getThoughtMetadata Sample.config
           (Sample.world Sample.fs_large)) = Ok l
    /\ length l = (140 * 1000)%nat
    /\ fst (StorageManager.getStorageStats Sample.config Sample.limit
              (Sample.world Sample.fs_large)) = Err RangeError.
Proof.
  assert (Hdir : readdir (fsys (Sample.world Sample.fs_large))
                   (StorageManager.privateDir Sample.config)
                 = Ok Sample.names_large) by reflexivity.
  pose proof (getThoughtMetadata_run Sample.config
                (Sample.world Sample.fs_large)) as Hl.
  rewrite Hdir in Hl.
  assert (Hlen : length
                   (JSArray.sort (fun a b => (timestamp b - timestamp a)%Q)
                      (StorageSpec.listed_records Sample.config
                         (fsys (Sample.world Sample.fs_large))
                         Sample.names_large))
                 = (140 * 1000)%nat).
  { rewrite <- (Permutation_length (sort_perm timestamp _)).
    exact listed_records_large. }
  eexists. split; [exact Hl|]. split; [exact Hlen|].
  rewrite getStorageStats_run, Hl.
  destruct (JSArray.sort _ _) as [|t rest]; [discriminate|].
  replace (Sample.limit <? length (t :: rest))%nat with true; [reflexivity|].
  symmetry. apply Nat.ltb_lt. rewrite Hlen. unfold Sample.limit. lia.
Qed.

(** ** Custom patterns: escaping and parsing *)

Section EscapedSources.

Import RegExpSyntax.

Lemma syntax_character_spec (c : N) :
  is_syntax_character c = true
  <-> In c [94; 36; 92; 46; 42; 43; 63; 40; 41; 91; 93; 123; 125; 124]%N.
Proof.
  unfold is_syntax_character. rewrite existsb_exists. split.
  - intros (k & Hin & Hk). apply N.eqb_eq in Hk. subst k. exact Hin.
  - intros Hin. exists c. split; [exact Hin|apply N.eqb_refl].
Qed.

Lemma special_is_syntax (c : N) :
  existsb (N.eqb c) PrivacyDetector.special_characters
  = is_syntax_character c.
Proof.
  apply eq_true_iff_eq. rewrite syntax_character_spec, existsb_exists. split.
  - intros (k & Hin & Hk). apply N.eqb_eq in Hk. subst k.
    vm_compute in Hin. vm_compute. tauto.
  - intros Hin. exists c. split; [|apply N.eqb_refl].
    vm_compute in Hin. vm_compute. tauto.
Qed.

(** A character that is not a syntax character starts no quantifier and
    ends no alternative. *)
Lemma plain_character (c : N) :
  is_syntax_character c = false ->
  (c =? backslash)%N = false /\ (c =? open_paren)%N = false
  /\ (c =? bar)%N = false /\ (c =? close_paren)%N = false
  /\ at_quantifier [c] = false.
Proof.
  intros H.
  assert (Hn : ~ In c [94; 36; 92; 46; 42; 43; 63; 40; 41; 91; 93; 123; 125; 124]%N).
  { intros Hin. apply syntax_character_spec in Hin. congruence. }
  cbn [In] in Hn. unfold at_quantifier, backslash, open_paren, bar, close_paren,
    plus, star, question, open_brace.
  repeat split; repeat rewrite orb_false_iff; repeat split;
    apply N.eqb_neq; intros ->; apply Hn; tauto.
Qed.

Lemma syntax_character_escape (c : N) :
  is_syntax_character c = true ->
  (c =? letter_b)%N = false /\ (c =? letter_s)%N = false.
Proof.
  intros H. apply syntax_character_spec in H. cbn [In] in H.
  unfold letter_b, letter_s.
  split; apply N.eqb_neq; intros ->; repeat destruct H as [H|H];
    try discriminate; exact H.
Qed.

(** An escaped source starts with a backslash or with a character that
    is not a syntax character. *)
Lemma escape_start (pattern : jsstring) :
  at_quantifier (PrivacyDetector.escape pattern) = false.
Proof.
  destruct pattern as [|c pattern]; [reflexivity|].
  unfold PrivacyDetector.escape. cbn [flat_map]. rewrite special_is_syntax.
  destruct (is_syntax_character c) eqn:E; [reflexivity|].
  apply plain_character in E. cbn [app]. apply E.
Qed.

Lemma quantified_escape (a : Regex.atom) (pattern : jsstring) :
  quantified a (PrivacyDetector.escape pattern)
  = Some (Regex.Atom a, PrivacyDetector.escape pattern).
Proof.
  pose proof (escape_start pattern) as H. unfold quantified.
  destruct (PrivacyDetector.escape pattern) as [|c rest]; [reflexivity|].
  rewrite H. cbn [at_quantifier] in H.
  repeat (apply orb_false_iff in H as [H _]). rewrite H. reflexivity.
Qed.

Lemma escape_cons (c : N) (pattern : jsstring) :
  PrivacyDetector.escape (c :: pattern)
  = (if is_syntax_character c then [backslash; c] else [c])
      ++ PrivacyDetector.escape pattern.
Proof.
  unfold PrivacyDetector.escape. cbn [flat_map]. rewrite special_is_syntax.
  reflexivity.
Qed.

(** The term at the start of an escaped source is its first character,
    whatever it is. *)
Lemma term_escape
  (disjunction : jsstring -> option (Regex.regex * jsstring))
  (c : N) (pattern : jsstring) :
  term disjunction (PrivacyDetector.escape (c :: pattern))
  = Some (Regex.Atom (Regex.Char c), PrivacyDetector.escape pattern).
Proof.
  rewrite escape_cons. destruct (is_syntax_character c) eqn:E.
  - cbn [app term]. unfold backslash at 1. rewrite N.eqb_refl.
    unfold escaped. destruct (@syntax_character_escape c E) as [-> ->].
    rewrite E. cbn [orb]. apply quantified_escape.
  - cbn [app term]. destruct (@plain_character c E) as (-> & -> & _).
    rewrite E. apply quantified_escape.
Qed.

Lemma alternative_escape
  (disjunction : jsstring -> option (Regex.regex * jsstring))
  (pattern : jsstring) (fuel : nat) :
  (length pattern <= fuel)%nat ->
  alternative disjunction fuel (PrivacyDetector.escape pattern)
  = Some (Regex.literal pattern, []).
Proof.
  revert fuel. induction pattern as [|c pattern IH]; intros fuel Hfuel.
  - destruct fuel; reflexivity.
  - destruct fuel as [|fuel]; [cbn [length] in Hfuel; lia|].
    assert (Hstart : exists d rest,
               PrivacyDetector.escape (c :: pattern) = d :: rest
               /\ ((d =? bar)%N || (d =? close_paren)%N) = false).
    { rewrite escape_cons. destruct (is_syntax_character c) eqn:E.
      - eexists _, _. split; [reflexivity|reflexivity].
      - eexists _, _. split; [reflexivity|].
        destruct (@plain_character c E) as (_ & _ & -> & -> & _). reflexivity. }
    destruct Hstart as (d & rest & Hd & Hend).
    pose proof (@term_escape disjunction c pattern) as Hterm.
    rewrite Hd in *. cbn [alternative]. rewrite Hend, Hterm.
    rewrite IH by (cbn [length] in Hfuel; lia). reflexivity.
Qed.

(** The constructor takes every escaped source, and reads it as the
    characters of the pattern: the [catch] of [initialize] never runs. *)
Lemma escape_parses (pattern : jsstring) :
  parse (PrivacyDetector.escape pattern) = Some (Regex.literal pattern).
Proof.
  unfold parse. cbn [disjunction]. rewrite alternative_escape; [reflexivity|].
  unfold PrivacyDetector.escape. clear.
  induction pattern as [|c pattern IH]; [apply Nat.le_refl|].
  cbn [flat_map length]. rewrite length_app.
  destruct (existsb _ _); cbn [length]; lia.
Qed.

End EscapedSources.

(** ** [PrivacyDetector]: explicit indicators *)

Lemma fold_left_push (A B : Type) (f : A -> B) (l : list A) (acc : list B) :
  fold_left (fun acc x => acc ++ [f x]) l acc = acc ++ map f l.
Proof.
  revert acc; induction l as [|x l IH]; intros acc; simpl.
  - symmetry; apply app_nil_r.
  - rewrite IH, <- app_assoc. reflexivity.
Qed.

(** The loop of [initialize] adds one expression for every pattern. *)
Lemma custom_patterns_added
  (patterns : list jsstring) (acc : list Regex.RegExp) :
  fold_left
    (fun acc pattern =>
       let escapedPattern := PrivacyDetector.escape pattern in
       match PrivacyDetector.new_RegExp_i escapedPattern with
       | Some re => acc ++ [re]
       | None => acc
       end)
    patterns acc
  = acc ++ map PrivacySpec.literal_pattern patterns.
Proof.
  revert acc. induction patterns as [|pattern patterns IH]; intros acc.
  - symmetry. apply app_nil_r.
  - cbn [fold_left map]. rewrite IH. cbv zeta.
    unfold PrivacyDetector.new_RegExp_i. rewrite escape_parses.
    cbn [option_map]. rewrite <- app_assoc. reflexivity.
Qed.

Lemma createPrivacyDetector_patterns (config : PrivacyDetector.PrivacyConfig) :
  PrivacyDetector.privacyPatterns (PrivacyDetector.createPrivacyDetector config)
  = PrivacySpec.indicator_patterns config.
Proof.
  unfold PrivacyDetector.createPrivacyDetector, PrivacyDetector.initialize,
    PrivacySpec.indicator_patterns.
  cbn [PrivacyDetector.privacyPatterns PrivacyDetector.config PrivacyDetector.new].
  destruct (PrivacyDetector.customPatterns config) as [[|p ps]|].
  - symmetry; apply app_nil_r.
  - apply custom_patterns_added.
  - symmetry; apply app_nil_r.
Qed.

(** C2. A segment that matches one of the explicit indicator patterns is
    classified private whatever the two scores are, also when both are
    zero. *)
Theorem indicator_match_is_private
  (unicode_upper : N -> N) (config : PrivacyDetector.PrivacyConfig)
  (text : jsstring) (pattern : Regex.RegExp)
  (introspectionScore sensitivityScore : option PrimFloat.float) :
  In pattern (PrivacySpec.indicator_patterns config) ->
  Regex.test unicode_upper pattern text = true ->
  PrivacyDetector.isLikelyPrivate unicode_upper
    (PrivacyDetector.createPrivacyDetector config) text
    introspectionScore sensitivityScore = true.
Proof.
  intros Hin Htest. unfold PrivacyDetector.isLikelyPrivate.
  rewrite createPrivacyDetector_patterns.
  replace (existsb _ _) with true; [reflexivity|].
  symmetry. apply existsb_exists. exists pattern. split; assumption.
Qed.

Lemma indicator_match_is_private_witness :
  PrivacyDetector.isLikelyPrivate SampleDetector.unicode_upper
    (PrivacyDetector.createPrivacyDetector SampleDetector.config)
    (str "Keep this to yourself.")
    (Some Num.zero) (Some Num.zero) = true.
Proof.
  apply (@indicator_match_is_private SampleDetector.unicode_upper
           SampleDetector.config (str "Keep this to yourself.")
           SampleDetector.keep_this).
  - right; right; right; left. reflexivity.
  - vm_compute. reflexivity.
Defined.

(** ** [PrivacyDetector]: texts without tokens *)

Lemma whitespace_not_word (c : N) :
  Regex.is_whitespace c = true -> Regex.is_word_char c = false.
Proof.
  unfold Regex.is_whitespace, Regex.is_word_char. intros H.
  repeat rewrite ?orb_true_iff, ?andb_true_iff, ?N.leb_le, ?N.eqb_eq in H.
  apply not_true_is_false. intros W.
  repeat rewrite ?orb_true_iff, ?andb_true_iff, ?N.leb_le, ?N.eqb_eq in W.
  lia.
Qed.

Section NoTokens.

Variable unicode_upper : N -> N.

Lemma no_boundary_in_whitespace (before after : jsstring) :
  PrivacySpec.quiet before -> PrivacySpec.all_whitespace after ->
  Regex.is_word_boundary (before, after) = false.
Proof.
  intros Hb Ha. unfold Regex.is_word_boundary. cbn [fst snd].
  replace (match before with c :: _ => Regex.is_word_char c | [] => false end)
    with false by (destruct before; [reflexivity|symmetry; exact Hb]).
  destruct Ha as [|c after Hc _]; [reflexivity|].
  rewrite (whitespace_not_word _ Hc). reflexivity.
Qed.

Lemma words_never_match_whitespace (s : string) (ss : list string)
  (before after : jsstring) :
  PrivacySpec.quiet before -> PrivacySpec.all_whitespace after ->
  Regex.match_at unicode_upper (PrivacyDetector.words_gi s ss) (before, after)
  = None.
Proof.
  intros Hb Ha. unfold Regex.match_at, PrivacyDetector.words_gi.
  cbn [Regex.source Regex.ignoreCase PrivacyDetector.re_gi Regex.matcher].
  rewrite no_boundary_in_whitespace by assumption. reflexivity.
Qed.

Lemma count_whitespace (s : string) (ss : list string) (after : jsstring) :
  forall before,
    PrivacySpec.quiet before -> PrivacySpec.all_whitespace after ->
    Regex.count_from unicode_upper (PrivacyDetector.words_gi s ss)
      before after 0 = 0%nat.
Proof.
  induction after as [|c after IH]; intros before Hb Ha;
    cbn [Regex.count_from];
    rewrite words_never_match_whitespace by assumption; [reflexivity|].
  inversion Ha as [|? ? Hc Ha']; subst.
  apply IH; [|exact Ha']. apply whitespace_not_word; exact Hc.
Qed.

Lemma match_count_whitespace (s : string) (ss : list string) (text : jsstring) :
  PrivacySpec.all_whitespace text ->
  Regex.match_count unicode_upper (PrivacyDetector.words_gi s ss) text = 0%nat.
Proof. intros H. apply count_whitespace; [exact I|exact H]. Qed.

End NoTokens.

Section WhitespaceSplit.

Variable unicode_upper : N -> N.

Let re := PrivacySpec.whitespace_re.

Lemma match_at_spaces (before after : jsstring) :
  Regex.match_at unicode_upper re (before, after) =
  Regex.plus_loop unicode_upper false Regex.WhiteSpace before after
    (fun y => Some y).
Proof. reflexivity. Qed.

(** What a match of [\s+] consumed is a non-empty run of white space. *)
Lemma plus_loop_consumed (after : jsstring) :
  forall before b' a',
    Regex.plus_loop unicode_upper false Regex.WhiteSpace before after
      (fun y => Some y) = Some (b', a') ->
    exists c run,
      after = c :: run ++ a' /\ PrivacySpec.all_whitespace (c :: run).
Proof.
  induction after as [|c after IH]; intros before b' a' H;
    cbn [Regex.plus_loop Regex.atom_matches] in H; [discriminate|].
  destruct (Regex.is_whitespace c) eqn:Hc; [|discriminate].
  destruct (Regex.plus_loop _ _ _ (c :: before) after _) as [[b1 a1]|] eqn:E.
  - injection H as <- <-. apply IH in E as (c' & run & -> & Hrun).
    exists c, (c' :: run). split; [reflexivity|].
    constructor; assumption.
  - injection H as <- <-. exists c, []. split; [reflexivity|].
    constructor; [assumption|constructor].
Qed.

(** On white space only, [\s+] takes everything. *)
Lemma plus_loop_all (after : jsstring) :
  forall before,
    after <> [] -> PrivacySpec.all_whitespace after ->
    Regex.plus_loop unicode_upper false Regex.WhiteSpace before after
      (fun y => Some y) = Some (rev after ++ before, []).
Proof.
  induction after as [|c after IH]; intros before Hne Hws; [contradiction|].
  inversion Hws as [|? ? Hc Hws']; subst.
  cbn [Regex.plus_loop Regex.atom_matches]. rewrite Hc.
  destruct after as [|c' after].
  - reflexivity.
  - rewrite IH by (discriminate || assumption).
    cbn [rev]. rewrite <- !app_assoc. reflexivity.
Qed.

Lemma split_skip_all (after : jsstring) :
  forall before,
    Regex.split_from unicode_upper re before after [] (length after) = [[]].
Proof.
  induction after as [|c after IH]; intros before; cbn [length Regex.split_from].
  - reflexivity.
  - apply IH.
Qed.

Lemma split_whitespace (text : jsstring) :
  PrivacySpec.all_whitespace text ->
  length (Regex.split unicode_upper re text)
  = match text with [] => 1 | _ :: _ => 2 end%nat.
Proof.
  intros Hws. destruct text as [|c text]; [reflexivity|].
  unfold Regex.split. cbn [Regex.split_from].
  rewrite match_at_spaces, plus_loop_all by (discriminate || assumption).
  cbn [length Nat.sub].
  rewrite split_skip_all. reflexivity.
Qed.

Lemma split_from_all_empty (after : jsstring) :
  forall before piece skip,
    PrivacySpec.all_whitespace (firstn skip after) ->
    PrivacySpec.all_empty (Regex.split_from unicode_upper re before after piece skip) ->
    (skip = 0%nat -> piece = []) /\ PrivacySpec.all_whitespace after.
Proof.
  induction after as [|c after IH]; intros before piece skip Hskip Hempty.
  - split; [|constructor]. intros ->. cbn in Hempty.
    apply Forall_inv in Hempty.
    apply (f_equal (@rev N)) in Hempty. rewrite rev_involutive in Hempty.
    exact Hempty.
  - destruct skip as [|n].
    + cbn [Regex.split_from] in Hempty. rewrite match_at_spaces in Hempty.
      destruct (Regex.plus_loop _ _ _ before (c :: after) _)
        as [[b' a']|] eqn:E.
      * apply plus_loop_consumed in E as (c' & run & Heq & Hrun).
        injection Heq as <- ->.
        replace (length (c :: run ++ a') - length a')%nat
          with (S (length run)) in Hempty
          by (cbn [length]; rewrite length_app; lia).
        apply Forall_cons_iff in Hempty as [Hpiece Hrest].
        apply IH in Hrest as [_ Hall].
        -- split; [|constructor; [inversion Hrun; assumption|exact Hall]].
           intros _. apply (f_equal (@rev N)) in Hpiece.
           rewrite rev_involutive in Hpiece. exact Hpiece.
        -- rewrite firstn_app, firstn_all, Nat.sub_diag.
           cbn [firstn]. rewrite app_nil_r. inversion Hrun; assumption.
      * apply IH in Hempty as [Habs _]; [|constructor].
        specialize (Habs eq_refl). discriminate.
    + cbn [Regex.split_from] in Hempty. cbn [firstn] in Hskip.
      inversion Hskip as [|? ? Hc Hskip']; subst.
      apply IH in Hempty as [_ Hall]; [|exact Hskip'].
      split; [discriminate|constructor; assumption].
Qed.

Lemma no_tokens_all_whitespace (text : jsstring) :
  PrivacySpec.tokens unicode_upper text = [] ->
  PrivacySpec.all_whitespace text.
Proof.
  unfold PrivacySpec.tokens. intros Hnone.
  destruct text as [|c text]; [constructor|].
  assert (Hempty : PrivacySpec.all_empty (Regex.split unicode_upper re (c :: text))).
  { apply Forall_forall. intros piece Hin.
    destruct (JS.eqb piece []) eqn:E; [apply jsstring_eqb_eq; exact E|].
    exfalso.
    assert (Hf : In piece
                   (filter (fun piece => negb (JS.eqb piece []))
                      (Regex.split unicode_upper re (c :: text)))).
    { apply filter_In. split; [exact Hin|]. rewrite E. reflexivity. }
    fold re in Hnone. rewrite Hnone in Hf. exact Hf. }
  unfold Regex.split in Hempty.
  apply split_from_all_empty in Hempty; [tauto|constructor].
Qed.

End WhitespaceSplit.

(** C9. A text without any whitespace-separated token scores [0.0] on
    both scales. *)
Theorem scores_zero_without_tokens
  (unicode_upper : N -> N) (text : jsstring) :
  PrivacySpec.tokens unicode_upper text = [] ->
  PrivacyDetector.calculateIntrospectionScore unicode_upper text
    = Num.zero
  /\ PrivacyDetector.calculateSensitivityScore unicode_upper text
     = Num.zero.
Proof.
  intros Hnone. apply no_tokens_all_whitespace in Hnone as Hws.
  pose proof (split_whitespace unicode_upper Hws) as Hsplit.
  unfold PrivacySpec.whitespace_re in Hsplit.
  unfold PrivacyDetector.calculateIntrospectionScore,
    PrivacyDetector.calculateSensitivityScore.
  cbn [fold_left].
  rewrite !(match_count_whitespace unicode_upper _ _ Hws), Hsplit.
  destruct text; split; reflexivity.
Qed.

Lemma scores_zero_without_tokens_witness :
  PrivacyDetector.calculateIntrospectionScore SampleDetector.unicode_upper
    (str "   ") = Num.zero
  /\ PrivacyDetector.calculateSensitivityScore SampleDetector.unicode_upper
       (str "   ") = Num.zero.
Proof.
  apply (@scores_zero_without_tokens SampleDetector.unicode_upper (str "   ")).
  vm_compute. reflexivity.
Defined.

(** ** AES: the inverse cipher undoes the cipher *)

Ltac destruct_gf a :=
  let a0 := fresh a "0" in let a1 := fresh a "1" in
  let a2 := fresh a "2" in let a3 := fresh a "3" in
  let a4 := fresh a "4" in let a5 := fresh a "5" in
  let a6 := fresh a "6" in let a7 := fresh a "7" in
  destruct a as (a0 & a1 & a2 & a3 & a4 & a5 & a6 & a7).

Ltac gf_components :=
  repeat match goal with
         | |- (_, _) = (_, _) => apply f_equal2
         end.

Lemma gf_xor_cancel (a b : AES.gf) : AES.gf_xor (AES.gf_xor a b) b = a.
Proof.
  destruct_gf a; destruct_gf b. cbn. gf_components; btauto.
Qed.

Lemma word_xor_cancel (v w : AES.word) : AES.word_xor (AES.word_xor v w) w = v.
Proof.
  destruct v as [[[a0 a1] a2] a3], w as [[[b0 b1] b2] b3]. cbn.
  rewrite !gf_xor_cancel. reflexivity.
Qed.

Lemma block_xor_cancel (s t : AES.block) :
  AES.block_xor (AES.block_xor s t) t = s.
Proof.
  destruct s as [[[c0 c1] c2] c3], t as [[[d0 d1] d2] d3]. cbn.
  rewrite !word_xor_cancel. reflexivity.
Qed.

Lemma inv_sbox_table_sbox_table (b : byte) :
  nth (N.to_nat (Byte.to_N
         (nth (N.to_nat (Byte.to_N b)) AES.sbox_table x00)))
    AES.inv_sbox_table x00 = b.
Proof. destruct b; reflexivity. Qed.

Lemma inv_sbox_sbox (a : AES.gf) : AES.inv_sbox (AES.sbox a) = a.
Proof.
  unfold AES.inv_sbox, AES.sbox.
  rewrite Byte.of_bits_to_bits, inv_sbox_table_sbox_table.
  apply Byte.to_bits_of_bits.
Qed.

Lemma InvSubBytes_SubBytes (s : AES.block) :
  AES.InvSubBytes (AES.SubBytes s) = s.
Proof.
  destruct s as [[[[[[a0 a1] a2] a3] [[[b0 b1] b2] b3]]
                    [[[c0 c1] c2] c3]] [[[d0 d1] d2] d3]].
  cbn. rewrite !inv_sbox_sbox. reflexivity.
Qed.

Lemma InvShiftRows_ShiftRows (s : AES.block) :
  AES.InvShiftRows (AES.ShiftRows s) = s.
Proof.
  destruct s as [[[[[[a0 a1] a2] a3] [[[b0 b1] b2] b3]]
                    [[[c0 c1] c2] c3]] [[[d0 d1] d2] d3]].
  reflexivity.
Qed.

Lemma inv_mix_column_mix_column (w : AES.word) :
  AES.inv_mix_column (AES.mix_column w) = w.
Proof.
  destruct w as [[[a b] c] d].
  destruct_gf a; destruct_gf b; destruct_gf c; destruct_gf d.
  cbn. gf_components; btauto.
Qed.

Lemma InvMixColumns_MixColumns (s : AES.block) :
  AES.InvMixColumns (AES.MixColumns s) = s.
Proof.
  destruct s as [[[c0 c1] c2] c3]. cbn [AES.MixColumns AES.InvMixColumns AES.block_map].
  rewrite !inv_mix_column_mix_column. reflexivity.
Qed.

Lemma inv_rounds_rounds (ks : list AES.block) :
  forall s, AES.inv_rounds (AES.rounds s ks) ks = s.
Proof.
  induction ks as [|k ks IH]; intros s; [reflexivity|].
  destruct ks as [|k' ks].
  - cbn [AES.rounds AES.inv_rounds]. unfold AES.AddRoundKey.
    rewrite block_xor_cancel, InvShiftRows_ShiftRows. apply InvSubBytes_SubBytes.
  - change (AES.rounds s (k :: k' :: ks))
      with (AES.rounds
              (AES.AddRoundKey (AES.MixColumns (AES.ShiftRows (AES.SubBytes s))) k)
              (k' :: ks)).
    change (AES.inv_rounds ?t (k :: k' :: ks))
      with (AES.InvSubBytes
              (AES.InvShiftRows
                 (AES.InvMixColumns
                    (AES.AddRoundKey (AES.inv_rounds t (k' :: ks)) k)))).
    rewrite IH. unfold AES.AddRoundKey.
    rewrite block_xor_cancel, InvMixColumns_MixColumns, InvShiftRows_ShiftRows.
    apply InvSubBytes_SubBytes.
Qed.

(** The block cipher is invertible under any key schedule. *)
Lemma InvCipher_Cipher (ks : list AES.block) (s : AES.block) :
  AES.InvCipher ks (AES.Cipher ks s) = s.
Proof.
  destruct ks as [|k0 ks]; [reflexivity|].
  unfold AES.InvCipher, AES.Cipher. rewrite inv_rounds_rounds.
  apply block_xor_cancel.
Qed.

(** ** Cipher block chaining and padding *)

Lemma cbc_decrypt_encrypt (ks : list AES.block) (ps : list AES.block) :
  forall iv, Crypto.cbc_decrypt ks iv (Crypto.cbc_encrypt ks iv ps) = ps.
Proof.
  induction ps as [|p ps IH]; intros iv; cbn [Crypto.cbc_encrypt Crypto.cbc_decrypt].
  - reflexivity.
  - rewrite InvCipher_Cipher, block_xor_cancel, IH. reflexivity.
Qed.

Lemma cbc_encrypt_length (ks : list AES.block) (ps : list AES.block) :
  forall iv, length (Crypto.cbc_encrypt ks iv ps) = length ps.
Proof.
  induction ps as [|p ps IH]; intros iv; cbn; [reflexivity|].
  rewrite IH. reflexivity.
Qed.

Lemma bytes_of_block_length (s : AES.block) :
  length (AES.bytes_of_block s) = 16%nat.
Proof.
  destruct s as [[[[[[a0 a1] a2] a3] [[[b0 b1] b2] b3]]
                    [[[c0 c1] c2] c3]] [[[d0 d1] d2] d3]].
  reflexivity.
Qed.

Lemma bytes_of_blocks_length (ss : list AES.block) :
  length (Crypto.bytes_of_blocks ss) = (16 * length ss)%nat.
Proof.
  induction ss as [|s ss IH]; [reflexivity|].
  unfold Crypto.bytes_of_blocks in *. cbn [flat_map].
  rewrite length_app, bytes_of_block_length, IH. cbn [length]. lia.
Qed.

Lemma blocks_of_bytes_of_blocks (ss : list AES.block) :
  AES.blocks_of (Crypto.bytes_of_blocks ss) = Some ss.
Proof.
  induction ss as [|s ss IH]; [reflexivity|].
  destruct s as [[[[[[a0 a1] a2] a3] [[[b0 b1] b2] b3]]
                    [[[c0 c1] c2] c3]] [[[d0 d1] d2] d3]].
  unfold Crypto.bytes_of_blocks in *.
  cbn [flat_map AES.bytes_of_block AES.bytes_of_word app AES.blocks_of].
  rewrite IH, !Byte.to_bits_of_bits. reflexivity.
Qed.

Ltac take_byte bs :=
  let b := fresh "b" in
  destruct bs as [|b bs]; [discriminate|].

Lemma bytes_of_blocks_blocks_of (bs : Buffer) :
  forall ss, AES.blocks_of bs = Some ss -> Crypto.bytes_of_blocks ss = bs.
Proof.
  induction bs as [bs IH] using (well_founded_induction
                                   (Wf_nat.well_founded_ltof _ (@length byte))).
  intros ss H. destruct bs as [|b0 bs]; [injection H as <-; reflexivity|].
  do 15 take_byte bs.
  cbn [AES.blocks_of] in H.
  destruct (AES.blocks_of bs) as [ss'|] eqn:E; [|discriminate].
  injection H as <-.
  unfold Crypto.bytes_of_blocks.
  cbn [flat_map AES.bytes_of_block AES.bytes_of_word app].
  rewrite !Byte.of_bits_to_bits.
  fold (Crypto.bytes_of_blocks ss'). rewrite (IH bs); [reflexivity| |exact E].
  unfold Wf_nat.ltof. cbn [length]. lia.
Qed.

Lemma blocks_of_whole (n : nat) :
  forall bs, length bs = (16 * n)%nat ->
  exists ss, AES.blocks_of bs = Some ss /\ length ss = n.
Proof.
  induction n as [|n IH]; intros bs Hlen.
  - destruct bs; [|discriminate]. exists []. split; reflexivity.
  - destruct bs as [|b0 bs]; [discriminate|].
    do 15 (let b := fresh "b" in destruct bs as [|b bs]; [cbn in Hlen; lia|]).
    destruct (IH bs) as (ss & E & L); [cbn [length] in Hlen; lia|].
    cbn [AES.blocks_of]. rewrite E. eexists. split; [reflexivity|].
    cbn [length]. rewrite L. reflexivity.
Qed.

Lemma blocks_of_length (bs : Buffer) (ss : list AES.block) :
  AES.blocks_of bs = Some ss -> length bs = (16 * length ss)%nat.
Proof.
  intros H. apply bytes_of_blocks_blocks_of in H. rewrite <- H.
  apply bytes_of_blocks_length.
Qed.

Lemma pad_length_bounds (n : nat) :
  (1 <= Crypto.pad_length n <= 16)%nat.
Proof.
  unfold Crypto.pad_length.
  pose proof (Nat.mod_upper_bound n 16 ltac:(discriminate)). lia.
Qed.

Lemma pkcs7_pad_length (data : Buffer) :
  exists n, length (Crypto.pkcs7_pad data) = (16 * S n)%nat.
Proof.
  unfold Crypto.pkcs7_pad, Crypto.pad_length.
  rewrite length_app, repeat_length.
  exists (length data / 16)%nat.
  pose proof (Nat.div_mod_eq (length data) 16).
  pose proof (Nat.mod_upper_bound (length data) 16 ltac:(discriminate)). lia.
Qed.

Lemma byte_of_nat_to_nat (n : nat) :
  (n <= 255)%nat -> Byte.to_nat (Crypto.byte_of_nat n) = n.
Proof.
  intros H. unfold Crypto.byte_of_nat.
  destruct (Byte.of_nat n) as [b|] eqn:E.
  - apply Byte.to_of_nat; exact E.
  - apply Byte.of_nat_None_iff in E. lia.
Qed.

Lemma forallb_repeat (b : byte) (n : nat) :
  forallb (Byte.eqb b) (repeat b n) = true.
Proof.
  induction n as [|n IH]; [reflexivity|]. cbn [repeat forallb].
  rewrite IH, andb_true_r. apply Byte.byte_dec_lb. reflexivity.
Qed.

Lemma pkcs7_unpad_pad (data : Buffer) :
  Crypto.pkcs7_unpad (Crypto.pkcs7_pad data) = Some data.
Proof.
  unfold Crypto.pkcs7_unpad, Crypto.pkcs7_pad.
  pose proof (pad_length_bounds (length data)) as Hn.
  set (n := Crypto.pad_length (length data)) in *.
  set (b := Crypto.byte_of_nat n).
  assert (Hlast : last (data ++ repeat b n) x00 = b).
  { destruct n as [|n]; [lia|].
    replace (repeat b (S n)) with (repeat b n ++ [b])
      by (rewrite <- repeat_cons; reflexivity).
    rewrite app_assoc. apply last_last. }
  assert (Hb : Byte.to_nat b = n) by (apply byte_of_nat_to_nat; lia).
  rewrite Hlast, !Hb.
  rewrite length_app, repeat_length.
  replace (length data + n - n)%nat with (length data) by lia.
  rewrite skipn_app, skipn_all, Nat.sub_diag. cbn [skipn app].
  rewrite firstn_app, firstn_all, Nat.sub_diag. cbn [firstn].
  rewrite app_nil_r, forallb_repeat.
  replace ((1 <=? n)%nat) with true by (symmetry; apply Nat.leb_le; lia).
  replace ((n <=? 16)%nat) with true by (symmetry; apply Nat.leb_le; lia).
  replace ((n <=? length data + n)%nat) with true
    by (symmetry; apply Nat.leb_le; lia).
  reflexivity.
Qed.

(** ** UTF-8 *)

Ltac divlia := zify; Z.to_euclidean_division_equations; lia.

Lemma to_N_byte (n : N) : (n < 256)%N -> Byte.to_N (Utf8.byte n) = n.
Proof.
  intros H. unfold Utf8.byte. destruct (Byte.of_N n) as [b|] eqn:E.
  - apply Byte.to_of_N; exact E.
  - apply Byte.of_N_None_iff in E. lia.
Qed.

Lemma decode_step (b0 : byte) (r0 : Buffer) :
  Utf8.decode (b0 :: r0) =
  let n0 := Byte.to_N b0 in
  if (n0 <? 128)%N then n0 :: Utf8.decode r0
  else if Utf8.in_range b0 194 223 then
    match r0 with
    | b1 :: r1 =>
        if Utf8.in_range b1 128 191
        then ((n0 - 192) * 64 + Utf8.low6 b1)%N :: Utf8.decode r1
        else Utf8.replacement :: Utf8.decode r0
    | [] => [Utf8.replacement]
    end
  else if Utf8.in_range b0 224 239 then
    match r0 with
    | b1 :: r1 =>
        if Utf8.in_range b1 (if (n0 =? 224)%N then 160 else 128)%N
             (if (n0 =? 237)%N then 159 else 191)%N
        then
          match r1 with
          | b2 :: r2 =>
              if Utf8.in_range b2 128 191
              then (((n0 - 224) * 64 + Utf8.low6 b1) * 64 + Utf8.low6 b2)%N
                     :: Utf8.decode r2
              else Utf8.replacement :: Utf8.decode r1
          | [] => [Utf8.replacement]
          end
        else Utf8.replacement :: Utf8.decode r0
    | [] => [Utf8.replacement]
    end
  else if Utf8.in_range b0 240 244 then
    match r0 with
    | b1 :: r1 =>
        if Utf8.in_range b1 (if (n0 =? 240)%N then 144 else 128)%N
             (if (n0 =? 244)%N then 143 else 191)%N
        then
          match r1 with
          | b2 :: r2 =>
              if Utf8.in_range b2 128 191
              then
                match r2 with
                | b3 :: r3 =>
                    if Utf8.in_range b3 128 191
                    then
                      Utf8.units_of_code_point
                        ((((n0 - 240) * 64 + Utf8.low6 b1) * 64
                          + Utf8.low6 b2) * 64 + Utf8.low6 b3)%N
                        ++ Utf8.decode r3
                    else Utf8.replacement :: Utf8.decode r2
                | [] => [Utf8.replacement]
                end
              else Utf8.replacement :: Utf8.decode r1
          | [] => [Utf8.replacement]
          end
        else Utf8.replacement :: Utf8.decode r0
    | [] => [Utf8.replacement]
    end
  else Utf8.replacement :: Utf8.decode r0.
Proof. reflexivity. Qed.

Ltac solve_cmp :=
  repeat match goal with
         | |- context [(?a =? ?b)%N] => destruct (N.eqb_spec a b)
         end;
  divlia.

Ltac cond_true :=
  repeat (apply andb_true_iff; split);
  first [apply N.ltb_lt | apply N.leb_le]; solve_cmp.

Ltac cond_false :=
  first [ apply N.ltb_ge; solve_cmp
        | apply N.leb_gt; solve_cmp
        | apply andb_false_iff; left; cond_false
        | apply andb_false_iff; right; cond_false ].

(** Settle the condition of the conditional that heads the goal. *)
Ltac head_if :=
  match goal with
  | |- (if ?c then _ else _) = _ =>
      first [ replace c with true by (symmetry; cond_true)
            | replace c with false by (symmetry; cond_false) ];
      cbv iota
  end.

Lemma units_of_bmp (cp : N) :
  (cp < 65536)%N -> Utf8.units_of_code_point cp = [cp].
Proof.
  intros H. unfold Utf8.units_of_code_point.
  apply N.ltb_lt in H. rewrite H. reflexivity.
Qed.

Lemma decode_encode_code_point (cp : N) (rest : Buffer) :
  Utf8.scalar_value cp ->
  Utf8.decode (Utf8.encode_code_point cp ++ rest) =
  Utf8.units_of_code_point cp ++ Utf8.decode rest.
Proof.
  unfold Utf8.scalar_value, Utf8.encode_code_point. intros Hcp.
  destruct (N.ltb_spec cp 128); [|destruct (N.ltb_spec cp 2048);
    [|destruct (N.ltb_spec cp 65536)]];
    cbn [app]; rewrite decode_step; cbv zeta;
    unfold Utf8.in_range, Utf8.low6;
    rewrite !to_N_byte by divlia.
  - repeat head_if. rewrite units_of_bmp by lia. reflexivity.
  - repeat head_if. rewrite units_of_bmp by lia. cbn [app]. f_equal. divlia.
  - repeat head_if. rewrite units_of_bmp by lia. cbn [app]. f_equal. divlia.
  - repeat head_if. f_equal. f_equal. divlia.
Qed.

Lemma encode_step (u : N) (r : jsstring) :
  Utf8.encode (u :: r) =
  if Utf8.is_high_surrogate u then
    match r with
    | lo :: r' =>
        if Utf8.is_low_surrogate lo
        then Utf8.encode_code_point
               (65536 + (u - 55296) * 1024 + (lo - 56320))%N ++ Utf8.encode r'
        else Utf8.replacement_bytes ++ Utf8.encode r
    | [] => Utf8.replacement_bytes
    end
  else if Utf8.is_low_surrogate u then Utf8.replacement_bytes ++ Utf8.encode r
  else if (u <? 65536)%N then Utf8.encode_code_point u ++ Utf8.encode r
  else Utf8.replacement_bytes ++ Utf8.encode r.
Proof. reflexivity. Qed.

Lemma surrogate_bounds (u : N) :
  (Utf8.is_high_surrogate u = true <-> (55296 <= u <= 56319)%N)
  /\ (Utf8.is_low_surrogate u = true <-> (56320 <= u <= 57343)%N).
Proof.
  unfold Utf8.is_high_surrogate, Utf8.is_low_surrogate.
  rewrite !andb_true_iff, !N.leb_le. tauto.
Qed.

(** Decoding the UTF-8 of a well-formed string gives the string back. *)
Lemma decode_encode (s : jsstring) :
  Utf8.well_formed s = true -> Utf8.decode (Utf8.encode s) = s.
Proof.
  induction s as [s IH] using (well_founded_induction
                                 (Wf_nat.well_founded_ltof _ (@length N))).
  destruct s as [|u r]; [reflexivity|]. intros Hwf.
  rewrite encode_step. cbn [Utf8.well_formed] in Hwf.
  destruct (Utf8.is_high_surrogate u) eqn:Hhi.
  - destruct r as [|lo r']; [discriminate|].
    apply andb_true_iff in Hwf as [Hlo Hwf]. rewrite Hlo.
    apply surrogate_bounds in Hhi. apply surrogate_bounds in Hlo.
    rewrite decode_encode_code_point by (unfold Utf8.scalar_value; lia).
    rewrite (IH r') by (assumption || (unfold Wf_nat.ltof; cbn [length]; lia)).
    unfold Utf8.units_of_code_point.
    replace (_ <? 65536)%N with false by (symmetry; apply N.ltb_ge; lia).
    cbn [app]. f_equal; [|f_equal]; divlia.
  - apply andb_true_iff in Hwf as [Hwf Hr].
    apply andb_true_iff in Hwf as [Hlo Hu].
    apply negb_true_iff in Hlo. rewrite Hlo, Hu. apply N.ltb_lt in Hu.
    assert (Hnhi : ~ (55296 <= u <= 56319)%N).
    { intros Hb. apply surrogate_bounds in Hb. congruence. }
    assert (Hnlo : ~ (56320 <= u <= 57343)%N).
    { intros Hb. apply surrogate_bounds in Hb. congruence. }
    rewrite decode_encode_code_point by (unfold Utf8.scalar_value; lia).
    rewrite units_of_bmp by lia.
    rewrite (IH r) by (assumption || (unfold Wf_nat.ltof; cbn [length]; lia)).
    reflexivity.
Qed.

(** ** [crypto]: decipher after cipher *)

Lemma blocks_of_iv (iv : Buffer) :
  length iv = 16%nat -> exists v, AES.blocks_of iv = Some [v].
Proof.
  intros H. destruct (blocks_of_whole 1 iv H) as (ss & E & L).
  destruct ss as [|v [|v' ss]]; try discriminate. exists v. exact E.
Qed.

Lemma blocks_of_pad (data : Buffer) :
  exists p ps, AES.blocks_of (Crypto.pkcs7_pad data) = Some (p :: ps).
Proof.
  destruct (pkcs7_pad_length data) as (n & Hn).
  destruct (blocks_of_whole (S n) _ Hn) as (ss & E & L).
  destruct ss as [|p ps]; [discriminate|]. exists p, ps. exact E.
Qed.

(** With a 256-bit key and a 16-byte vector the cipher succeeds, and what
    it returns is a positive number of whole blocks. *)
Lemma cipheriv_ok (key iv data : Buffer) :
  length key = 32%nat -> length iv = 16%nat ->
  exists ct,
    Crypto.cipheriv key iv data = Ok ct
    /\ length ct = (16 * S (length data / 16))%nat.
Proof.
  intros Hkey Hiv. unfold Crypto.cipheriv. rewrite Hkey. cbn [Nat.eqb negb].
  destruct (blocks_of_iv iv Hiv) as (v & ->).
  destruct (blocks_of_pad data) as (p & ps & E). rewrite E.
  eexists. split; [reflexivity|].
  rewrite bytes_of_blocks_length, cbc_encrypt_length.
  apply blocks_of_length in E. rewrite <- E.
  unfold Crypto.pkcs7_pad, Crypto.pad_length.
  rewrite length_app, repeat_length.
  pose proof (Nat.div_mod_eq (length data) 16).
  pose proof (Nat.mod_upper_bound (length data) 16 ltac:(discriminate)). lia.
Qed.

Lemma decipheriv_cipheriv (key iv data ct : Buffer) :
  Crypto.cipheriv key iv data = Ok ct ->
  Crypto.decipheriv key iv ct = Ok data.
Proof.
  unfold Crypto.cipheriv, Crypto.decipheriv.
  generalize (AES.KeyExpansion key) as ks. intros ks.
  destruct (negb (length key =? 32)%nat); [discriminate|].
  destruct (AES.blocks_of iv) as [[|v [|v' vs]]|]; try discriminate.
  destruct (blocks_of_pad data) as (p & ps & E). rewrite E.
  intros H. apply Ok_inj in H. subst ct.
  rewrite blocks_of_bytes_of_blocks.
  generalize (cbc_decrypt_encrypt ks (p :: ps) v).
  generalize (cbc_encrypt_length ks (p :: ps) v).
  generalize (Crypto.cbc_encrypt ks v (p :: ps)) as cs.
  intros [|c cs] Hlen Hdec; [discriminate|].
  rewrite Hdec, (bytes_of_blocks_blocks_of _ E), pkcs7_unpad_pad.
  reflexivity.
Qed.

(** ** [EncryptionManager]: the cipher *)

Lemma fresh_iv_length (w : World) : length (EncryptionSpec.fresh_iv w) = 16%nat.
Proof. reflexivity. Qed.

Lemma encrypt_run (this : EncryptionManager.t) (data : EncryptionManager.Data)
  (w : World) :
  fst (EncryptionManager.encrypt this data w) =
  match EncryptionManager.key this with
  | [] => Err (EncryptionError ENCRYPTION_KEY_NOT_INITIALIZED)
  | _ :: _ =>
      match Crypto.cipheriv (EncryptionManager.key this) (EncryptionSpec.fresh_iv w)
              (EncryptionSpec.data_buffer data) with
      | Ok encryptedData => Ok (EncryptionSpec.fresh_iv w ++ encryptedData)
      | Err _ => Err (EncryptionError ENCRYPTION_ENCRYPTION_FAILED)
      end
  end.
Proof.
  unfold EncryptionManager.encrypt, try_catch.
  destruct (EncryptionManager.key this) as [|k ks] eqn:Hkey; [reflexivity|].
  cbn [length Nat.eqb]. unfold bind at 1. unfold Sys.randomBytes at 1.
  unfold bind at 1. fold (EncryptionSpec.fresh_iv w).
  change (match data with
          | EncryptionManager.Text s => Utf8.encode s
          | EncryptionManager.Bytes b => b
          end) with (EncryptionSpec.data_buffer data).
  destruct (Crypto.cipheriv (k :: ks) (EncryptionSpec.fresh_iv w) (EncryptionSpec.data_buffer data));
    reflexivity.
Qed.

Lemma decrypt_run (this : EncryptionManager.t) (encryptedData : Buffer)
  (w : World) :
  fst (EncryptionManager.decrypt this encryptedData w) =
  match EncryptionManager.key this with
  | [] => Err (EncryptionError ENCRYPTION_KEY_NOT_INITIALIZED)
  | _ :: _ =>
      if (length encryptedData <? 16)%nat
      then Err (EncryptionError ENCRYPTION_INVALID_ENCRYPTED_DATA)
      else
        match Crypto.decipheriv (EncryptionManager.key this)
                (firstn 16 encryptedData) (skipn 16 encryptedData) with
        | Ok decrypted => Ok (Utf8.decode decrypted)
        | Err _ => Err (EncryptionError ENCRYPTION_DECRYPTION_FAILED)
        end
  end.
Proof.
  unfold EncryptionManager.decrypt, try_catch.
  destruct (EncryptionManager.key this) as [|k ks] eqn:Hkey; [reflexivity|].
  cbn [length Nat.eqb].
  destruct (length encryptedData <? 16)%nat; [reflexivity|].
  unfold bind.
  destruct (Crypto.decipheriv _ _ _); reflexivity.
Qed.

Lemma cipheriv_key_length (key iv data ct : Buffer) :
  Crypto.cipheriv key iv data = Ok ct -> length key = 32%nat.
Proof.
  unfold Crypto.cipheriv.
  destruct (Nat.eqb_spec (length key) 32) as [E|E]; [intros _; exact E|].
  discriminate.
Qed.

Lemma split_at_prefix (A : Type) (l1 l2 : list A) (n : nat) :
  length l1 = n -> firstn n (l1 ++ l2) = l1 /\ skipn n (l1 ++ l2) = l2.
Proof.
  intros <-. split.
  - rewrite firstn_app, Nat.sub_diag, firstn_all. apply app_nil_r.
  - rewrite skipn_app, Nat.sub_diag, skipn_all. reflexivity.
Qed.

(** C4. [decrypt] reports a missing key first; with a key it reports
    invalid encrypted data exactly for blobs shorter than 16 bytes; for
    any other blob it deciphers what follows the first 16 bytes with
    those bytes as the vector and returns the text recovered, a failure
    of the decipher being reported as a decryption failure. *)
Theorem decrypt_error_contract
  (this : EncryptionManager.t) (blob : Buffer) (w : World) :
  (EncryptionManager.key this = [] ->
   fst (EncryptionManager.decrypt this blob w)
   = Err (EncryptionError ENCRYPTION_KEY_NOT_INITIALIZED))
  /\ (EncryptionManager.key this <> [] ->
      (fst (EncryptionManager.decrypt this blob w)
       = Err (EncryptionError ENCRYPTION_INVALID_ENCRYPTED_DATA)
       <-> (length blob < 16)%nat)
      /\ ((16 <= length blob)%nat ->
          fst (EncryptionManager.decrypt this blob w) =
          match Crypto.decipheriv (EncryptionManager.key this)
                  (firstn 16 blob) (skipn 16 blob) with
          | Ok decrypted => Ok (Utf8.decode decrypted)
          | Err _ => Err (EncryptionError ENCRYPTION_DECRYPTION_FAILED)
          end)).
Proof.
  rewrite decrypt_run. split.
  - intros ->. reflexivity.
  - intros Hkey. destruct (EncryptionManager.key this) as [|k ks];
      [contradiction|].
    destruct (Nat.ltb_spec (length blob) 16) as [Hlt|Hge].
    + split; [tauto|lia].
    + split; [|reflexivity]. split; [|lia].
      destruct (Crypto.decipheriv _ _ _); discriminate.
Qed.

(** A successful [encrypt] went through the cipher with a 256-bit key. *)
Lemma encrypt_ok_ciphertext
  (this : EncryptionManager.t) (data : EncryptionManager.Data) (w : World)
  (blob : Buffer) :
  fst (EncryptionManager.encrypt this data w) = Ok blob ->
  exists ciphertext,
    blob = EncryptionSpec.fresh_iv w ++ ciphertext
    /\ Crypto.cipheriv (EncryptionManager.key this) (EncryptionSpec.fresh_iv w)
         (EncryptionSpec.data_buffer data) = Ok ciphertext
    /\ length (EncryptionManager.key this) = 32%nat.
Proof.
  rewrite encrypt_run.
  destruct (EncryptionManager.key this) as [|k ks]; [discriminate|].
  destruct (Crypto.cipheriv _ _ _) as [ct|] eqn:E; [|discriminate].
  intros H. apply Ok_inj in H. subst blob.
  exists ct. split; [reflexivity|]. split; [reflexivity|].
  exact (cipheriv_key_length _ _ _ E).
Qed.

(** C8, as the code has it.  A blob [encrypt] returns is the 16-byte
    vector it drew followed by the ciphertext, and the ciphertext is a
    positive number of whole 16-byte blocks, one more than the data has
    whole blocks: the shortest blob, for data of less than 16 bytes, has
    32 bytes. *)
Theorem encrypt_blob_format
  (this : EncryptionManager.t) (data : EncryptionManager.Data) (w : World)
  (blob : Buffer) :
  fst (EncryptionManager.encrypt this data w) = Ok blob ->
  exists ciphertext,
    blob = EncryptionSpec.fresh_iv w ++ ciphertext
    /\ length (EncryptionSpec.fresh_iv w) = 16%nat
    /\ Crypto.cipheriv (EncryptionManager.key this) (EncryptionSpec.fresh_iv w)
         (EncryptionSpec.data_buffer data) = Ok ciphertext
    /\ length ciphertext
       = (16 * S (length (EncryptionSpec.data_buffer data) / 16))%nat
    /\ length blob
       = (32 + 16 * (length (EncryptionSpec.data_buffer data) / 16))%nat.
Proof.
  intros H. apply encrypt_ok_ciphertext in H as (ct & -> & E & Hkey).
  destruct (cipheriv_ok (EncryptionManager.key this) (EncryptionSpec.fresh_iv w)
              (EncryptionSpec.data_buffer data) Hkey (fresh_iv_length w))
    as (ct' & E' & Hlen).
  rewrite E in E'. apply Ok_inj in E'. subst ct'.
  exists ct. repeat split; try assumption.
  rewrite length_app, fresh_iv_length, Hlen. lia.
Qed.

(** C1, as the code has it.  With a 256-bit key, [encrypt] succeeds on
    any text and [decrypt] gives the text back: the empty string, text
    with multi-byte characters, and as well a buffer that holds the
    UTF-8 bytes of a text. *)
Theorem decrypt_encrypt_round_trip
  (this : EncryptionManager.t) (data : EncryptionManager.Data)
  (text : jsstring) (w : World) :
  length (EncryptionManager.key this) = 32%nat ->
  Utf8.well_formed text = true ->
  EncryptionSpec.holds_text data text ->
  exists blob,
    fst (EncryptionManager.encrypt this data w) = Ok blob
    /\ forall w', fst (EncryptionManager.decrypt this blob w') = Ok text.
Proof.
  intros Hkey Hwf Hdata.
  destruct (cipheriv_ok (EncryptionManager.key this) (EncryptionSpec.fresh_iv w)
              (EncryptionSpec.data_buffer data) Hkey (fresh_iv_length w))
    as (ct & E & Hlen).
  exists (EncryptionSpec.fresh_iv w ++ ct). split.
  - rewrite encrypt_run, E.
    destruct (EncryptionManager.key this); [discriminate|reflexivity].
  - intros w'. rewrite decrypt_run.
    destruct (EncryptionManager.key this) as [|k ks] eqn:Ek; [discriminate|].
    replace (length (EncryptionSpec.fresh_iv w ++ ct) <? 16)%nat with false
      by (symmetry; apply Nat.ltb_ge; rewrite length_app, fresh_iv_length; lia).
    destruct (split_at_prefix (EncryptionSpec.fresh_iv w) ct
                (fresh_iv_length w)) as [-> ->].
    rewrite (decipheriv_cipheriv _ _ _ E). f_equal.
    destruct data as [s|b]; cbn [EncryptionSpec.holds_text] in Hdata;
      subst; apply decode_encode; exact Hwf.
Qed.

Lemma decrypt_error_contract_witness :
  fst (EncryptionManager.decrypt (EncryptionManager.new SampleKeys.config)
         (SampleKeys.blob_of (EncryptionManager.Text (str "secret")))
         SampleKeys.running)
  = Err (EncryptionError ENCRYPTION_KEY_NOT_INITIALIZED)
  /\ (fst (EncryptionManager.decrypt SampleKeys.manager
             (SampleKeys.blob_of (EncryptionManager.Text (str "secret")))
             SampleKeys.running)
      = Err (EncryptionError ENCRYPTION_INVALID_ENCRYPTED_DATA)
      <-> (length (SampleKeys.blob_of (EncryptionManager.Text (str "secret")))
           < 16)%nat)
  /\ ((16 <= length (SampleKeys.blob_of (EncryptionManager.Text (str "secret"))))%nat ->
      fst (EncryptionManager.decrypt SampleKeys.manager
             (SampleKeys.blob_of (EncryptionManager.Text (str "secret")))
             SampleKeys.running) =
      match Crypto.decipheriv (EncryptionManager.key SampleKeys.manager)
              (firstn 16 (SampleKeys.blob_of (EncryptionManager.Text (str "secret"))))
              (skipn 16 (SampleKeys.blob_of (EncryptionManager.Text (str "secret"))))
      with
      | Ok decrypted => Ok (Utf8.decode decrypted)
      | Err _ => Err (EncryptionError ENCRYPTION_DECRYPTION_FAILED)
      end).
Proof.
  split.
  - apply (proj1 (decrypt_error_contract
                    (EncryptionManager.new SampleKeys.config)
                    (SampleKeys.blob_of (EncryptionManager.Text (str "secret")))
                    SampleKeys.running)).
    reflexivity.
  - apply (proj2 (decrypt_error_contract SampleKeys.manager
                    (SampleKeys.blob_of (EncryptionManager.Text (str "secret")))
                    SampleKeys.running)).
    vm_compute. discriminate.
Defined.

Lemma encrypt_blob_format_witness :
  exists ciphertext,
    SampleKeys.blob_of (EncryptionManager.Text (str "secret"))
    = EncryptionSpec.fresh_iv SampleKeys.running ++ ciphertext
    /\ length (EncryptionSpec.fresh_iv SampleKeys.running) = 16%nat
    /\ Crypto.cipheriv (EncryptionManager.key SampleKeys.manager)
         (EncryptionSpec.fresh_iv SampleKeys.running)
         (EncryptionSpec.data_buffer (EncryptionManager.Text (str "secret")))
       = Ok ciphertext
    /\ length ciphertext
       = (16 * S (length (EncryptionSpec.data_buffer
                            (EncryptionManager.Text (str "secret"))) / 16))%nat
    /\ length (SampleKeys.blob_of (EncryptionManager.Text (str "secret")))
       = (32 + 16 * (length (EncryptionSpec.data_buffer
                               (EncryptionManager.Text (str "secret"))) / 16))%nat.
Proof.
  apply (@encrypt_blob_format SampleKeys.manager
           (EncryptionManager.Text (str "secret")) SampleKeys.running).
  vm_compute. reflexivity.
Defined.

(** C8 as stated fails on the minimum: no blob of 17 bytes is ever
    produced or deciphered.  The shortest blob [encrypt] returns, for the
    empty string, has 32 bytes; a blob of 17 bytes never decrypts; and the
    length check of [decrypt] lets 16 bytes through. *)
Lemma seventeen_bytes_is_not_the_minimum :
  length (SampleKeys.blob_of (EncryptionManager.Text [])) = 32%nat
  /\ (forall data w blob,
        fst (EncryptionManager.encrypt SampleKeys.manager data w) = Ok blob ->
        length blob <> 17%nat)
  /\ (forall blob w,
        length blob = 17%nat ->
        fst (EncryptionManager.decrypt SampleKeys.manager blob w)
        = Err (EncryptionError ENCRYPTION_DECRYPTION_FAILED))
  /\ fst (EncryptionManager.decrypt SampleKeys.manager (repeat x00 16)
            SampleKeys.running)
     = Err (EncryptionError ENCRYPTION_DECRYPTION_FAILED).
Proof.
  split; [vm_compute; reflexivity|]. split; [|split].
  - intros data w blob H.
    apply encrypt_ok_ciphertext in H as (ct & -> & E & Hkey).
    destruct (cipheriv_ok (EncryptionManager.key SampleKeys.manager)
                (EncryptionSpec.fresh_iv w) (EncryptionSpec.data_buffer data)
                Hkey (fresh_iv_length w)) as (ct' & E' & Hlen).
    rewrite E in E'. apply Ok_inj in E'. subst ct'.
    rewrite length_app, fresh_iv_length, Hlen. lia.
  - intros blob w Hlen. rewrite decrypt_run.
    change (EncryptionManager.key SampleKeys.manager) with SampleKeys.key.
    destruct SampleKeys.key as [|k ks] eqn:Ek; [discriminate|].
    rewrite Hlen. cbn [Nat.ltb Nat.leb].
    replace (Crypto.decipheriv (k :: ks) (firstn 16 blob) (skipn 16 blob))
      with (@Err CryptoFault Buffer WrongFinalBlockLength); [reflexivity|].
    unfold Crypto.decipheriv. rewrite <- Ek.
    change (negb (length SampleKeys.key =? 32)%nat) with false. cbv iota.
    do 17 (destruct blob as [|? blob]; [discriminate|]).
    destruct blob; [|discriminate]. reflexivity.
  - vm_compute. reflexivity.
Qed.

Lemma decrypt_encrypt_round_trip_witness :
  exists blob,
    fst (EncryptionManager.encrypt SampleKeys.manager
           (EncryptionManager.Text SampleKeys.text) SampleKeys.running)
    = Ok blob
    /\ forall w',
         fst (EncryptionManager.decrypt SampleKeys.manager blob w')
         = Ok SampleKeys.text.
Proof.
  apply (@decrypt_encrypt_round_trip SampleKeys.manager
           (EncryptionManager.Text SampleKeys.text) SampleKeys.text
           SampleKeys.running).
  - vm_compute. reflexivity.
  - vm_compute. reflexivity.
  - reflexivity.
Defined.

(** C1 as stated fails for bytes that are not UTF-8: [decrypt] returns a
    string, and the byte [0xFF] comes back as U+FFFD, whose bytes are not
    the content.  It also needs the key to have 32 bytes: the manager that
    [initialize] leaves for [keySize = 16] cannot encrypt at all. *)
Lemma decrypt_encrypt_loses_bytes :
  fst (EncryptionManager.decrypt SampleKeys.manager
         (SampleKeys.blob_of (EncryptionManager.Bytes [xff]))
         SampleKeys.running)
  = Ok [Utf8.replacement]
  /\ length (SampleKeys.blob_of (EncryptionManager.Bytes [xff])) = 32%nat
  /\ Utf8.encode [Utf8.replacement] <> [xff]
  /\ fst SampleKeys.started_short = Ok SampleKeys.manager_short
  /\ fst (EncryptionManager.encrypt SampleKeys.manager_short
            (EncryptionManager.Text (str "secret")) SampleKeys.running)
     = Err (EncryptionError ENCRYPTION_ENCRYPTION_FAILED).
Proof.
  split; [vm_compute; reflexivity|].
  split; [vm_compute; reflexivity|].
  split; [vm_compute; discriminate|].
  split; vm_compute; reflexivity.
Qed.

(** ** [EncryptionManager]: the key *)
Section KeyLifecycle.

Variable cfg : Config.EncryptionConfig.

Let this := EncryptionManager.new cfg.
Let keyFile := Config.keyFile cfg.
Let keySize := Config.keySize cfg.

(** The [catch] branch of [loadOrCreateKey] that makes a new key. *)
Let regenerate : IO Buffer :=
  bind (Sys.randomBytes keySize)
    (fun key =>
       bind (EncryptionManager.writeFile_utf8 keyFile (Base64.encode key))
         (fun _ => ret key)).


Lemma regenerate_refused (w : World) (c : Errno) :
  write_fault (fsys w) keyFile = Some c ->
  fst (regenerate w) = Err (SystemError c).
Proof.
  intros Hw. unfold regenerate, bind, Sys.randomBytes,
    EncryptionManager.writeFile_utf8, Sys.fs_writeFile.
  cbn [fsys]. rewrite Hw. reflexivity.
Qed.

(** [loadOrCreateKey], by what the file system answers. *)
Lemma loadOrCreateKey_run (w : World) :
  EncryptionManager.loadOrCreateKey this w =
  match access (fsys w) keyFile with
  | Err c =>
      if Errno_eqb c ENOENT then regenerate (elapse w)
      else (Err (SystemError c), elapse w)
  | Ok _ =>
      match readFile (fsys w) keyFile with
      | Err c =>
          if Errno_eqb c ENOENT then regenerate (elapse (elapse w))
          else (Err (SystemError c), elapse (elapse w))
      | Ok content =>
          if (length (EncryptionSpec.stored_key content) =? keySize)%nat
          then (Ok (EncryptionSpec.stored_key content), elapse (elapse w))
          else regenerate (elapse (elapse w))
      end
  end.
Proof.
  unfold EncryptionManager.loadOrCreateKey, try_catch.
  change (Config.keyFile (EncryptionManager.config this)) with keyFile.
  change (Config.keySize (EncryptionManager.config this)) with keySize.
  unfold bind at 1. unfold Sys.fs_access at 1.
  destruct (access (fsys w) keyFile) as [[]|c]; cbn [lift_errno].
  - unfold bind at 1. unfold EncryptionManager.readFile_utf8 at 1.
    unfold bind at 1. unfold Sys.fs_readFile at 1. cbn [fsys elapse].
    destruct (readFile (fsys w) keyFile) as [content|c]; cbn [lift_errno].
    + unfold ret at 1.
      fold (EncryptionSpec.stored_key content).
      destruct (length (EncryptionSpec.stored_key content) =? keySize)%nat;
        reflexivity.
    + cbn [has_code instanceof_EncryptionError negb andb].
      destruct (Errno_eqb c ENOENT); reflexivity.
  - cbn [has_code instanceof_EncryptionError negb andb].
    destruct (Errno_eqb c ENOENT); reflexivity.
Qed.

Lemma initialize_run (w : World) :
  EncryptionManager.createEncryptionManager cfg w =
  match EncryptionManager.loadOrCreateKey this w with
  | (Ok key, w') =>
      (Ok {| EncryptionManager.config := cfg; EncryptionManager.key := key |}, w')
  | (Err _, w') => (Err (EncryptionError ENCRYPTION_INIT_FAILED), w')
  end.
Proof.
  unfold EncryptionManager.createEncryptionManager,
    EncryptionManager.initialize, try_catch, bind.
  fold this.
  destruct (EncryptionManager.loadOrCreateKey this w) as [[key|e] w'];
    reflexivity.
Qed.

End KeyLifecycle.



Lemma fresh_key_elapse (config : Config.EncryptionConfig) (w : World) :
  EncryptionSpec.fresh_key config (elapse w) = EncryptionSpec.fresh_key config w.
Proof. reflexivity. Qed.


(** A key file with a character above [U+00FF] in the place of a base64
    digit: the decoder takes the low byte of the code unit, here the
    letter A, so the file stands for 32 zero bytes, and [initialize]
    adopts them and leaves the file as it is. *)
Example wide_unit_counts_as_its_low_byte :
  EncryptionSpec.stored_key
    (Utf8.encode (321%N :: repeat 65%N 42 ++ [61%N])) = repeat x00 32
  /\ ~ EncryptionSpec.needs_new_key SampleKeys.config SampleKeys.fs_wide_unit
  /\ fst (EncryptionManager.createEncryptionManager SampleKeys.config
            (Sample.world SampleKeys.fs_wide_unit))
     = Ok {| EncryptionManager.config := SampleKeys.config;
             EncryptionManager.key := repeat x00 32 |}
  /\ readFile
       (fsys (snd (EncryptionManager.createEncryptionManager SampleKeys.config
                     (Sample.world SampleKeys.fs_wide_unit))))
       (str "key.txt")
     = readFile SampleKeys.fs_wide_unit (str "key.txt").
Proof.
  split; [vm_compute; reflexivity|]. split; [|split].
  - intros [H|[[_ H]|(_ & content & Hc & Hlen)]].
    + vm_compute in H. discriminate.
    + vm_compute in H. discriminate.
    + assert (E : content = Utf8.encode (321%N :: repeat 65%N 42 ++ [61%N])).
      { vm_compute in Hc. injection Hc as <-. vm_compute. reflexivity. }
      subst content. apply Hlen. vm_compute. reflexivity.
  - vm_compute. reflexivity.
  - vm_compute. reflexivity.
Qed.


(** When the system refuses the write of the new key file, [initialize]
    ends with the initialization error as well. *)
Lemma initialize_write_refused
  (config : Config.EncryptionConfig) (w : World) (c : Errno) :
  EncryptionSpec.needs_new_key config (fsys w) ->
  write_fault (fsys w) (Config.keyFile config) = Some c ->
  fst (EncryptionManager.createEncryptionManager config w)
  = Err (EncryptionError ENCRYPTION_INIT_FAILED).
Proof.
  intros Hneed Hwrite. rewrite initialize_run, loadOrCreateKey_run.
  assert (Hgen : forall w0, fsys w0 = fsys w ->
            fst (bind (Sys.randomBytes (Config.keySize config))
                   (fun key =>
                      bind (EncryptionManager.writeFile_utf8
                              (Config.keyFile config) (Base64.encode key))
                        (fun _ => ret key)) w0)
            = Err (SystemError c)).
  { intros w0 Hfs. apply regenerate_refused. rewrite Hfs. exact Hwrite. }
  destruct Hneed as [Ha|[[Ha Hr]|[Ha (content & Hr & Hlen)]]].
  - rewrite Ha. cbn [Errno_eqb]. specialize (Hgen (elapse w) eq_refl).
    destruct (bind _ _ (elapse w)) as [[k|e] w']; cbn [fst] in *; congruence.
  - rewrite Ha, Hr. cbn [Errno_eqb].
    specialize (Hgen (elapse (elapse w)) eq_refl).
    destruct (bind _ _ (elapse (elapse w))) as [[k|e] w']; cbn [fst] in *;
      congruence.
  - rewrite Ha, Hr. apply Nat.eqb_neq in Hlen. rewrite Hlen.
    specialize (Hgen (elapse (elapse w)) eq_refl).
    destruct (bind _ _ (elapse (elapse w))) as [[k|e] w']; cbn [fst] in *;
      congruence.
Qed.

(** A key file holding a key of the configured size is adopted as it is. *)
Lemma initialize_adopts_stored_key
  (config : Config.EncryptionConfig) (w : World) (content : Buffer) :
  access (fsys w) (Config.keyFile config) = Ok tt ->
  readFile (fsys w) (Config.keyFile config) = Ok content ->
  length (EncryptionSpec.stored_key content) = Config.keySize config ->
  fst (EncryptionManager.createEncryptionManager config w)
  = Ok {| EncryptionManager.config := config;
          EncryptionManager.key := EncryptionSpec.stored_key content |}.
Proof.
  intros Ha Hr Hlen. rewrite initialize_run, loadOrCreateKey_run, Ha, Hr.
  apply Nat.eqb_eq in Hlen. rewrite Hlen. reflexivity.
Qed.

(** * Further properties of the code *)
Lemma filter_all (A : Type) (f : A -> bool) (l : list A) :
  Forall (fun x => f x = true) l -> filter f l = l.
Proof.
  induction 1 as [|x l Hx _ IH]; simpl; [reflexivity|].
  rewrite Hx, IH. reflexivity.
Qed.

Lemma strip_pad (width : nat) (n : Z) :
  StorageManager.strip_punctuation (Date.pad width n) = Date.pad width n.
Proof.
  apply filter_all. unfold Date.pad. apply Forall_rev.
  revert n. induction width as [|width IH]; intros n; cbn [Date.digits_rev];
    constructor; [|apply IH].
  pose proof (Z.mod_pos_bound n 10 ltac:(lia)) as Hd.
  change (str "-:T.Z") with [45; 58; 84; 46; 90]%N. cbn [existsb].
  assert (H : forall k, (k < 48 \/ 57 < k)%N ->
                    N.eqb (Z.to_N (48 + n mod 10)) k = false).
  { intros k Hk. apply N.eqb_neq. lia. }
  rewrite (H 45%N), (H 58%N), (H 84%N), (H 46%N), (H 90%N) by lia.
  reflexivity.
Qed.

Lemma strip_app (s t : jsstring) :
  StorageManager.strip_punctuation (s ++ t)
  = StorageManager.strip_punctuation s ++ StorageManager.strip_punctuation t.
Proof. apply filter_app. Qed.

Lemma strip_toISOString (t : Z) :
  StorageManager.strip_punctuation (Date.toISOString t)
  = FilenameSpec.second_stamp (t / 1000) ++ Date.pad 3 (t mod 1000).
Proof.
  unfold Date.toISOString, FilenameSpec.second_stamp.
  replace (t / 1000 / 86400)%Z with (t / 86400000)%Z by divlia.
  destruct (Date.civil_from_days (t / 86400000)) as [[y m] d].
  replace (t mod 86400000 / 3600000)%Z with ((t / 1000) mod 86400 / 3600)%Z
    by divlia.
  replace (t mod 86400000 / 60000 mod 60)%Z
    with ((t / 1000) mod 86400 / 60 mod 60)%Z by divlia.
  replace (t mod 86400000 / 1000 mod 60)%Z with ((t / 1000) mod 86400 mod 60)%Z
    by divlia.
  replace ((t mod 86400000) mod 1000)%Z with (t mod 1000)%Z by divlia.
  rewrite !strip_app, !strip_pad.
  change (StorageManager.strip_punctuation (str "-")) with (@nil N).
  change (StorageManager.strip_punctuation (str "T")) with (@nil N).
  change (StorageManager.strip_punctuation (str ":")) with (@nil N).
  change (StorageManager.strip_punctuation (str ".")) with (@nil N).
  change (StorageManager.strip_punctuation (str "Z")) with (@nil N).
  cbn [app]. rewrite app_nil_r.
  assert (Hy : StorageManager.strip_punctuation
                 (if (0 <=? y)%Z && (y <=? 9999)%Z then Date.pad 4 y
                  else (if (y <? 0)%Z then str "-" else str "+")
                         ++ Date.pad 6 (Z.abs y))
               = if (0 <=? y)%Z && (y <=? 9999)%Z then Date.pad 4 y
                 else (if (y <? 0)%Z then [] else str "+") ++ Date.pad 6 (Z.abs y)).
  { destruct (_ && _); [apply strip_pad|].
    rewrite strip_app, strip_pad. destruct (y <? 0)%Z; reflexivity. }
  rewrite Hy. rewrite <- !app_assoc. reflexivity.
Qed.

Lemma pad_length (width : nat) (n : Z) : length (Date.pad width n) = width.
Proof.
  unfold Date.pad. rewrite length_rev. revert n.
  induction width as [|width IH]; intros n; cbn [Date.digits_rev length];
    [reflexivity|]. rewrite IH. reflexivity.
Qed.

Lemma second_stamp_length (s : Z) : (14 <= length (FilenameSpec.second_stamp s))%nat.
Proof.
  unfold FilenameSpec.second_stamp.
  destruct (Date.civil_from_days _) as [[y m] d].
  rewrite !length_app, !pad_length.
  destruct (_ && _); [rewrite pad_length; lia|].
  rewrite length_app, pad_length. lia.
Qed.

(** The name of a file depends on the second it is created in only. *)
Lemma filename_at_second (now : Z) :
  StorageSpec.filename_at now
  = str "private_thought_"
      ++ firstn 14 (FilenameSpec.second_stamp (now / 1000)) ++ str ".enc".
Proof.
  unfold StorageSpec.filename_at, JS.slice0. rewrite strip_toISOString.
  rewrite firstn_app.
  replace (14 - length _)%nat with 0%nat
    by (pose proof (second_stamp_length (now / 1000)); lia).
  cbn [firstn]. rewrite app_nil_r. reflexivity.
Qed.

(** ** Making directories *)
Section MkdirFacts.

Lemma fs_mkdirs_oracles (dirs : list jsstring) :
  forall (fs : FileSystem) (now : Z),
    mkdir_fault (snd (fs_mkdirs fs dirs now)) = mkdir_fault fs
    /\ write_fault (snd (fs_mkdirs fs dirs now)) = write_fault fs
    /\ stamp (snd (fs_mkdirs fs dirs now)) = stamp fs.
Proof.
  induction dirs as [|d dirs IH]; intros fs now; cbn [fs_mkdirs];
    [auto|].
  destruct (mkdir_fault fs d); [auto|].
  destruct (IH (fs_mkdir fs d now) now) as (-> & -> & ->). auto.
Qed.

(** A refusal comes from one of the directories. *)
Lemma fs_mkdirs_refused (dirs : list jsstring) :
  forall (fs : FileSystem) (now : Z) (c : Errno),
    fst (fs_mkdirs fs dirs now) = Some c ->
    exists d, In d dirs /\ mkdir_fault fs d = Some c.
Proof.
  induction dirs as [|d dirs IH]; intros fs now c; cbn [fs_mkdirs];
    [discriminate|].
  destruct (mkdir_fault fs d) as [c'|] eqn:E.
  - intros H. injection H as <-. exists d. split; [left; reflexivity|exact E].
  - intros H. apply IH in H as (d' & Hin & Hd').
    exists d'. split; [right; exact Hin|exact Hd'].
Qed.


(** What answered with success before still does: no file loses its
    content, and a listing loses no name. *)
Lemma fs_mkdirs_keeps (dirs : list jsstring) :
  forall (fs : FileSystem) (now : Z) (q : jsstring),
    (access fs q = Ok tt -> access (snd (fs_mkdirs fs dirs now)) q = Ok tt)
    /\ (forall data, readFile fs q = Ok data ->
                     readFile (snd (fs_mkdirs fs dirs now)) q = Ok data)
    /\ (forall st, stat fs q = Ok st ->
                   stat (snd (fs_mkdirs fs dirs now)) q = Ok st)
    /\ (forall names, readdir fs q = Ok names ->
                      exists names',
                        readdir (snd (fs_mkdirs fs dirs now)) q = Ok names'
                        /\ incl names names').
Proof.
  induction dirs as [|d dirs IH]; intros fs now q; cbn [fs_mkdirs].
  - repeat split; auto. intros names H. exists names.
    split; [exact H|apply incl_refl].
  - destruct (mkdir_fault fs d).
    + repeat split; auto. intros names H. exists names.
      split; [exact H|apply incl_refl].
    + destruct (IH (fs_mkdir fs d now) now q) as (Ha & Hr & Hs & Hd).
      split; [|split; [|split]].
      * intros H. apply Ha. cbn [fs_mkdir access].
        destruct (JS.eqb q d); [reflexivity|exact H].
      * intros data H. apply Hr. cbn [fs_mkdir readFile].
        destruct (JS.eqb q d); rewrite H; reflexivity.
      * intros st H. apply Hs. cbn [fs_mkdir stat].
        destruct (JS.eqb q d); rewrite H; reflexivity.
      * intros names H.
        assert (H1 : exists names1,
                   readdir (fs_mkdir fs d now) q = Ok names1
                   /\ incl names names1).
        { cbn [fs_mkdir readdir]. rewrite H.
          destruct (JS.eqb q d).
          - exists names. split; [reflexivity|apply incl_refl].
          - eexists. split; [reflexivity|]. unfold listing_with.
            destruct (_ && _); [apply incl_appl|]; apply incl_refl. }
        destruct H1 as (names1 & E1 & I1).
        destruct (Hd names1 E1) as (names' & E' & I').
        exists names'. split; [exact E'|].
        eapply incl_tran; eassumption.
Qed.

(** A path that is not among the directories answers [access], [stat]
    and [readFile] as before. *)
Lemma fs_mkdirs_elsewhere (dirs : list jsstring) :
  forall (fs : FileSystem) (now : Z) (q : jsstring),
    ~ In q dirs ->
    access (snd (fs_mkdirs fs dirs now)) q = access fs q
    /\ readFile (snd (fs_mkdirs fs dirs now)) q = readFile fs q
    /\ stat (snd (fs_mkdirs fs dirs now)) q = stat fs q.
Proof.
  induction dirs as [|d dirs IH]; intros fs now q Hq; cbn [fs_mkdirs];
    [auto|].
  destruct (mkdir_fault fs d); [auto|].
  destruct (IH (fs_mkdir fs d now) now q) as (-> & -> & ->).
  { intros H. apply Hq. right; exact H. }
  cbn [fs_mkdir access readFile stat].
  assert (E : JS.eqb q d = false).
  { apply jsstring_eqb_neq. intros ->. apply Hq. left; reflexivity. }
  rewrite E. auto.
Qed.

(** When none is refused, every one of the directories answers
    [access]. *)
Lemma fs_mkdirs_made (dirs : list jsstring) :
  forall (fs : FileSystem) (now : Z),
    fst (fs_mkdirs fs dirs now) = None ->
    forall q, In q dirs -> access (snd (fs_mkdirs fs dirs now)) q = Ok tt.
Proof.
  induction dirs as [|d dirs IH]; intros fs now Hok q Hq; [destruct Hq|].
  cbn [fs_mkdirs] in *. destruct (mkdir_fault fs d); [discriminate|].
  destruct Hq as [<-|Hq].
  - apply fs_mkdirs_keeps. cbn [fs_mkdir access].
    rewrite jsstring_eqb_refl. reflexivity.
  - apply IH; assumption.
Qed.

Lemma lineage_last (p : jsstring) : In p (lineage p).
Proof. unfold lineage. apply in_or_app. right. left. reflexivity. Qed.

End MkdirFacts.

Section S.
Variable config : Config.StorageConfig.
Let dir := StorageManager.privateDir config.

Lemma ensurePrivateDirectory_run (w : World) :
  StorageManager.ensurePrivateDirectory config w =
  match access (fsys w) dir with
  | Ok _ => (Ok tt, elapse w)
  | Err _ =>
      (match fst (fs_mkdirs (fsys w) (lineage dir) (clock (elapse w))) with
       | Some c => Err (SystemError c)
       | None => Ok tt
       end, StorageSpec.after_mkdir config w)
  end.
Proof.
  unfold StorageManager.ensurePrivateDirectory, try_catch, Sys.fs_access,
    Sys.fs_mkdir_p, StorageSpec.after_mkdir. fold dir.
  destruct (access (fsys w) dir) as [[]|c]; cbn [lift_errno]; [reflexivity|].
  cbn [fsys elapse].
  destruct (fst (fs_mkdirs (fsys w) (lineage dir) _)); reflexivity.
Qed.

(** [ensurePrivateDirectory] fails only with what [mkdir] reports. *)
Lemma ensurePrivateDirectory_error (w w1 : World) (e : JsError) :
  StorageManager.ensurePrivateDirectory config w = (Err e, w1) ->
  exists c, e = SystemError c.
Proof.
  rewrite ensurePrivateDirectory_run.
  destruct (access (fsys w) dir); [discriminate|].
  destruct (fst (fs_mkdirs _ _ _)) as [c|]; [|discriminate].
  intros E. injection E as <- _. exists c. reflexivity.
Qed.

(** Whatever [ensurePrivateDirectory] does, what answered with success
    before still does. *)
Lemma ensurePrivateDirectory_keeps (w w1 : World) (r : Result JsError unit)
  (q : jsstring) :
  StorageManager.ensurePrivateDirectory config w = (r, w1) ->
  (access (fsys w) q = Ok tt -> access (fsys w1) q = Ok tt)
  /\ (forall data, readFile (fsys w) q = Ok data ->
                   readFile (fsys w1) q = Ok data)
  /\ (forall st, stat (fsys w) q = Ok st -> stat (fsys w1) q = Ok st)
  /\ (forall names, readdir (fsys w) q = Ok names ->
                    exists names',
                      readdir (fsys w1) q = Ok names' /\ incl names names').
Proof.
  rewrite ensurePrivateDirectory_run.
  destruct (access (fsys w) dir).
  - intros E. injection E as _ <-. cbn [fsys elapse].
    repeat split; auto. intros names H. exists names.
    split; [exact H|apply incl_refl].
  - intros E. injection E as _ <-. unfold StorageSpec.after_mkdir.
    cbn [fsys elapse]. apply fs_mkdirs_keeps.
Qed.

(** [save] on data that is not empty, by what the system answers. *)
Lemma saveEncryptedThought_run (data : Buffer) (w : World) :
  data <> [] ->
  StorageManager.saveEncryptedThought config data w =
  match StorageManager.ensurePrivateDirectory config w with
  | (Err e, w1) =>
      (Err (if instanceof_StorageError e then e
            else if has_code e ENOSPC then StorageError STORAGE_STORAGE_FULL
            else StorageError STORAGE_SAVE_FAILED), w1)
  | (Ok _, w1) =>
      let filename := StorageSpec.filename_at (clock w1) in
      let p := Path.join dir filename in
      match write_fault (fsys w1) p with
      | Some c => (Err (StorageError (SaveSpec.refusal_code c)), elapse w1)
      | None =>
          (Ok {| id := Path.basename filename (Some (str ".enc"));
                 filepath := p;
                 timestamp := inject_Z (clock (StorageSpec.after_write w1 p data));
                 sizeBytes := Z.of_nat (length data) |},
           StorageSpec.after_write w1 p data)
      end
  end.
Proof.
  intros Hdata. unfold StorageManager.saveEncryptedThought, try_catch.
  destruct data as [|b data]; [contradiction|]. cbn [length Nat.eqb].
  unfold bind at 1.
  destruct (StorageManager.ensurePrivateDirectory config w) as [[[]|e] w1].
  - unfold bind at 1. rewrite generateFilename_run.
    unfold bind at 1. unfold Sys.fs_writeFile. fold dir.
    destruct (write_fault (fsys w1) _) as [c|] eqn:Hfault.
    + cbn [instanceof_StorageError has_code]. unfold throw, SaveSpec.refusal_code.
      destruct (Errno_eqb c ENOSPC); reflexivity.
    + reflexivity.
  - unfold throw.
    destruct (instanceof_StorageError e); [reflexivity|].
    destruct (has_code e ENOSPC); reflexivity.
Qed.

End S.

(** X2. How [save] fails.  Empty data is refused with [EMPTY_DATA]
    before anything is touched.  For other data, a refusal of the
    system, of making the directory or of writing the file, ends [save]
    with [STORAGE_FULL] when the code is [ENOSPC] and with [SAVE_FAILED]
    for any other code.  [save] fails in no other way. *)
Theorem saveEncryptedThought_error_contract
  (config : Config.StorageConfig) (data : Buffer) (w : World) :
  (data = [] ->
   StorageManager.saveEncryptedThought config data w
   = (Err (StorageError STORAGE_EMPTY_DATA), w))
  /\ (data <> [] ->
      forall c w1,
        StorageManager.ensurePrivateDirectory config w = (Err (SystemError c), w1) ->
        StorageManager.saveEncryptedThought config data w
        = (Err (StorageError (SaveSpec.refusal_code c)), w1))
  /\ (data <> [] ->
      forall c w1,
        StorageManager.ensurePrivateDirectory config w = (Ok tt, w1) ->
        write_fault (fsys w1)
          (Path.join (StorageManager.privateDir config)
             (StorageSpec.filename_at (clock w1))) = Some c ->
        StorageManager.saveEncryptedThought config data w
        = (Err (StorageError (SaveSpec.refusal_code c)), elapse w1))
  /\ (forall e w',
        StorageManager.saveEncryptedThought config data w = (Err e, w') ->
        (data = [] /\ e = StorageError STORAGE_EMPTY_DATA)
        \/ (data <> [] /\ exists c, e = StorageError (SaveSpec.refusal_code c))).
Proof.
  split; [|split; [|split]].
  - intros ->. reflexivity.
  - intros Hdata c w1 Hens. rewrite (saveEncryptedThought_run config w Hdata), Hens.
    cbn [instanceof_StorageError has_code]. unfold SaveSpec.refusal_code.
    destruct (Errno_eqb c ENOSPC); reflexivity.
  - intros Hdata c w1 Hens Hfault.
    rewrite (saveEncryptedThought_run config w Hdata), Hens. cbn zeta.
    rewrite Hfault. reflexivity.
  - intros e w'. destruct data as [|b data].
    + intros E. left. split; [reflexivity|]. cbv in E. congruence.
    + rewrite saveEncryptedThought_run by discriminate.
      destruct (StorageManager.ensurePrivateDirectory config w) as [[[]|e0] w1] eqn:Hens.
      * cbn zeta. destruct (write_fault _ _) as [c|]; [|discriminate].
        intros E. injection E as <- _. right. split; [discriminate|].
        exists c. reflexivity.
      * apply ensurePrivateDirectory_error in Hens as (c & ->).
        cbn [instanceof_StorageError has_code].
        intros E. injection E as <- _. right. split; [discriminate|].
        exists c. unfold SaveSpec.refusal_code.
        destruct (Errno_eqb c ENOSPC); reflexivity.
Qed.

(** ** [StorageManager]: what a save leaves behind *)
Section StorageAfterSave.

Variable config : Config.StorageConfig.

Let dir := StorageManager.privateDir config.

Lemma ensurePrivateDirectory_clock (w w1 : World) (r : Result JsError unit) :
  StorageManager.ensurePrivateDirectory config w = (r, w1) ->
  StorageSpec.time_moves_forward w ->
  (clock w <= clock w1)%Z.
Proof.
  rewrite ensurePrivateDirectory_run. fold dir. intros Hrun Hw.
  destruct (time_moves_forward_elapse Hw) as [Hw1 Hc1].
  destruct (time_moves_forward_elapse Hw1) as [_ Hc2].
  destruct (access (fsys w) dir).
  - injection Hrun as _ <-. exact Hc1.
  - injection Hrun as _ <-.
    change (clock w <= clock (elapse (elapse w)))%Z. lia.
Qed.

(** Once [ensurePrivateDirectory] has succeeded the directory answers
    [access]. *)
Lemma ensurePrivateDirectory_access (w w1 : World) :
  StorageManager.ensurePrivateDirectory config w = (Ok tt, w1) ->
  access (fsys w1) dir = Ok tt.
Proof.
  rewrite ensurePrivateDirectory_run. fold dir.
  destruct (access (fsys w) dir) as [[]|c] eqn:Ha.
  - intros E. injection E as <-. exact Ha.
  - destruct (fst (fs_mkdirs _ _ _)) eqn:Hm; [discriminate|].
    intros E. injection E as <-. unfold StorageSpec.after_mkdir.
    cbn [fsys elapse]. apply (fs_mkdirs_made _ _ _ Hm). apply lineage_last.
Qed.

Lemma after_write_clock (w : World) (p : jsstring) (data : Buffer) :
  StorageSpec.time_moves_forward w ->
  (clock w <= clock (StorageSpec.after_write w p data))%Z
  /\ StorageSpec.time_moves_forward (StorageSpec.after_write w p data).
Proof.
  intros Hw. unfold StorageSpec.after_write.
  destruct (@time_moves_forward_elapse
              {| fsys := fs_write (fsys w) p data (clock w); clock := clock w;
                 latency := latency w; entropy := entropy w |} Hw) as [H1 H2].
  split; [exact H2|exact H1].
Qed.

Lemma readFile_after_write (w : World) (p : jsstring) (data : Buffer) :
  readFile (fsys (StorageSpec.after_write w p data)) p = Ok data.
Proof.
  unfold StorageSpec.after_write. cbn [fsys elapse fs_write readFile].
  rewrite jsstring_eqb_refl. reflexivity.
Qed.

Lemma access_after_write (w : World) (p q : jsstring) (data : Buffer) :
  access (fsys w) q = Ok tt ->
  access (fsys (StorageSpec.after_write w p data)) q = Ok tt.
Proof.
  intros H. unfold StorageSpec.after_write. cbn [fsys elapse fs_write access].
  destruct (JS.eqb q p); [reflexivity|exact H].
Qed.

Lemma listing_with_idem (p d : jsstring) (names : list jsstring) :
  listing_with p d (listing_with p d names) = listing_with p d names.
Proof.
  unfold listing_with.
  destruct (JS.eqb (Path.join d (Path.basename p None)) p); cbn [andb];
    [|reflexivity].
  destruct (existsb (JS.eqb (Path.basename p None)) names) eqn:E; cbn [negb].
  - rewrite E. reflexivity.
  - rewrite existsb_app. cbn [existsb]. rewrite jsstring_eqb_refl, orb_true_r.
    reflexivity.
Qed.

Lemma readEncryptedThought_run (p : jsstring) (w : World) :
  StorageManager.readEncryptedThought p w =
  (match readFile (fsys w) p with
   | Ok data => Ok data
   | Err _ => Err (StorageError STORAGE_READ_FAILED)
   end, elapse w).
Proof.
  unfold StorageManager.readEncryptedThought, try_catch, Sys.fs_readFile.
  destruct (readFile (fsys w) p); reflexivity.
Qed.

End StorageAfterSave.

(** X1. What [save] wrote is what [read] returns: after a successful
    [saveEncryptedThought] of [data], [readEncryptedThought] on the path
    the record names gives [data] back, as long as the file is left as
    it is. *)
Theorem saved_thought_reads_back
  (config : Config.StorageConfig) (data : Buffer) (w w' later : World)
  (T : StoredThought) :
  StorageManager.saveEncryptedThought config data w = (Ok T, w') ->
  readFile (fsys later) (filepath T) = readFile (fsys w') (filepath T) ->
  fst (StorageManager.readEncryptedThought (filepath T) later) = Ok data
  /\ sizeBytes T = Z.of_nat (length data).
Proof.
  intros Hsave Hsame.
  apply saveEncryptedThought_ok in Hsave as (w1 & _ & _ & _ & Hw' & HT).
  rewrite readEncryptedThought_run. cbn [fst]. rewrite Hsame, HT.
  cbn [filepath sizeBytes]. rewrite Hw', readFile_after_write.
  split; reflexivity.
Qed.

Lemma saved_thought_reads_back_witness :
  fst (StorageManager.readEncryptedThought
         (filepath Sample.saved_thought) (snd Sample.saved)) = Ok Sample.blob
  /\ sizeBytes Sample.saved_thought = Z.of_nat (length Sample.blob).
Proof.
  apply (@saved_thought_reads_back Sample.config Sample.blob
           (Sample.world Sample.fs_absent) (snd Sample.saved) (snd Sample.saved)).
  - apply run_eta. vm_compute. reflexivity.
  - reflexivity.
Defined.

(** X3. The name of a file is made of the clock's reading down to the
    second.  Two saves that fall within one second of the clock therefore
    go to the same path: both records carry the same [id] and
    [filepath], the directory lists no more names than after the first
    save, and the file holds the data of the second save. *)
Theorem saves_within_one_second_share_a_file
  (config : Config.StorageConfig) (data1 data2 : Buffer) (w w1 w2 : World)
  (T1 T2 : StoredThought) :
  StorageSpec.time_moves_forward w ->
  StorageManager.saveEncryptedThought config data1 w = (Ok T1, w1) ->
  StorageManager.saveEncryptedThought config data2 w1 = (Ok T2, w2) ->
  (clock w / 1000 = clock w2 / 1000)%Z ->
  id T2 = id T1
  /\ filepath T2 = filepath T1
  /\ readdir (fsys w2) (StorageManager.privateDir config)
     = readdir (fsys w1) (StorageManager.privateDir config)
  /\ fst (StorageManager.readEncryptedThought (filepath T1) w2) = Ok data2.
Proof.
  intros Hw Hs1 Hs2 Hsec.
  apply saveEncryptedThought_ok in Hs1 as (wa & Hens1 & _ & _ & Hw1 & HT1).
  apply saveEncryptedThought_ok in Hs2 as (wb & Hens2 & _ & _ & Hw2 & HT2).
  pose proof (ensurePrivateDirectory_clock config Hens1 Hw) as Hc1.
  pose proof (ensurePrivateDirectory_time config Hens1 Hw) as Hwa.
  destruct (after_write_clock
              (Path.join (StorageManager.privateDir config)
                 (StorageSpec.filename_at (clock wa))) data1 Hwa) as [Hc2 Hw1'].
  rewrite <- Hw1 in Hc2, Hw1'.
  pose proof (ensurePrivateDirectory_clock config Hens2 Hw1') as Hc3.
  pose proof (ensurePrivateDirectory_time config Hens2 Hw1') as Hwb.
  destruct (after_write_clock
              (Path.join (StorageManager.privateDir config)
                 (StorageSpec.filename_at (clock wb))) data2 Hwb) as [Hc4 _].
  rewrite <- Hw2 in Hc4.
  assert (Hname : StorageSpec.filename_at (clock wb)
                  = StorageSpec.filename_at (clock wa)).
  { rewrite !filename_at_second.
    replace (clock wb / 1000)%Z with (clock wa / 1000)%Z; [reflexivity|].
    clear - Hsec Hc1 Hc2 Hc3 Hc4. divlia. }
  rewrite Hname in Hw2, HT2.
  assert (Hfs : fsys wb = fsys w1).
  { assert (Ha : access (fsys w1) (StorageManager.privateDir config) = Ok tt).
    { rewrite Hw1. apply access_after_write.
      eapply ensurePrivateDirectory_access; exact Hens1. }
    rewrite ensurePrivateDirectory_run, Ha in Hens2.
    injection Hens2 as <-. reflexivity. }
  split; [rewrite HT1, HT2; reflexivity|].
  split; [rewrite HT1, HT2; reflexivity|]. split.
  - rewrite Hw2. unfold StorageSpec.after_write.
    cbn [fsys elapse fs_write readdir]. rewrite Hfs, Hw1.
    unfold StorageSpec.after_write. cbn [fsys elapse fs_write readdir].
    destruct (readdir (fsys wa) (StorageManager.privateDir config));
      [|reflexivity].
    rewrite listing_with_idem. reflexivity.
  - rewrite readEncryptedThought_run. cbn [fst]. rewrite HT1. cbn [filepath].
    rewrite Hw2, readFile_after_write. reflexivity.
Qed.

(** ** [StorageManager]: the directory and the views *)
Section StorageDirectory.

Variable config : Config.StorageConfig.

Let dir := StorageManager.privateDir config.


(** The views leave the file system as it is. *)
Lemma getThoughtMetadata_fsys (w : World) :
  fsys (snd (StorageManager.getThoughtMetadata config w)) = fsys w.
Proof.
  unfold StorageManager.getThoughtMetadata. unfold bind at 1.
  rewrite getSavedFiles_run. fold dir.
  destruct (readdir (fsys w) dir) as [files|e].
  - unfold bind.
    destruct (metadata_loop_run
                (map (Path.join dir) (StorageSpec.enc_names files)) [] (elapse w))
      as (w' & Hrun & Hfs).
    rewrite Hrun. exact Hfs.
  - destruct e; reflexivity.
Qed.

(** [getStorageStats] leaves the world [getThoughtMetadata] leaves. *)
Lemma getStorageStats_world (limit : nat) (w : World) :
  snd (StorageManager.getStorageStats config limit w)
  = snd (StorageManager.getThoughtMetadata config w).
Proof.
  unfold StorageManager.getStorageStats. unfold bind at 1.
  destruct (StorageManager.getThoughtMetadata config w) as [[l|e] w'];
    cbn [snd]; [|reflexivity].
  destruct l as [|t rest]; [reflexivity|].
  unfold bind, settle, JSArray.Math_min, JSArray.Math_max, ret.
  destruct (JSArray.spread limit _); reflexivity.
Qed.

Lemma getStorageStats_fsys (limit : nat) (w : World) :
  fsys (snd (StorageManager.getStorageStats config limit w)) = fsys w.
Proof. rewrite getStorageStats_world. apply getThoughtMetadata_fsys. Qed.


End StorageDirectory.


(** X6. How the views of the store fail.  [getThoughtMetadata] fails in
    one way only: when the directory cannot be listed for another reason
    than its absence, with the listing error.  [getStorageStats] fails
    when [getThoughtMetadata] does, in the same way, and besides when
    the listing is longer than one call takes as arguments: then
    [Math.min(...timestamps)] throws, and the call ends with the
    engine's [RangeError].  Neither changes the file system. *)
Theorem failures_of_the_views
  (config : Config.StorageConfig) (limit : nat) (w : World) (e : JsError) :
  (fst (StorageManager.getThoughtMetadata config w) = Err e
   <-> e = StorageError STORAGE_LIST_FAILED
       /\ exists c,
            readdir (fsys w) (StorageManager.privateDir config) = Err c
            /\ c <> ENOENT)
  /\ (fst (StorageManager.getStorageStats config limit w) = Err e
      <-> fst (StorageManager.getThoughtMetadata config w) = Err e
          \/ (e = RangeError
              /\ exists l,
                   fst (StorageManager.getThoughtMetadata config w) = Ok l
                   /\ (limit < length l)%nat))
  /\ fsys (snd (StorageManager.getThoughtMetadata config w)) = fsys w
  /\ fsys (snd (StorageManager.getStorageStats config limit w)) = fsys w.
Proof.
  split; [|split; [|split]].
  - rewrite getThoughtMetadata_run.
    destruct (readdir (fsys w) (StorageManager.privateDir config)) as [files|c].
    + split; [discriminate|]. intros (_ & c & Hc & _). discriminate.
    + destruct c; split;
        try (intros H; injection H as <-; split; [reflexivity|];
             eexists; split; [reflexivity|discriminate]);
        try (intros (-> & _); reflexivity);
        try discriminate.
      intros (_ & c & Hc & Hne). injection Hc as <-. contradiction.
  - rewrite getStorageStats_run.
    destruct (fst (StorageManager.getThoughtMetadata config w))
      as [[|t l]|e'].
    + split; [discriminate|].
      intros [H|(_ & l & Hl & Hlen)]; [discriminate|].
      injection Hl as <-. inversion Hlen.
    + destruct (limit <? length (t :: l))%nat eqn:E.
      * split.
        -- intros H. injection H as <-. right. split; [reflexivity|].
           exists (t :: l). split; [reflexivity|]. apply Nat.ltb_lt. exact E.
        -- intros [H|(-> & _)]; [discriminate|reflexivity].
      * split; [discriminate|].
        intros [H|(_ & l' & Hl & Hlen)]; [discriminate|].
        injection Hl as <-. apply Nat.ltb_lt in Hlen. congruence.
    + split.
      * intros H. left. injection H as <-. reflexivity.
      * intros [H|(_ & l & Hl & _)]; [|discriminate].
        injection H as <-. reflexivity.
  - apply getThoughtMetadata_fsys.
  - apply getStorageStats_fsys.
Qed.

(** ** [StorageManager]: the statistics after a save *)
Section StatsAfterSave.

Variable config : Config.StorageConfig.

Let dir := StorageManager.privateDir config.

Lemma sum_sizes_app (l1 l2 : list StoredThought) :
  StorageSpec.sum_sizes (l1 ++ l2)
  = (StorageSpec.sum_sizes l1 + StorageSpec.sum_sizes l2)%Z.
Proof.
  induction l1 as [|t l1 IH]; cbn [app StorageSpec.sum_sizes fold_right];
    [reflexivity|].
  fold (StorageSpec.sum_sizes (l1 ++ l2)). fold (StorageSpec.sum_sizes l1).
  rewrite IH. lia.
Qed.

Lemma sum_sizes_perm (l l' : list StoredThought) :
  Permutation l l' -> StorageSpec.sum_sizes l = StorageSpec.sum_sizes l'.
Proof.
  unfold StorageSpec.sum_sizes.
  induction 1 as [|t l l' _ IH|a b l|l l' l'' _ IH1 _ IH2];
    cbn [fold_right]; lia.
Qed.

(** The count and the total of [getStorageStats], read off the records
    the listing accounts for. *)
Lemma getStorageStats_totals (limit : nat) (w : World) (files : list jsstring)
  (s : StorageStats) :
  readdir (fsys w) dir = Ok files ->
  fst (StorageManager.getStorageStats config limit w) = Ok s ->
  count s
  = Z.of_nat (length (StorageSpec.listed_records config (fsys w) files))
  /\ totalSizeBytes s
     = StorageSpec.sum_sizes (StorageSpec.listed_records config (fsys w) files).
Proof.
  intros Hdir. rewrite getStorageStats_run, getThoughtMetadata_run. fold dir.
  rewrite Hdir.
  pose proof (sort_perm timestamp
                (StorageSpec.listed_records config (fsys w) files)) as Hperm.
  destruct (JSArray.sort _ _) as [|t rest] eqn:Es.
  - apply Permutation_sym, Permutation_nil in Hperm. rewrite Hperm.
    intros E. injection E as <-. split; reflexivity.
  - destruct (limit <? _)%nat; [discriminate|].
    intros E. injection E as <-. cbn [count totalSizeBytes]. split.
    + rewrite (Permutation_length Hperm). reflexivity.
    + rewrite fold_left_sizes, (sum_sizes_perm Hperm).
      unfold StorageSpec.sum_sizes. cbn [fold_right]. lia.
Qed.

(** [getStorageStats] answers when the records are no more than one call
    takes as arguments. *)
Lemma getStorageStats_answers (limit : nat) (w : World) (files : list jsstring) :
  readdir (fsys w) dir = Ok files ->
  (length (StorageSpec.listed_records config (fsys w) files) <= limit)%nat ->
  exists s, fst (StorageManager.getStorageStats config limit w) = Ok s.
Proof.
  intros Hdir Hlen. rewrite getStorageStats_run, getThoughtMetadata_run.
  fold dir. rewrite Hdir.
  pose proof (sort_perm timestamp
                (StorageSpec.listed_records config (fsys w) files)) as Hperm.
  rewrite (Permutation_length Hperm) in Hlen.
  destruct (JSArray.sort _ _) as [|t rest] eqn:Es.
  - eexists; reflexivity.
  - apply Nat.ltb_ge in Hlen. rewrite Hlen. eexists; reflexivity.
Qed.

Lemma stat_records_unchanged (fs fs' : FileSystem) (paths : list jsstring) :
  (forall q, In q paths -> stat fs' q = stat fs q) ->
  StorageSpec.stat_records fs' paths = StorageSpec.stat_records fs paths.
Proof.
  unfold StorageSpec.stat_records.
  induction paths as [|q paths IH]; intros H; cbn [flat_map]; [reflexivity|].
  rewrite (H q (or_introl eq_refl)). f_equal.
  apply IH. intros q' Hq'. apply H. right; exact Hq'.
Qed.

End StatsAfterSave.

(** X4. Saving into an existing store under a name the directory does
    not hold yet adds exactly one thought to the statistics: the count
    grows by one and the total size by the length of the data.  The
    store is taken to hold fewer thoughts than one call takes
    arguments, so that the statistics can still be computed. *)
Theorem save_adds_one_thought_to_the_stats
  (config : Config.StorageConfig) (limit : nat) (data : Buffer) (w w' : World)
  (T : StoredThought) (files : list jsstring) (s : StorageStats) :
  access (fsys w) (StorageManager.privateDir config) = Ok tt ->
  readdir (fsys w) (StorageManager.privateDir config) = Ok files ->
  Forall plain_name files ->
  fst (StorageManager.getStorageStats config limit w) = Ok s ->
  (count s < Z.of_nat limit)%Z ->
  StorageManager.saveEncryptedThought config data w = (Ok T, w') ->
  ~ In (id T ++ str ".enc") files ->
  exists s',
    fst (StorageManager.getStorageStats config limit w') = Ok s'
    /\ count s' = (count s + 1)%Z
    /\ totalSizeBytes s' = (totalSizeBytes s + Z.of_nat (length data))%Z.
Proof.
  intros Hacc Hdir Hplain Hs Hroom Hsave Hnew.
  destruct (@getStorageStats_totals config limit w files s Hdir Hs)
    as (Hcount & Htotal).
  apply saveEncryptedThought_ok in Hsave as (wa & Hens & _ & _ & Hw' & HT).
  rewrite ensurePrivateDirectory_run, Hacc in Hens. injection Hens as <-.
  set (fn := StorageSpec.filename_at (clock (elapse w))) in *.
  set (p := Path.join (StorageManager.privateDir config) fn) in *.
  assert (Hid : id T ++ str ".enc" = fn).
  { rewrite HT. cbn [id]. apply filename_of_id. }
  rewrite Hid in Hnew.
  assert (Hbase : Path.basename p None = fn)
    by (apply basename_join, filename_at_plain).
  assert (Hdir' : readdir (fsys w') (StorageManager.privateDir config)
                  = Ok (files ++ [fn])).
  { rewrite Hw'. unfold StorageSpec.after_write.
    cbn [fsys elapse fs_write readdir]. rewrite Hdir. unfold listing_with.
    rewrite Hbase. fold p. rewrite jsstring_eqb_refl. cbn [andb].
    destruct (existsb (JS.eqb fn) files) eqn:E; [|reflexivity].
    apply existsb_exists in E as (n & Hin & Hn).
    apply jsstring_eqb_eq in Hn. subst n. contradiction. }
  assert (Hrec : StorageSpec.listed_records config (fsys w') (files ++ [fn])
                 = StorageSpec.listed_records config (fsys w) files
                   ++ [StorageSpec.record_of p
                         {| mtimeMs := stamp (fsys w) (clock (elapse w));
                            size := Z.of_nat (length data) |}]).
  { unfold StorageSpec.listed_records, StorageSpec.enc_names.
    rewrite filter_app, map_app. unfold StorageSpec.stat_records at 1.
    rewrite flat_map_app. f_equal.
    - apply stat_records_unchanged. intros q Hq.
      apply in_map_iff in Hq as (n & <- & Hn). apply filter_In in Hn as [Hn _].
      rewrite Hw'. unfold StorageSpec.after_write.
      cbn [fsys elapse fs_write stat].
      destruct (JS.eqb (Path.join (StorageManager.privateDir config) n) p) eqn:E;
        [|reflexivity].
      apply jsstring_eqb_eq in E. exfalso. apply Hnew.
      rewrite Forall_forall in Hplain.
      rewrite <- Hbase, <- E, basename_join by (apply Hplain; exact Hn).
      exact Hn.
    - cbn [filter]. unfold fn at 1. rewrite filename_at_enc. fold fn.
      cbn [map flat_map]. fold p. rewrite Hw', stat_after_write.
      reflexivity. }
  destruct (@getStorageStats_answers config limit w' (files ++ [fn]) Hdir')
    as (s' & Hs').
  { rewrite Hrec, length_app. cbn [length]. lia. }
  exists s'. split; [exact Hs'|].
  destruct (@getStorageStats_totals config limit w' (files ++ [fn]) s' Hdir' Hs')
    as (Hcount' & Htotal').
  rewrite Hrec in Hcount', Htotal'.
  rewrite length_app in Hcount'. rewrite sum_sizes_app in Htotal'.
  cbn [length StorageSpec.sum_sizes fold_right StorageSpec.record_of sizeBytes size]
    in Hcount', Htotal'.
  split; lia.
Qed.

(** ** Base64 *)

Lemma byte_to_N (b : byte) : Utf8.byte (Byte.to_N b) = b.
Proof. unfold Utf8.byte. rewrite Byte.of_to_N. reflexivity. Qed.

Lemma byte_to_N_bound (b : byte) : (Byte.to_N b < 256)%N.
Proof. pose proof (Byte.to_N_bounded b). lia. Qed.

Lemma base64_value_digit (n : N) :
  (n < 64)%N ->
  Base64.value (Base64.digit n) = Some n
  /\ N.eqb (Base64.digit n) Base64.pad_char = false.
Proof.
  intros Hn.
  assert (Hall : forallb
                   (fun k =>
                      match Base64.value (Base64.digit (N.of_nat k)) with
                      | Some v => N.eqb v (N.of_nat k)
                      | None => false
                      end
                      && negb (N.eqb (Base64.digit (N.of_nat k)) Base64.pad_char))
                   (seq 0 64) = true) by (vm_compute; reflexivity).
  rewrite forallb_forall in Hall.
  specialize (Hall (N.to_nat n)). rewrite N2Nat.id in Hall.
  assert (Hin : In (N.to_nat n) (seq 0 64)) by (apply in_seq; lia).
  apply Hall in Hin. apply andb_true_iff in Hin as [Hv Hp].
  apply negb_true_iff in Hp. split; [|exact Hp].
  destruct (Base64.value (Base64.digit n)) as [v|]; [|discriminate].
  apply N.eqb_eq in Hv. subst v. reflexivity.
Qed.

(** Every character [encode] writes is a plain ASCII character that is
    not white space. *)
Lemma base64_digit_plain (n : N) :
  (Base64.digit n < 128)%N /\ Regex.is_whitespace (Base64.digit n) = false.
Proof.
  assert (Hall : Forall (fun c => (c < 128)%N /\ Regex.is_whitespace c = false)
                   (Base64.pad_char :: Base64.alphabet)).
  { apply Forall_forall. intros c Hc.
    assert (H : forallb (fun c => (c <? 128)%N && negb (Regex.is_whitespace c))
                  (Base64.pad_char :: Base64.alphabet) = true)
      by (vm_compute; reflexivity).
    rewrite forallb_forall in H. specialize (H c Hc).
    apply andb_true_iff in H as [H1 H2]. apply N.ltb_lt in H1.
    apply negb_true_iff in H2. auto. }
  rewrite Forall_forall in Hall. apply Hall. unfold Base64.digit.
  destruct (nth_in_or_default (N.to_nat n) Base64.alphabet Base64.pad_char)
    as [H| ->]; [right; exact H|left; reflexivity].
Qed.

Lemma base64_encode_plain (bs : Buffer) :
  Forall (fun c => (c < 128)%N /\ Regex.is_whitespace c = false)
    (Base64.encode bs).
Proof.
  assert (Hpad : (Base64.pad_char < 128)%N
                 /\ Regex.is_whitespace Base64.pad_char = false)
    by (split; reflexivity).
  induction bs as [bs IH] using (well_founded_induction
                                   (Wf_nat.well_founded_ltof _ (@length byte))).
  destruct bs as [|a [|b [|c bs']]]; cbn [Base64.encode].
  - constructor.
  - repeat constructor; try apply base64_digit_plain; apply Hpad.
  - repeat constructor; try apply base64_digit_plain; apply Hpad.
  - repeat (constructor; [apply base64_digit_plain|]).
    apply IH. unfold ltof. cbn [length]. lia.
Qed.

(** A digit [encode] writes is read back as the value it stands for. *)
Lemma digits_digit (n : N) (s : jsstring) :
  (n < 64)%N -> Base64.digits (Base64.digit n :: s) = n :: Base64.digits s.
Proof.
  intros Hn. destruct (base64_value_digit (n := n) Hn) as [V P].
  destruct (base64_digit_plain n) as [Hlow _].
  cbn [Base64.digits]. cbv zeta.
  rewrite (N.mod_small (Base64.digit n) 256) by lia.
  rewrite P, V. reflexivity.
Qed.

Lemma digits_pad (s : jsstring) : Base64.digits (Base64.pad_char :: s) = [].
Proof. reflexivity. Qed.

(** [Buffer.from(buf.toString('base64'), 'base64')] is [buf]. *)
Lemma base64_decode_encode (bs : Buffer) :
  Base64.decode (Base64.encode bs) = bs.
Proof.
  unfold Base64.decode.
  induction bs as [bs IH] using (well_founded_induction
                                   (Wf_nat.well_founded_ltof _ (@length byte))).
  destruct bs as [|a [|b [|c bs']]]; cbn [Base64.encode].
  - reflexivity.
  - pose proof (byte_to_N_bound a) as Ha. set (x := Byte.to_N a) in *.
    rewrite !digits_digit by divlia. rewrite digits_pad.
    cbn [Base64.bytes_of_digits].
    replace (x / 4 * 4 + x mod 4 * 16 / 16)%N with x by divlia.
    unfold x. rewrite byte_to_N. reflexivity.
  - pose proof (byte_to_N_bound a) as Ha. set (x := Byte.to_N a) in *.
    pose proof (byte_to_N_bound b) as Hb. set (y := Byte.to_N b) in *.
    rewrite !digits_digit by divlia. rewrite digits_pad.
    cbn [Base64.bytes_of_digits].
    replace (x / 4 * 4 + (x mod 4 * 16 + y / 16) / 16)%N with x by divlia.
    replace ((x mod 4 * 16 + y / 16) mod 16 * 16 + y mod 16 * 4 / 4)%N with y
      by divlia.
    unfold x, y. rewrite !byte_to_N. reflexivity.
  - pose proof (byte_to_N_bound a) as Ha. set (x := Byte.to_N a) in *.
    pose proof (byte_to_N_bound b) as Hb. set (y := Byte.to_N b) in *.
    pose proof (byte_to_N_bound c) as Hc. set (z := Byte.to_N c) in *.
    rewrite (digits_digit (n := x / 4)) by divlia.
    rewrite (digits_digit (n := x mod 4 * 16 + y / 16)) by divlia.
    rewrite (digits_digit (n := y mod 16 * 4 + z / 64)) by divlia.
    rewrite (digits_digit (n := z mod 64)) by divlia.
    cbn [Base64.bytes_of_digits].
    rewrite IH by (unfold ltof; cbn [length]; lia).
    replace (x / 4 * 4 + (x mod 4 * 16 + y / 16) / 16)%N with x by divlia.
    replace ((x mod 4 * 16 + y / 16) mod 16 * 16 + (y mod 16 * 4 + z / 64) / 4)%N
      with y by divlia.
    replace ((y mod 16 * 4 + z / 64) mod 4 * 64 + z mod 64)%N with z by divlia.
    unfold x, y, z. rewrite !byte_to_N. reflexivity.
Qed.

(** ** [trim] *)

Lemma trimStart_plain (s : jsstring) :
  match s with c :: _ => Regex.is_whitespace c = false | [] => True end ->
  JSString.trimStart s = s.
Proof. destruct s as [|c s]; [reflexivity|]. cbn. intros ->. reflexivity. Qed.

Lemma trim_plain (s : jsstring) :
  Forall (fun c => Regex.is_whitespace c = false) s -> JSString.trim s = s.
Proof.
  intros H. unfold JSString.trim.
  rewrite (trimStart_plain s) by (destruct H; auto).
  apply Forall_rev in H.
  rewrite (trimStart_plain (rev s)) by (destruct H; auto).
  apply rev_involutive.
Qed.

Lemma well_formed_ascii (s : jsstring) :
  Forall (fun c => (c < 128)%N) s -> Utf8.well_formed s = true.
Proof.
  induction 1 as [|c s Hc _ IH]; cbn [Utf8.well_formed]; [reflexivity|].
  unfold Utf8.is_high_surrogate, Utf8.is_low_surrogate.
  replace (55296 <=? c)%N with false by (symmetry; apply N.leb_gt; lia).
  replace (56320 <=? c)%N with false by (symmetry; apply N.leb_gt; lia).
  replace (c <? 65536)%N with true by (symmetry; apply N.ltb_lt; lia).
  rewrite IH. reflexivity.
Qed.

(** The key a key file written by [loadOrCreateKey] stands for is the key
    that was written. *)
Lemma stored_key_of_written (key : Buffer) :
  EncryptionSpec.stored_key (Utf8.encode (Base64.encode key)) = key.
Proof.
  unfold EncryptionSpec.stored_key.
  pose proof (base64_encode_plain key) as H.
  rewrite decode_encode.
  - rewrite trim_plain; [apply base64_decode_encode|].
    eapply Forall_impl; [|exact H]. intros c [_ Hc]. exact Hc.
  - apply well_formed_ascii. eapply Forall_impl; [|exact H].
    intros c [Hc _]. exact Hc.
Qed.

(** ** [EncryptionManager]: outcomes of the cipher calls *)

Lemma encrypt_fsys (this : EncryptionManager.t) (data : EncryptionManager.Data)
  (w : World) :
  fsys (snd (EncryptionManager.encrypt this data w)) = fsys w
  /\ clock (snd (EncryptionManager.encrypt this data w)) = clock w
  /\ latency (snd (EncryptionManager.encrypt this data w)) = latency w.
Proof.
  unfold EncryptionManager.encrypt, try_catch.
  destruct (length (EncryptionManager.key this) =? 0)%nat.
  - cbn. auto.
  - unfold bind, Sys.randomBytes, EncryptionManager.crypto_call, ret, throw.
    destruct (Crypto.cipheriv _ _ _); cbn; auto.
Qed.

(** X7. What [encrypt] answers depends on the key alone: without a key
    it reports the missing key and draws no random bytes; with a key of
    32 bytes it succeeds on any data, text or bytes; with a key of any
    other size the cipher refuses it and the call ends with the
    encryption error.  It never touches the file system. *)
Theorem encrypt_outcome_by_key
  (this : EncryptionManager.t) (data : EncryptionManager.Data) (w : World) :
  (EncryptionManager.key this = [] ->
   EncryptionManager.encrypt this data w
   = (Err (EncryptionError ENCRYPTION_KEY_NOT_INITIALIZED), w))
  /\ (length (EncryptionManager.key this) = 32%nat ->
      exists blob, fst (EncryptionManager.encrypt this data w) = Ok blob)
  /\ (EncryptionManager.key this <> [] ->
      length (EncryptionManager.key this) <> 32%nat ->
      fst (EncryptionManager.encrypt this data w)
      = Err (EncryptionError ENCRYPTION_ENCRYPTION_FAILED))
  /\ fsys (snd (EncryptionManager.encrypt this data w)) = fsys w.
Proof.
  split; [|split; [|split]].
  - intros Hkey. unfold EncryptionManager.encrypt, try_catch.
    rewrite Hkey. reflexivity.
  - intros Hkey. rewrite encrypt_run.
    destruct (cipheriv_ok (EncryptionManager.key this)
                (EncryptionSpec.fresh_iv w) (EncryptionSpec.data_buffer data)
                Hkey (fresh_iv_length w)) as (ct & -> & _).
    destruct (EncryptionManager.key this); [discriminate|].
    eexists; reflexivity.
  - intros Hne Hlen. rewrite encrypt_run.
    destruct (EncryptionManager.key this) as [|k ks] eqn:Ek; [contradiction|].
    unfold Crypto.cipheriv. apply Nat.eqb_neq in Hlen. rewrite Hlen.
    reflexivity.
  - apply encrypt_fsys.
Qed.

(** What the decipher accepts: a key of 32 bytes and a positive number of
    whole blocks. *)
Lemma decipheriv_ok_shape (key iv data plain : Buffer) :
  Crypto.decipheriv key iv data = Ok plain ->
  length key = 32%nat /\ exists n, length data = (16 * S n)%nat.
Proof.
  unfold Crypto.decipheriv. generalize (AES.KeyExpansion key) as ks. intros ks.
  destruct (Nat.eqb_spec (length key) 32) as [Hkey|Hkey]; cbn [negb];
    [|discriminate].
  destruct (AES.blocks_of iv) as [[|v [|v' vs]]|];
    [discriminate| |discriminate|discriminate].
  destruct (AES.blocks_of data) as [[|c cs]|] eqn:Eb;
    [discriminate| |discriminate].
  intros _. split; [exact Hkey|]. exists (length cs).
  apply blocks_of_length in Eb. exact Eb.
Qed.

(** X8. [decrypt] gives a text back only for a blob of the shape
    [encrypt] produces: at least 32 bytes and a whole number of 16-byte
    blocks, under a key of 32 bytes.  It leaves the world as it is. *)
Theorem decrypt_accepts_whole_blocks_only
  (this : EncryptionManager.t) (blob : Buffer) (w : World) (text : jsstring) :
  fst (EncryptionManager.decrypt this blob w) = Ok text ->
  length (EncryptionManager.key this) = 32%nat
  /\ (32 <= length blob)%nat
  /\ (length blob mod 16 = 0)%nat
  /\ snd (EncryptionManager.decrypt this blob w) = w.
Proof.
  intros H.
  assert (Hw : snd (EncryptionManager.decrypt this blob w) = w).
  { unfold EncryptionManager.decrypt, try_catch.
    destruct (length (EncryptionManager.key this) =? 0)%nat; [reflexivity|].
    destruct (length blob <? 16)%nat; [reflexivity|].
    unfold bind, EncryptionManager.crypto_call, ret, throw.
    destruct (Crypto.decipheriv _ _ _); reflexivity. }
  rewrite decrypt_run in H.
  destruct (EncryptionManager.key this) as [|k ks] eqn:Ek; [discriminate|].
  destruct (Nat.ltb_spec (length blob) 16) as [Hlt|Hge]; [discriminate|].
  destruct (Crypto.decipheriv (k :: ks) (firstn 16 blob) (skipn 16 blob))
    as [plain|fault] eqn:Ed; [|discriminate].
  apply decipheriv_ok_shape in Ed as (Hkey & n & Hlen).
  rewrite length_skipn in Hlen.
  split; [exact Hkey|]. split; [lia|]. split; [|exact Hw].
  replace (length blob) with ((n + 2) * 16)%nat by lia.
  apply Nat.Div0.mod_mul.
Qed.

(** ** [EncryptionManager]: the key across restarts *)

Lemma new_key_written (cfg : Config.EncryptionConfig) (w0 w' : World)
  (key : Buffer) :
  bind (Sys.randomBytes (Config.keySize cfg))
    (fun key =>
       bind (EncryptionManager.writeFile_utf8 (Config.keyFile cfg)
               (Base64.encode key))
         (fun _ => ret key)) w0 = (Ok key, w') ->
  length key = Config.keySize cfg
  /\ access (fsys w') (Config.keyFile cfg) = Ok tt
  /\ readFile (fsys w') (Config.keyFile cfg)
     = Ok (Utf8.encode (Base64.encode key)).
Proof.
  unfold bind, Sys.randomBytes, EncryptionManager.writeFile_utf8,
    Sys.fs_writeFile, ret. cbn [fsys].
  destruct (write_fault (fsys w0) (Config.keyFile cfg)); [discriminate|].
  intros E. injection E as <- <-.
  cbn [fsys elapse fs_write readFile access]. rewrite jsstring_eqb_refl.
  split; [|split; reflexivity].
  rewrite length_map. apply length_seq.
Qed.

(** What a successful start leaves in the key file. *)
Lemma started_key_file (cfg : Config.EncryptionConfig) (w w' : World)
  (this : EncryptionManager.t) :
  EncryptionManager.createEncryptionManager cfg w = (Ok this, w') ->
  EncryptionManager.config this = cfg
  /\ length (EncryptionManager.key this) = Config.keySize cfg
  /\ access (fsys w') (Config.keyFile cfg) = Ok tt
  /\ exists content,
       readFile (fsys w') (Config.keyFile cfg) = Ok content
       /\ EncryptionSpec.stored_key content = EncryptionManager.key this.
Proof.
  rewrite initialize_run, loadOrCreateKey_run.
  assert (Hgen : forall w0,
            match
              bind (Sys.randomBytes (Config.keySize cfg))
                (fun key =>
                   bind (EncryptionManager.writeFile_utf8 (Config.keyFile cfg)
                           (Base64.encode key))
                     (fun _ => ret key)) w0
            with
            | (Ok key, w1) =>
                (Ok {| EncryptionManager.config := cfg;
                       EncryptionManager.key := key |}, w1)
            | (Err _, w1) => (Err (EncryptionError ENCRYPTION_INIT_FAILED), w1)
            end = (Ok this, w') ->
            EncryptionManager.config this = cfg
            /\ length (EncryptionManager.key this) = Config.keySize cfg
            /\ access (fsys w') (Config.keyFile cfg) = Ok tt
            /\ exists content,
                 readFile (fsys w') (Config.keyFile cfg) = Ok content
                 /\ EncryptionSpec.stored_key content = EncryptionManager.key this).
  { intros w0.
    destruct (bind _ _ w0) as [[key|e] w1] eqn:Erun; [|discriminate].
    intros E. injection E as <- <-.
    apply new_key_written in Erun as (Hlen & Ha & Hr).
    cbn [EncryptionManager.config EncryptionManager.key].
    split; [reflexivity|]. split; [exact Hlen|]. split; [exact Ha|].
    eexists. split; [exact Hr|]. apply stored_key_of_written. }
  destruct (access (fsys w) (Config.keyFile cfg)) as [[]|c] eqn:Ha.
  - destruct (readFile (fsys w) (Config.keyFile cfg)) as [content|c] eqn:Hr.
    + destruct (Nat.eqb_spec (length (EncryptionSpec.stored_key content))
                  (Config.keySize cfg)) as [Hlen|Hlen]; [|apply Hgen].
      intros E. injection E as <- <-.
      cbn [EncryptionManager.config EncryptionManager.key fsys elapse].
      split; [reflexivity|]. split; [exact Hlen|]. split; [exact Ha|].
      exists content. split; [exact Hr|reflexivity].
    + destruct (Errno_eqb c ENOENT); [apply Hgen|discriminate].
  - destruct (Errno_eqb c ENOENT); [apply Hgen|discriminate].
Qed.

(** A manager started on a system whose key file holds the key of
    [this] is [this] again, and starting it writes nothing. *)
Lemma restart_adopts_key
  (config : Config.EncryptionConfig) (this : EncryptionManager.t)
  (content : Buffer) (later : World) :
  EncryptionManager.config this = config ->
  length (EncryptionManager.key this) = Config.keySize config ->
  EncryptionSpec.stored_key content = EncryptionManager.key this ->
  access (fsys later) (Config.keyFile config) = Ok tt ->
  readFile (fsys later) (Config.keyFile config) = Ok content ->
  EncryptionManager.createEncryptionManager config later
  = (Ok this, elapse (elapse later)).
Proof.
  intros Hcfg Hlen Hkey Ha Hr.
  rewrite initialize_run, loadOrCreateKey_run, Ha, Hr, Hkey.
  apply Nat.eqb_eq in Hlen. rewrite Hlen, <- Hcfg.
  destruct this; reflexivity.
Qed.

(** X9. The key survives a restart.  After [createEncryptionManager] has
    succeeded, whether it found a key or made one, the key file is
    readable, and creating a manager again from the same configuration,
    with the key file as it was left, gives a manager with the same key
    and writes nothing. *)
Theorem key_survives_restart
  (config : Config.EncryptionConfig) (w w' : World) (this : EncryptionManager.t) :
  EncryptionManager.createEncryptionManager config w = (Ok this, w') ->
  access (fsys w') (Config.keyFile config) = Ok tt
  /\ forall later,
       access (fsys later) (Config.keyFile config) = Ok tt ->
       readFile (fsys later) (Config.keyFile config)
       = readFile (fsys w') (Config.keyFile config) ->
       EncryptionManager.createEncryptionManager config later
       = (Ok this, elapse (elapse later)).
Proof.
  intros Hstart.
  apply started_key_file in Hstart as (Hcfg & Hlen & Ha & content & Hr & Hkey).
  split; [exact Ha|]. intros later Ha' Hr'. rewrite Hr in Hr'.
  eapply restart_adopts_key; eassumption.
Qed.

(** ** From a thought to its file and back *)

(** What [encrypt] returned decrypts to the text that went in. *)
Lemma decrypt_of_encrypted
  (this : EncryptionManager.t) (text : jsstring) (w : World) (blob : Buffer) :
  Utf8.well_formed text = true ->
  fst (EncryptionManager.encrypt this (EncryptionManager.Text text) w) = Ok blob ->
  forall w', fst (EncryptionManager.decrypt this blob w') = Ok text.
Proof.
  intros Hwf Henc w'.
  apply encrypt_ok_ciphertext in Henc as (ct & -> & E & Hkey).
  destruct (cipheriv_ok (EncryptionManager.key this) (EncryptionSpec.fresh_iv w)
              (Utf8.encode text) Hkey (fresh_iv_length w)) as (ct' & E' & Hlen).
  cbn [EncryptionSpec.data_buffer] in E. rewrite E in E'.
  apply Ok_inj in E'. subst ct'.
  rewrite decrypt_run.
  destruct (EncryptionManager.key this) as [|k ks] eqn:Ek; [discriminate|].
  replace (length (EncryptionSpec.fresh_iv w ++ ct) <? 16)%nat with false
    by (symmetry; apply Nat.ltb_ge; rewrite length_app, fresh_iv_length; lia).
  destruct (split_at_prefix (EncryptionSpec.fresh_iv w) ct
              (fresh_iv_length w)) as [-> ->].
  rewrite (decipheriv_cipheriv _ _ _ E). f_equal.
  apply decode_encode; exact Hwf.
Qed.

(** [ensurePrivateDirectory] leaves a path that is neither the directory
    nor above it as it was. *)
Lemma ensurePrivateDirectory_elsewhere
  (config : Config.StorageConfig) (w w1 : World) (r : Result JsError unit)
  (q : jsstring) :
  StorageManager.ensurePrivateDirectory config w = (r, w1) ->
  ~ In q (lineage (StorageManager.privateDir config)) ->
  access (fsys w1) q = access (fsys w) q
  /\ readFile (fsys w1) q = readFile (fsys w) q
  /\ stat (fsys w1) q = stat (fsys w) q.
Proof.
  rewrite ensurePrivateDirectory_run. intros Hrun Hq.
  destruct (access (fsys w) (StorageManager.privateDir config)).
  - injection Hrun as _ <-. auto.
  - injection Hrun as _ <-. unfold StorageSpec.after_mkdir.
    cbn [fsys elapse]. apply fs_mkdirs_elsewhere. exact Hq.
Qed.

(** X10. From a thought to its file and back, across a restart.  A text
    that was encrypted by a started manager and saved by the store is
    recovered by a manager started afresh from the same configuration:
    it adopts the key the first one left in the key file, the file the
    record names holds the blob, and the blob decrypts to the text.  The
    key file is assumed to be neither the storage directory nor the
    thought's file. *)
Theorem thought_recovered_after_restart
  (ecfg : Config.EncryptionConfig) (scfg : Config.StorageConfig)
  (text : jsstring) (w w1 w2 w3 : World) (this : EncryptionManager.t)
  (blob : Buffer) (T : StoredThought) :
  EncryptionManager.createEncryptionManager ecfg w = (Ok this, w1) ->
  Utf8.well_formed text = true ->
  EncryptionManager.encrypt this (EncryptionManager.Text text) w1 = (Ok blob, w2) ->
  StorageManager.saveEncryptedThought scfg blob w2 = (Ok T, w3) ->
  Config.keyFile ecfg <> StorageManager.privateDir scfg ->
  Config.keyFile ecfg <> filepath T ->
  exists w4 w5,
    EncryptionManager.createEncryptionManager ecfg w3 = (Ok this, w4)
    /\ StorageManager.readEncryptedThought (filepath T) w4 = (Ok blob, w5)
    /\ fst (EncryptionManager.decrypt this blob w5) = Ok text.
Proof.
  intros Hstart Hwf Henc Hsave Hdir Hfile.
  apply started_key_file in Hstart as (Hcfg & Hlen & Ha & content & Hr & Hkey).
  pose proof (encrypt_fsys this (EncryptionManager.Text text) w1) as (Hfs & _).
  rewrite Henc in Hfs. cbn [snd] in Hfs.
  assert (Hdec : forall w', fst (EncryptionManager.decrypt this blob w') = Ok text).
  { apply (decrypt_of_encrypted this text w1 Hwf). rewrite Henc. reflexivity. }
  apply saveEncryptedThought_ok in Hsave as (wa & Hens & _ & _ & Hw3 & HT).
  destruct (@ensurePrivateDirectory_keeps scfg _ _ _ (Config.keyFile ecfg) Hens)
    as (Ha' & Hr' & _).
  rewrite Hfs in Ha', Hr'. specialize (Ha' Ha). specialize (Hr' _ Hr).
  assert (Hp : filepath T
               = Path.join (StorageManager.privateDir scfg)
                   (StorageSpec.filename_at (clock wa)))
    by (rewrite HT; reflexivity).
  rewrite Hp in *.
  assert (Hne : JS.eqb (Config.keyFile ecfg)
                  (Path.join (StorageManager.privateDir scfg)
                     (StorageSpec.filename_at (clock wa))) = false)
    by (apply jsstring_eqb_neq; exact Hfile).
  assert (Ha3 : access (fsys w3) (Config.keyFile ecfg) = Ok tt).
  { rewrite Hw3. unfold StorageSpec.after_write.
    cbn [fsys elapse fs_write access]. rewrite Hne. exact Ha'. }
  assert (Hr3 : readFile (fsys w3) (Config.keyFile ecfg) = Ok content).
  { rewrite Hw3. unfold StorageSpec.after_write.
    cbn [fsys elapse fs_write readFile]. rewrite Hne. exact Hr'. }
  exists (elapse (elapse w3)), (elapse (elapse (elapse w3))).
  split; [eapply restart_adopts_key; eassumption|].
  split; [|apply Hdec].
  rewrite readEncryptedThought_run. cbn [fsys elapse].
  rewrite Hw3, readFile_after_write. reflexivity.
Qed.

(** ** [trim] and the pieces of a split *)

Lemma trimStart_decompose (s : jsstring) :
  exists pre,
    s = pre ++ JSString.trimStart s
    /\ Forall (fun c => Regex.is_whitespace c = true) pre.
Proof.
  induction s as [|c s (pre & E & Hpre)]; cbn [JSString.trimStart].
  - exists []. split; [reflexivity|constructor].
  - destruct (Regex.is_whitespace c) eqn:Hc.
    + exists (c :: pre). split; [cbn; rewrite <- E; reflexivity|].
      constructor; assumption.
    + exists []. split; [reflexivity|constructor].
Qed.

Lemma trimStart_head (s : jsstring) :
  match JSString.trimStart s with
  | c :: _ => Regex.is_whitespace c = false
  | [] => True
  end.
Proof.
  induction s as [|c s IH]; cbn [JSString.trimStart]; [exact I|].
  destruct (Regex.is_whitespace c) eqn:Hc; [exact IH|exact Hc].
Qed.

Lemma trimStart_whitespace (s : jsstring) :
  Forall (fun c => Regex.is_whitespace c = true) s -> JSString.trimStart s = [].
Proof.
  induction 1 as [|c s Hc _ IH]; cbn [JSString.trimStart]; [reflexivity|].
  rewrite Hc. exact IH.
Qed.

Lemma trim_whitespace (s : jsstring) :
  Forall (fun c => Regex.is_whitespace c = true) s -> JSString.trim s = [].
Proof.
  intros H. unfold JSString.trim. rewrite (trimStart_whitespace H). reflexivity.
Qed.

(** What [trim] returns neither starts nor ends with white space. *)
Lemma trim_ends (s : jsstring) :
  match JSString.trim s with
  | c :: _ => Regex.is_whitespace c = false
  | [] => True
  end
  /\ match rev (JSString.trim s) with
     | c :: _ => Regex.is_whitespace c = false
     | [] => True
     end.
Proof.
  unfold JSString.trim. set (u := JSString.trimStart s).
  pose proof (trimStart_head s) as Hu. fold u in Hu.
  pose proof (trimStart_head (rev u)) as Hv.
  destruct (trimStart_decompose (rev u)) as (pre & E & _).
  set (v := JSString.trimStart (rev u)) in *.
  split; [|rewrite rev_involutive; exact Hv].
  apply (f_equal (@rev N)) in E. rewrite rev_involutive, rev_app_distr in E.
  destruct (rev v) as [|c r]; [exact I|].
  rewrite E in Hu. exact Hu.
Qed.

Lemma trim_idempotent (s : jsstring) :
  JSString.trim (JSString.trim s) = JSString.trim s.
Proof.
  destruct (trim_ends s) as [H1 H2]. set (t := JSString.trim s) in *.
  unfold JSString.trim at 1.
  rewrite (trimStart_plain t H1), (trimStart_plain (rev t) H2).
  apply rev_involutive.
Qed.

Section SplitFacts.

Variable m : Regex.state -> option Regex.state.

(** Every piece of a split is made of characters of the string. *)
Lemma split_from_at_chars (P : N -> Prop) (after : jsstring) :
  forall before piece skip,
    Forall P after -> Forall P piece ->
    Forall (Forall P) (Segmenter.split_from_at m before after piece skip).
Proof.
  induction after as [|c rest IH]; intros before piece skip Ha Hp.
  - destruct skip; cbn [Segmenter.split_from_at];
      repeat constructor; apply Forall_rev; exact Hp.
  - apply Forall_cons_iff in Ha as [Hc Hrest].
    destruct skip as [|n]; cbn [Segmenter.split_from_at].
    + destruct (m _) as [[b' after']|].
      * destruct (_ - _)%nat.
        -- destruct piece as [|d piece].
           ++ apply IH; [exact Hrest|repeat constructor; exact Hc].
           ++ constructor; [apply Forall_rev; exact Hp|].
              apply IH; [exact Hrest|repeat constructor; exact Hc].
        -- constructor; [apply Forall_rev; exact Hp|].
           apply IH; [exact Hrest|constructor].
      * apply IH; [exact Hrest|constructor; assumption].
    + apply IH; [exact Hrest|constructor].
Qed.

Lemma split_at_chars (P : N -> Prop) (s : jsstring) :
  Forall P s -> Forall (Forall P) (Segmenter.split_at m s).
Proof.
  intros H. destruct s as [|c s]; cbn [Segmenter.split_at].
  - destruct (m ([], [])); repeat constructor.
  - apply split_from_at_chars; [exact H|constructor].
Qed.

(** Where the separator matches nowhere the string stays in one piece. *)
Lemma split_from_at_no_match (P : N -> Prop) (after : jsstring) :
  (forall (b : jsstring) c (rest : jsstring), P c ->
     m (b, (c :: rest : jsstring)) = None) ->
  forall before piece,
    Forall P after ->
    Segmenter.split_from_at m before after piece 0 = [rev piece ++ after].
Proof.
  intros Hm. induction after as [|c rest IH]; intros before piece Ha;
    cbn [Segmenter.split_from_at].
  - rewrite app_nil_r. reflexivity.
  - apply Forall_cons_iff in Ha as [Hc Hrest].
    rewrite (Hm before c rest Hc), IH by exact Hrest.
    cbn [rev]. rewrite <- app_assoc. reflexivity.
Qed.

End SplitFacts.

(** [split] is [split_at] on the matches of the expression. *)
Lemma split_from_as_split_from_at (u : N -> N) (re : Regex.RegExp)
  (after : jsstring) :
  forall before piece skip,
    Regex.split_from u re before after piece skip
    = Segmenter.split_from_at (Regex.match_at u re) before after piece skip.
Proof.
  induction after as [|c rest IH]; intros before piece skip.
  - destruct skip; reflexivity.
  - destruct skip as [|n]; cbn [Regex.split_from Segmenter.split_from_at].
    + destruct (Regex.match_at u re _) as [[b' after']|].
      * destruct (_ - _)%nat;
          [destruct piece|]; rewrite IH; reflexivity.
      * apply IH.
    + apply IH.
Qed.

Lemma split_as_split_at (u : N -> N) (re : Regex.RegExp) (s : jsstring) :
  Regex.split u re s = Segmenter.split_at (Regex.match_at u re) s.
Proof.
  destruct s as [|c s]; [reflexivity|].
  unfold Regex.split, Segmenter.split_at. apply split_from_as_split_from_at.
Qed.

(** ** [PrivacyDetector]: segments *)
Section SegmentFacts.

Variable unicode_upper : N -> N.

(** The loop of [splitIntoSegments]: it throws when a paragraph
    overflows, and gathers the pieces otherwise. *)
Lemma push_segments_run (limit : nat) (segments : list jsstring) :
  forall acc,
    Segmenter.push_segments unicode_upper limit segments acc
    = if existsb (SegmentSpec.overflows unicode_upper limit) segments
      then Err RangeError
      else Ok (acc ++ flat_map (SegmentSpec.pieces unicode_upper) segments).
Proof.
  induction segments as [|x l IH]; intros acc;
    cbn [Segmenter.push_segments existsb flat_map].
  - rewrite app_nil_r. reflexivity.
  - unfold Segmenter.push_segment, SegmentSpec.overflows, SegmentSpec.pieces,
      JSArray.spread. cbv zeta.
    destruct (500 <? length (JSString.trim x))%nat; cbn [andb orb].
    + destruct (limit <? _)%nat; cbn [orb]; [reflexivity|].
      rewrite IH, <- app_assoc. reflexivity.
    + rewrite IH, <- app_assoc. reflexivity.
Qed.

(** The segments, as the pieces of the pieces. *)
Lemma splitIntoSegments_run (limit : nat) (text : jsstring) :
  Segmenter.splitIntoSegments unicode_upper limit text
  = if existsb (SegmentSpec.overflows unicode_upper limit)
         (Regex.split unicode_upper Segmenter.paragraph_break text)
    then Err RangeError
    else Ok (SegmentSpec.segments unicode_upper text).
Proof.
  unfold Segmenter.splitIntoSegments. cbv zeta. rewrite push_segments_run.
  destruct (existsb _ _); reflexivity.
Qed.

Lemma segments_run (text : jsstring) :
  SegmentSpec.segments unicode_upper text
  = filter (fun s => (0 <? length s)%nat)
      (map JSString.trim
         (flat_map
            (fun segment =>
               if (500 <? length (JSString.trim segment))%nat
               then Segmenter.split_at
                      (Segmenter.sentence_break_at unicode_upper) segment
               else [segment])
            (Regex.split unicode_upper Segmenter.paragraph_break text))).
Proof. reflexivity. Qed.

Lemma trim_chars (P : N -> Prop) (s : jsstring) :
  Forall P s -> Forall P (JSString.trim s).
Proof.
  assert (Hstart : forall t, Forall P t -> Forall P (JSString.trimStart t)).
  { intros t Ht. destruct (trimStart_decompose t) as (pre & E & _).
    rewrite E in Ht. apply Forall_app in Ht. tauto. }
  intros H. unfold JSString.trim.
  apply Forall_rev, Hstart, Forall_rev, Hstart, H.
Qed.

Lemma segment_pieces_chars (P : N -> Prop) (text : jsstring) :
  Forall P text ->
  Forall (Forall P)
    (flat_map
       (fun segment =>
          if (500 <? length (JSString.trim segment))%nat
          then Segmenter.split_at
                 (Segmenter.sentence_break_at unicode_upper) segment
          else [segment])
       (Regex.split unicode_upper Segmenter.paragraph_break text)).
Proof.
  intros H. rewrite split_as_split_at.
  pose proof (@split_at_chars
                (Regex.match_at unicode_upper Segmenter.paragraph_break)
                P text H) as Hs.
  induction Hs as [|seg segs Hseg _ IH]; cbn [flat_map]; [constructor|].
  apply Forall_app. split; [|exact IH].
  destruct (500 <? _)%nat; [apply split_at_chars; exact Hseg|].
  repeat constructor; exact Hseg.
Qed.

Lemma paragraph_break_needs_newline (b : jsstring) (c : N) (rest : jsstring) :
  c <> 10%N ->
  Regex.match_at unicode_upper Segmenter.paragraph_break
    (b, (c :: rest : jsstring)) = None.
Proof.
  intros Hc. unfold Regex.match_at, Segmenter.paragraph_break.
  cbn [Regex.source Regex.ignoreCase Regex.matcher snd Regex.atom_matches].
  replace (10 =? c)%N with false; [reflexivity|].
  symmetry. apply N.eqb_neq. congruence.
Qed.

(** A text without a line feed is one paragraph. *)
Lemma one_paragraph (text : jsstring) :
  ~ In 10%N text ->
  Regex.split unicode_upper Segmenter.paragraph_break text = [text].
Proof.
  intros H. rewrite split_as_split_at.
  destruct text as [|c text]; [reflexivity|].
  unfold Segmenter.split_at.
  rewrite split_from_at_no_match with (P := fun c => c <> 10%N).
  - reflexivity.
  - intros b c' rest Hc'. apply paragraph_break_needs_newline; exact Hc'.
  - apply Forall_forall. intros c' Hin E. subst c'. contradiction.
Qed.

(** Paragraphs of at most 500 characters never overflow. *)
Lemma short_paragraphs_fit (limit : nat) (paragraphs : list jsstring) :
  Forall (fun seg => (length (JSString.trim seg) <= 500)%nat) paragraphs ->
  existsb (SegmentSpec.overflows unicode_upper limit) paragraphs = false.
Proof.
  induction 1 as [|seg segs Hseg _ IH]; cbn [existsb]; [reflexivity|].
  unfold SegmentSpec.overflows at 1. apply Nat.ltb_ge in Hseg.
  rewrite Hseg. cbn [andb orb]. exact IH.
Qed.

(** The paragraphs of a text are made of its characters. *)
Lemma paragraphs_chars (P : N -> Prop) (text : jsstring) :
  Forall P text ->
  Forall (Forall P)
    (Regex.split unicode_upper Segmenter.paragraph_break text).
Proof.
  intros H. rewrite split_as_split_at. apply split_at_chars. exact H.
Qed.

End SegmentFacts.

(** X11. Every segment [splitIntoSegments] hands out is a trimmed, non-empty
    piece of the text: it neither starts nor ends with white space, and
    it is made of characters of the text. *)
Theorem segments_are_trimmed_pieces
  (unicode_upper : N -> N) (limit : nat) (text : jsstring)
  (segments : list jsstring) (s : jsstring) :
  Segmenter.splitIntoSegments unicode_upper limit text = Ok segments ->
  In s segments ->
  s <> []
  /\ JSString.trim s = s
  /\ Regex.is_whitespace (hd 0%N s) = false
  /\ Regex.is_whitespace (last s 0%N) = false
  /\ Forall (fun c => In c text) s.
Proof.
  rewrite splitIntoSegments_run.
  destruct (existsb _ _); [discriminate|].
  intros E Hs. injection E as <-. rewrite segments_run in Hs.
  apply filter_In in Hs as [Hs Hlen]. apply in_map_iff in Hs as (r & <- & Hr).
  assert (Hne : JSString.trim r <> []).
  { intros E. rewrite E in Hlen. discriminate. }
  destruct (trim_ends r) as [Hhd Hlast].
  split; [exact Hne|]. split; [apply trim_idempotent|].
  split; [|split].
  - destruct (JSString.trim r); [contradiction|exact Hhd].
  - destruct (exists_last Hne) as (t & c & E). rewrite E in *.
    rewrite last_last. rewrite rev_app_distr in Hlast. exact Hlast.
  - apply trim_chars.
    pose proof (segment_pieces_chars unicode_upper (P := fun c => In c text))
      as Hall.
    specialize (Hall text ltac:(apply Forall_forall; auto)).
    rewrite Forall_forall in Hall. apply Hall. exact Hr.
Qed.

(** ** [PrivacyDetector]: [processOutput] *)
Section OutputFacts.

Variable unicode_upper : N -> N.
Variable this : PrivacyDetector.t.

(** [isLikelyPrivate] with the two scores handed in, as [processOutput]
    calls it, answers what it answers on its own. *)
Lemma isLikelyPrivate_with_scores (segment : jsstring) :
  PrivacyDetector.isLikelyPrivate unicode_upper this segment
    (Some (PrivacyDetector.calculateIntrospectionScore unicode_upper segment))
    (Some (PrivacyDetector.calculateSensitivityScore unicode_upper segment))
  = PrivacyDetector.isLikelyPrivate unicode_upper this segment None None.
Proof. reflexivity. Qed.

Let private (segment : jsstring) : bool :=
  PrivacyDetector.isLikelyPrivate unicode_upper this segment None None.

Lemma analyse_loop (segments : list jsstring) :
  forall a,
    PrivacyOutput.publicSegments
      (fold_left (PrivacyOutput.analyse unicode_upper this) segments a)
    = PrivacyOutput.publicSegments a
        ++ filter (fun s => negb (private s)) segments
    /\ PrivacyOutput.privateSoFar
         (fold_left (PrivacyOutput.analyse unicode_upper this) segments a)
       = PrivacyOutput.privateSoFar a ++ filter private segments.
Proof.
  induction segments as [|s segments IH]; intros a; cbn [fold_left filter].
  - rewrite !app_nil_r. split; reflexivity.
  - destruct (IH (PrivacyOutput.analyse unicode_upper this a s)) as [-> ->].
    unfold PrivacyOutput.analyse. cbv zeta.
    rewrite isLikelyPrivate_with_scores. fold (private s).
    destruct (private s);
      cbn [negb PrivacyOutput.publicSegments PrivacyOutput.privateSoFar];
      rewrite <- ?app_assoc; split; reflexivity.
Qed.

(** [processOutput] changes nothing outside.  When the text has been cut
    into segments it answers the private ones, and the others joined by
    a space; when the cutting has thrown it ends in its [catch]
    branch. *)
Lemma processOutput_run (limit : nat) (text : jsstring) (w : World) :
  match Segmenter.splitIntoSegments unicode_upper limit text with
  | Ok segments =>
      exists r,
        PrivacyOutput.processOutput unicode_upper limit this text w = (Ok r, w)
        /\ PrivacyOutput.privateThoughts r = filter private segments
        /\ PrivacyOutput.publicOutput r
           = PrivacyOutput.join (str " ")
               (filter (fun s => negb (private s)) segments)
  | Err _ =>
      PrivacyOutput.processOutput unicode_upper limit this text w
      = (Err (PrivacyError PRIVACY_PROCESS_FAILED), w)
  end.
Proof.
  unfold PrivacyOutput.processOutput, try_catch, bind, settle, ret.
  destruct (Segmenter.splitIntoSegments unicode_upper limit text)
    as [segments|e]; [|reflexivity].
  eexists. split; [reflexivity|].
  cbn [PrivacyOutput.privateThoughts PrivacyOutput.publicOutput].
  destruct (analyse_loop segments
              {| PrivacyOutput.publicSegments := [];
                 PrivacyOutput.privateSoFar := [];
                 PrivacyOutput.introspectionSoFar := [];
                 PrivacyOutput.sensitivitySoFar := [] |}) as [-> ->].
  split; reflexivity.
Qed.

End OutputFacts.

Lemma filter_partition (A : Type) (f : A -> bool) (l : list A) :
  Permutation l (filter f l ++ filter (fun x => negb (f x)) l).
Proof.
  induction l as [|x l IH]; cbn [filter]; [constructor|].
  destruct (f x); cbn [negb app].
  - constructor. exact IH.
  - apply Permutation_cons_app. exact IH.
Qed.

Example segments_of_three_paragraphs :
  Segmenter.splitIntoSegments SampleDetector.unicode_upper Sample.limit
    SampleTexts.three_paragraphs
  = Ok [ str "The meeting is at noon."; str "Keep this to yourself.";
         str "See you there!" ].
Proof. vm_compute. reflexivity. Qed.

Example sentences_of_a_paragraph :
  Segmenter.split_at
    (Segmenter.sentence_break_at SampleDetector.unicode_upper)
    (str "One. Two!  Three? Four.Five . six")
  = [ str "One."; str "Two!"; str "Three?"; str "Four.Five ."; str "six" ].
Proof. vm_compute. reflexivity. Qed.

Example processOutput_three_paragraphs :
  exists r,
    fst (PrivacyOutput.processOutput SampleDetector.unicode_upper Sample.limit
           SampleTexts.detector SampleTexts.three_paragraphs
           (Sample.world empty_fs)) = Ok r
    /\ PrivacyOutput.publicOutput r
       = str "The meeting is at noon. See you there!"
    /\ PrivacyOutput.privateThoughts r = [str "Keep this to yourself."].
Proof. eexists. split; [vm_compute; reflexivity|]. split; reflexivity. Qed.

(** X13. [processOutput] changes nothing outside, and it fails in one
    case only: when a paragraph of more than 500 characters has more
    sentences than one call takes as arguments, the cutting of the text
    throws, and the call ends with the detector's processing error.
    Otherwise it sorts every segment of the text into the private
    thoughts or into the public output, by what [isLikelyPrivate] says
    of the segment alone: nothing is dropped and nothing is put on both
    sides.  A segment that an explicit indicator matches is among the
    private thoughts, and the public output is the other segments
    joined by single spaces, none of which any indicator matches. *)
Theorem processOutput_sorts_every_segment
  (unicode_upper : N -> N) (limit : nat) (this : PrivacyDetector.t)
  (text : jsstring) (w : World) :
  let paragraphs :=
    Regex.split unicode_upper Segmenter.paragraph_break text in
  (existsb (SegmentSpec.overflows unicode_upper limit) paragraphs = true ->
   Segmenter.splitIntoSegments unicode_upper limit text = Err RangeError
   /\ PrivacyOutput.processOutput unicode_upper limit this text w
      = (Err (PrivacyError PRIVACY_PROCESS_FAILED), w))
  /\ (existsb (SegmentSpec.overflows unicode_upper limit) paragraphs = false ->
      exists segments r publics,
        Segmenter.splitIntoSegments unicode_upper limit text = Ok segments
        /\ PrivacyOutput.processOutput unicode_upper limit this text w
           = (Ok r, w)
        /\ PrivacyOutput.publicOutput r = PrivacyOutput.join (str " ") publics
        /\ PrivacyOutput.privateThoughts r
           = filter
               (fun s =>
                  PrivacyDetector.isLikelyPrivate unicode_upper this s None None)
               segments
        /\ publics
           = filter
               (fun s =>
                  negb (PrivacyDetector.isLikelyPrivate unicode_upper this s
                          None None))
               segments
        /\ Permutation segments (PrivacyOutput.privateThoughts r ++ publics)
        /\ (forall s pattern,
              In s segments ->
              In pattern (PrivacyDetector.privacyPatterns this) ->
              Regex.test unicode_upper pattern s = true ->
              In s (PrivacyOutput.privateThoughts r))
        /\ (forall s pattern,
              In s publics ->
              In pattern (PrivacyDetector.privacyPatterns this) ->
              Regex.test unicode_upper pattern s = false)).
Proof.
  intros paragraphs.
  pose proof (processOutput_run unicode_upper this limit text w) as Hrun.
  rewrite splitIntoSegments_run in *. fold paragraphs in Hrun |- *.
  split; intros E; rewrite E in *.
  - split; [reflexivity|exact Hrun].
  - destruct Hrun as (r & Hrun & Hpriv & Hpub).
    exists (SegmentSpec.segments unicode_upper text), r. eexists.
    split; [reflexivity|]. split; [exact Hrun|]. split; [exact Hpub|].
    split; [exact Hpriv|]. split; [reflexivity|]. split; [|split].
    + rewrite Hpriv. apply filter_partition.
    + intros s pattern Hs Hp Ht. rewrite Hpriv. apply filter_In.
      split; [exact Hs|]. unfold PrivacyDetector.isLikelyPrivate.
      replace (existsb _ _) with true; [reflexivity|].
      symmetry. apply existsb_exists. exists pattern. auto.
    + intros s pattern Hs Hp. apply filter_In in Hs as [_ Hs].
      apply negb_true_iff in Hs. unfold PrivacyDetector.isLikelyPrivate in Hs.
      destruct (existsb _ (PrivacyDetector.privacyPatterns this)) eqn:Ex;
        [discriminate|].
      destruct (Regex.test unicode_upper pattern s) eqn:Et; [|reflexivity].
      assert (Habs : existsb (fun pattern => Regex.test unicode_upper pattern s)
                       (PrivacyDetector.privacyPatterns this) = true)
        by (apply existsb_exists; exists pattern; auto).
      rewrite Habs in Ex. discriminate.
Qed.

(** X12. A text of white space only has no segments: [processOutput]
    answers an empty public output, no private thoughts and no scores. *)
Theorem blank_text_has_no_segments
  (unicode_upper : N -> N) (limit : nat) (this : PrivacyDetector.t)
  (text : jsstring) (w : World) :
  PrivacySpec.all_whitespace text ->
  Segmenter.splitIntoSegments unicode_upper limit text = Ok []
  /\ PrivacyOutput.processOutput unicode_upper limit this text w
     = (Ok {| PrivacyOutput.publicOutput := [];
              PrivacyOutput.privateThoughts := [];
              PrivacyOutput.scores :=
                Some {| PrivacyOutput.introspectionScores := [];
                        PrivacyOutput.sensitivityScores := [] |} |}, w).
Proof.
  intros Hws.
  assert (Hnone : Segmenter.splitIntoSegments unicode_upper limit text = Ok []).
  { rewrite splitIntoSegments_run, short_paragraphs_fit.
    - f_equal. rewrite segments_run.
      pose proof (segment_pieces_chars unicode_upper Hws) as Hall.
      induction Hall as [|piece pieces Hpiece _ IH]; [reflexivity|].
      cbn [map filter]. rewrite (trim_whitespace Hpiece). exact IH.
    - eapply Forall_impl; [|apply (paragraphs_chars unicode_upper Hws)].
      cbv beta. intros seg Hseg. rewrite (trim_whitespace Hseg).
      cbn [length]. lia. }
  split; [exact Hnone|].
  unfold PrivacyOutput.processOutput, try_catch, bind, settle, ret.
  rewrite Hnone. reflexivity.
Qed.

Lemma blank_text_has_no_segments_witness :
  Segmenter.splitIntoSegments SampleDetector.unicode_upper Sample.limit
    SampleTexts.blank = Ok []
  /\ PrivacyOutput.processOutput SampleDetector.unicode_upper Sample.limit
       SampleTexts.detector SampleTexts.blank (Sample.world empty_fs)
     = (Ok {| PrivacyOutput.publicOutput := [];
              PrivacyOutput.privateThoughts := [];
              PrivacyOutput.scores :=
                Some {| PrivacyOutput.introspectionScores := [];
                        PrivacyOutput.sensitivityScores := [] |} |},
        Sample.world empty_fs).
Proof.
  apply (@blank_text_has_no_segments SampleDetector.unicode_upper Sample.limit
           SampleTexts.detector SampleTexts.blank (Sample.world empty_fs)).
  repeat constructor.
Defined.

(** X14. A text of at most 500 characters without a line feed is one
    segment, so [processOutput] judges it as a whole: either all of it,
    trimmed, is the one private thought and the public output is empty,
    or all of it is the public output. *)
Theorem short_text_is_judged_as_a_whole
  (unicode_upper : N -> N) (limit : nat) (this : PrivacyDetector.t)
  (text : jsstring) (w : World) :
  ~ In 10%N text ->
  (length (JSString.trim text) <= 500)%nat ->
  JSString.trim text <> [] ->
  Segmenter.splitIntoSegments unicode_upper limit text
  = Ok [JSString.trim text]
  /\ exists r,
       PrivacyOutput.processOutput unicode_upper limit this text w = (Ok r, w)
       /\ if PrivacyDetector.isLikelyPrivate unicode_upper this
               (JSString.trim text) None None
          then PrivacyOutput.publicOutput r = []
               /\ PrivacyOutput.privateThoughts r = [JSString.trim text]
          else PrivacyOutput.publicOutput r = JSString.trim text
               /\ PrivacyOutput.privateThoughts r = [].
Proof.
  intros Hline Hlen Hne.
  assert (Hone : Segmenter.splitIntoSegments unicode_upper limit text
                 = Ok [JSString.trim text]).
  { rewrite splitIntoSegments_run, segments_run,
      (@one_paragraph unicode_upper text Hline).
    rewrite short_paragraphs_fit
      by (constructor; [exact Hlen|constructor]).
    cbn [flat_map]. apply Nat.ltb_ge in Hlen. rewrite Hlen.
    cbn [app map filter].
    destruct (JSString.trim text); [contradiction|reflexivity]. }
  split; [exact Hone|].
  pose proof (processOutput_run unicode_upper this limit text w) as Hrun.
  rewrite Hone in Hrun. destruct Hrun as (r & Hrun & Hpriv & Hpub).
  exists r. split; [exact Hrun|]. rewrite Hpriv, Hpub. cbn [filter].
  destruct (PrivacyDetector.isLikelyPrivate _ _ _ _ _); cbn [negb];
    split; reflexivity.
Qed.

Lemma short_text_is_judged_as_a_whole_witness :
  Segmenter.splitIntoSegments SampleDetector.unicode_upper Sample.limit
    SampleTexts.readme_response
  = Ok [JSString.trim SampleTexts.readme_response]
  /\ exists r,
       PrivacyOutput.processOutput SampleDetector.unicode_upper Sample.limit
         SampleTexts.detector SampleTexts.readme_response
         (Sample.world empty_fs) = (Ok r, Sample.world empty_fs)
       /\ if PrivacyDetector.isLikelyPrivate SampleDetector.unicode_upper
               SampleTexts.detector (JSString.trim SampleTexts.readme_response)
               None None
          then PrivacyOutput.publicOutput r = []
               /\ PrivacyOutput.privateThoughts r
                  = [JSString.trim SampleTexts.readme_response]
          else PrivacyOutput.publicOutput r
               = JSString.trim SampleTexts.readme_response
               /\ PrivacyOutput.privateThoughts r = [].
Proof.
  apply (@short_text_is_judged_as_a_whole SampleDetector.unicode_upper
           Sample.limit SampleTexts.detector SampleTexts.readme_response
           (Sample.world empty_fs)).
  - vm_compute. intuition discriminate.
  - apply Nat.leb_le. vm_compute. reflexivity.
  - vm_compute. discriminate.
Defined.

(** The first example of the README: the whole response is the private
    thought, for the word [private] in it. *)
Example processOutput_readme_response :
  exists r,
    fst (PrivacyOutput.processOutput SampleDetector.unicode_upper Sample.limit
           SampleTexts.detector SampleTexts.readme_response
           (Sample.world empty_fs)) = Ok r
    /\ PrivacyOutput.publicOutput r = []
    /\ PrivacyOutput.privateThoughts r = [SampleTexts.readme_response].
Proof. eexists. split; [vm_compute; reflexivity|]. split; reflexivity. Qed.

(** ** Regular expressions and letter case *)

Lemma ascii_upper_cases (c : N) :
  ((97 <= c <= 122)%N /\ Regex.ascii_upper c = (c - 32)%N)
  \/ (~ (97 <= c <= 122)%N /\ Regex.ascii_upper c = c).
Proof.
  unfold Regex.ascii_upper.
  destruct ((97 <=? c) && (c <=? 122))%N eqn:E.
  - left. apply andb_true_iff in E as [E1 E2].
    apply N.leb_le in E1, E2. auto.
  - right. split; [|reflexivity]. intros [H1 H2].
    apply N.leb_le in H1, H2. rewrite H1, H2 in E. discriminate.
Qed.

Lemma is_whitespace_upper (c : N) :
  Regex.is_whitespace (Regex.ascii_upper c) = Regex.is_whitespace c.
Proof.
  destruct (ascii_upper_cases c) as [[H ->]|[_ ->]]; [|reflexivity].
  apply eq_true_iff_eq. unfold Regex.is_whitespace.
  repeat rewrite ?orb_true_iff, ?andb_true_iff, ?N.leb_le, ?N.eqb_eq. lia.
Qed.

Lemma is_word_char_upper (c : N) :
  Regex.is_word_char (Regex.ascii_upper c) = Regex.is_word_char c.
Proof.
  destruct (ascii_upper_cases c) as [[H ->]|[_ ->]]; [|reflexivity].
  apply eq_true_iff_eq. unfold Regex.is_word_char.
  repeat rewrite ?orb_true_iff, ?andb_true_iff, ?N.leb_le, ?N.eqb_eq. lia.
Qed.

Lemma length_upper (s : jsstring) : length (CaseSpec.upper s) = length s.
Proof. apply length_map. Qed.

Section CaseFacts.

Variable unicode_upper : N -> N.

Lemma canonicalize_upper (c : N) :
  Regex.canonicalize unicode_upper (Regex.ascii_upper c)
  = Regex.canonicalize unicode_upper c.
Proof.
  destruct (ascii_upper_cases c) as [[H E]|[_ ->]]; [|reflexivity].
  unfold Regex.canonicalize.
  replace (c <? 128)%N with true by (symmetry; apply N.ltb_lt; lia).
  replace (Regex.ascii_upper c <? 128)%N with true
    by (symmetry; apply N.ltb_lt; lia).
  rewrite E. unfold Regex.ascii_upper.
  replace ((97 <=? c - 32) && (c - 32 <=? 122))%N with false.
  - replace ((97 <=? c) && (c <=? 122))%N with true; [reflexivity|].
    symmetry. apply andb_true_iff. split; apply N.leb_le; lia.
  - symmetry. apply andb_false_iff. left. apply N.leb_gt. lia.
Qed.

(** An atom that does not tell letter cases apart: any atom of an
    expression with the [i] flag, and [\s] always. *)
Lemma atom_matches_upper (ic : bool) (a : Regex.atom) (c : N) :
  ic = true \/ a = Regex.WhiteSpace ->
  Regex.atom_matches unicode_upper ic a (Regex.ascii_upper c)
  = Regex.atom_matches unicode_upper ic a c.
Proof.
  intros H. destruct a as [p|]; cbn [Regex.atom_matches].
  - destruct H as [->|H]; [|discriminate]. rewrite canonicalize_upper.
    reflexivity.
  - apply is_whitespace_upper.
Qed.

Lemma is_word_boundary_upper (x : Regex.state) :
  Regex.is_word_boundary (CaseSpec.upper_state x) = Regex.is_word_boundary x.
Proof.
  destruct x as [[|b before] [|a after]]; unfold Regex.is_word_boundary;
    cbn [CaseSpec.upper_state CaseSpec.upper fst snd map];
    rewrite ?is_word_char_upper; reflexivity.
Qed.

(** Continuations that agree on a position and its upper-case image. *)
Let agree (k k' : Regex.state -> option Regex.state) : Prop :=
  forall y, k' (CaseSpec.upper_state y) = option_map CaseSpec.upper_state (k y).

Lemma plus_loop_upper (ic : bool) (a : Regex.atom) (after : jsstring) :
  ic = true \/ a = Regex.WhiteSpace ->
  forall before k k',
    agree k k' ->
    Regex.plus_loop unicode_upper ic a (CaseSpec.upper before)
      (CaseSpec.upper after) k'
    = option_map CaseSpec.upper_state
        (Regex.plus_loop unicode_upper ic a before after k).
Proof.
  intros Ha. induction after as [|c rest IH]; intros before k k' Hk;
    cbn [CaseSpec.upper map Regex.plus_loop]; [reflexivity|].
  rewrite atom_matches_upper by exact Ha.
  destruct (Regex.atom_matches unicode_upper ic a c); [|reflexivity].
  change (Regex.ascii_upper c :: CaseSpec.upper before)
    with (CaseSpec.upper (c :: before)).
  fold (CaseSpec.upper rest). rewrite (IH (c :: before) k k' Hk).
  destruct (Regex.plus_loop unicode_upper ic a (c :: before) rest k);
    [reflexivity|].
  cbn [option_map]. exact (Hk (c :: before, rest)).
Qed.

Lemma matcher_upper (r : Regex.regex) :
  forall x k k',
    agree k k' ->
    Regex.matcher unicode_upper true r (CaseSpec.upper_state x) k'
    = option_map CaseSpec.upper_state (Regex.matcher unicode_upper true r x k).
Proof.
  induction r as [|a|a|r1 IH1 r2 IH2|r1 IH1 r2 IH2|]; intros x k k' Hk;
    cbn [Regex.matcher].
  - apply Hk.
  - destruct x as [before [|c rest]];
      cbn [CaseSpec.upper_state CaseSpec.upper fst snd map]; [reflexivity|].
    rewrite atom_matches_upper by (left; reflexivity).
    destruct (Regex.atom_matches unicode_upper true a c); [|reflexivity].
    exact (Hk (c :: before, rest)).
  - destruct x as [before after]. cbn [CaseSpec.upper_state fst snd].
    apply plus_loop_upper; [left; reflexivity|exact Hk].
  - apply IH1. intros y. apply IH2. exact Hk.
  - rewrite (IH1 x k k' Hk).
    destruct (Regex.matcher unicode_upper true r1 x k); [reflexivity|].
    cbn [option_map]. apply IH2. exact Hk.
  - rewrite is_word_boundary_upper.
    destruct (Regex.is_word_boundary x); [apply Hk|reflexivity].
Qed.

(** The matches of an expression with the [i] flag, and of [/\s+/], on
    the upper-case image of the input are the images of its matches. *)
Lemma match_at_upper (re : Regex.RegExp) (x : Regex.state) :
  Regex.ignoreCase re = true \/ Regex.source re = Regex.spaces ->
  Regex.match_at unicode_upper re (CaseSpec.upper_state x)
  = option_map CaseSpec.upper_state (Regex.match_at unicode_upper re x).
Proof.
  unfold Regex.match_at. intros [H|H]; rewrite H.
  - apply matcher_upper. intros y. reflexivity.
  - destruct x as [before after].
    cbn [Regex.matcher Regex.spaces CaseSpec.upper_state fst snd].
    apply plus_loop_upper; [right; reflexivity|]. intros y. reflexivity.
Qed.

Section Matches.

Variable re : Regex.RegExp.
Hypothesis case_blind :
  Regex.ignoreCase re = true \/ Regex.source re = Regex.spaces.

Lemma match_at_upper_split (before after : jsstring) :
  Regex.match_at unicode_upper re (CaseSpec.upper before, CaseSpec.upper after)
  = option_map CaseSpec.upper_state
      (Regex.match_at unicode_upper re (before, after)).
Proof. exact (match_at_upper re (before, after) case_blind). Qed.

Lemma search_upper (after : jsstring) :
  forall before,
    Regex.search unicode_upper re (CaseSpec.upper before) (CaseSpec.upper after)
    = Regex.search unicode_upper re before after.
Proof.
  induction after as [|c rest IH]; intros before;
    cbn [CaseSpec.upper map Regex.search]; try fold (CaseSpec.upper rest).
  - change (@nil N) with (CaseSpec.upper []) at 1.
    rewrite match_at_upper_split.
    destruct (Regex.match_at unicode_upper re _); reflexivity.
  - change (Regex.ascii_upper c :: CaseSpec.upper rest)
      with (CaseSpec.upper (c :: rest)).
    rewrite match_at_upper_split.
    destruct (Regex.match_at unicode_upper re _);
      [reflexivity|].
    cbn [option_map]. exact (IH (c :: before)).
Qed.

Lemma count_from_upper (after : jsstring) :
  forall before skip,
    Regex.count_from unicode_upper re (CaseSpec.upper before)
      (CaseSpec.upper after) skip
    = Regex.count_from unicode_upper re before after skip.
Proof.
  induction after as [|c rest IH]; intros before skip;
    cbn [CaseSpec.upper map]; try fold (CaseSpec.upper rest).
  - destruct skip; cbn [Regex.count_from]; [|reflexivity].
    change (@nil N) with (CaseSpec.upper []) at 1.
    rewrite match_at_upper_split.
    destruct (Regex.match_at unicode_upper re _) as [[b' a']|];
      reflexivity.
  - destruct skip as [|n]; cbn [Regex.count_from].
    + change (Regex.ascii_upper c :: CaseSpec.upper rest)
        with (CaseSpec.upper (c :: rest)).
      rewrite match_at_upper_split.
      destruct (Regex.match_at unicode_upper re _)
        as [[b' a']|]; cbn [option_map CaseSpec.upper_state fst snd].
      * rewrite !length_upper. f_equal. exact (IH (c :: before) _).
      * exact (IH (c :: before) 0%nat).
    + exact (IH (c :: before) n).
Qed.

Lemma split_from_upper (after : jsstring) :
  forall before piece skip,
    Regex.split_from unicode_upper re (CaseSpec.upper before)
      (CaseSpec.upper after) (CaseSpec.upper piece) skip
    = map CaseSpec.upper
        (Regex.split_from unicode_upper re before after piece skip).
Proof.
  assert (Hrev : forall piece, rev (CaseSpec.upper piece)
                               = CaseSpec.upper (rev piece))
    by (intros piece; symmetry; apply map_rev).
  induction after as [|c rest IH]; intros before piece skip;
    cbn [CaseSpec.upper map]; try fold (CaseSpec.upper rest);
    fold (CaseSpec.upper piece).
  - destruct skip; cbn [Regex.split_from map]; rewrite Hrev; reflexivity.
  - destruct skip as [|n]; cbn [Regex.split_from].
    + change (Regex.ascii_upper c :: CaseSpec.upper rest)
        with (CaseSpec.upper (c :: rest)).
      rewrite match_at_upper_split.
      destruct (Regex.match_at unicode_upper re _)
        as [[b' a']|]; cbn [option_map CaseSpec.upper_state fst snd].
      * rewrite !length_upper.
        destruct (_ - _)%nat.
        -- destruct piece as [|d piece]; cbn [CaseSpec.upper map].
           ++ exact (IH (c :: before) [c] 0%nat).
           ++ fold (CaseSpec.upper piece).
              change (Regex.ascii_upper d :: CaseSpec.upper piece)
                with (CaseSpec.upper (d :: piece)).
              rewrite Hrev. f_equal. exact (IH (c :: before) [c] 0%nat).
        -- cbn [map]. rewrite Hrev. f_equal. exact (IH (c :: before) [] n).
      * exact (IH (c :: before) (c :: piece) 0%nat).
    + exact (IH (c :: before) [] n).
Qed.

Lemma test_upper (s : jsstring) :
  Regex.test unicode_upper re (CaseSpec.upper s) = Regex.test unicode_upper re s.
Proof. exact (search_upper s []). Qed.

Lemma match_count_upper (s : jsstring) :
  Regex.match_count unicode_upper re (CaseSpec.upper s)
  = Regex.match_count unicode_upper re s.
Proof. exact (count_from_upper s [] 0). Qed.

Lemma split_length_upper (s : jsstring) :
  length (Regex.split unicode_upper re (CaseSpec.upper s))
  = length (Regex.split unicode_upper re s).
Proof.
  destruct s as [|c s].
  - cbn [CaseSpec.upper map Regex.split].
    change (@nil N, @nil N) with (CaseSpec.upper [], CaseSpec.upper []) at 1.
    rewrite match_at_upper_split.
    destruct (Regex.match_at unicode_upper re _); reflexivity.
  - pose proof (split_from_upper (c :: s) [] [] 0) as H.
    unfold Regex.split. cbn [CaseSpec.upper map] in H |- *.
    rewrite H. apply length_map.
Qed.

End Matches.

Lemma calculateIntrospectionScore_upper (text : jsstring) :
  PrivacyDetector.calculateIntrospectionScore unicode_upper (CaseSpec.upper text)
  = PrivacyDetector.calculateIntrospectionScore unicode_upper text.
Proof.
  unfold PrivacyDetector.calculateIntrospectionScore.
  rewrite !match_count_upper by (left; reflexivity).
  rewrite split_length_upper by (right; reflexivity).
  reflexivity.
Qed.

Lemma calculateSensitivityScore_upper (text : jsstring) :
  PrivacyDetector.calculateSensitivityScore unicode_upper (CaseSpec.upper text)
  = PrivacyDetector.calculateSensitivityScore unicode_upper text.
Proof.
  unfold PrivacyDetector.calculateSensitivityScore. cbn [fold_left].
  rewrite !match_count_upper by (left; reflexivity).
  rewrite split_length_upper by (right; reflexivity).
  reflexivity.
Qed.

Lemma isLikelyPrivate_upper (this : PrivacyDetector.t) (text : jsstring) :
  Forall (fun pattern => Regex.ignoreCase pattern = true)
    (PrivacyDetector.privacyPatterns this) ->
  PrivacyDetector.isLikelyPrivate unicode_upper this (CaseSpec.upper text)
    None None
  = PrivacyDetector.isLikelyPrivate unicode_upper this text None None.
Proof.
  intros Hic. unfold PrivacyDetector.isLikelyPrivate.
  rewrite calculateIntrospectionScore_upper, calculateSensitivityScore_upper.
  replace (existsb (fun pattern =>
                      Regex.test unicode_upper pattern (CaseSpec.upper text))
             (PrivacyDetector.privacyPatterns this))
    with (existsb (fun pattern => Regex.test unicode_upper pattern text)
            (PrivacyDetector.privacyPatterns this)); [reflexivity|].
  induction Hic as [|pattern patterns Hp _ IH]; cbn [existsb]; [reflexivity|].
  rewrite IH, test_upper by (left; exact Hp). reflexivity.
Qed.

End CaseFacts.

Lemma indicator_patterns_ignore_case (config : PrivacyDetector.PrivacyConfig) :
  Forall (fun pattern => Regex.ignoreCase pattern = true)
    (PrivacySpec.indicator_patterns config).
Proof.
  unfold PrivacySpec.indicator_patterns. apply Forall_app. split.
  - repeat constructor.
  - apply Forall_forall. intros pattern Hin.
    apply in_map_iff in Hin as (p & <- & _). reflexivity.
Qed.

(** X15. The detector does not tell letter cases apart: two texts that
    differ in the case of ASCII letters only get the same two scores and
    the same verdict. *)
Theorem classification_ignores_letter_case
  (unicode_upper : N -> N) (config : PrivacyDetector.PrivacyConfig)
  (s t : jsstring) :
  map Regex.ascii_upper s = map Regex.ascii_upper t ->
  PrivacyDetector.calculateIntrospectionScore unicode_upper s
  = PrivacyDetector.calculateIntrospectionScore unicode_upper t
  /\ PrivacyDetector.calculateSensitivityScore unicode_upper s
     = PrivacyDetector.calculateSensitivityScore unicode_upper t
  /\ PrivacyDetector.isLikelyPrivate unicode_upper
       (PrivacyDetector.createPrivacyDetector config) s None None
     = PrivacyDetector.isLikelyPrivate unicode_upper
         (PrivacyDetector.createPrivacyDetector config) t None None.
Proof.
  intros H. fold (CaseSpec.upper s) in H. fold (CaseSpec.upper t) in H.
  split; [|split].
  - rewrite <- (calculateIntrospectionScore_upper unicode_upper s), H.
    apply calculateIntrospectionScore_upper.
  - rewrite <- (calculateSensitivityScore_upper unicode_upper s), H.
    apply calculateSensitivityScore_upper.
  - assert (Hic : Forall (fun pattern => Regex.ignoreCase pattern = true)
                    (PrivacyDetector.privacyPatterns
                       (PrivacyDetector.createPrivacyDetector config))).
    { rewrite createPrivacyDetector_patterns.
      apply indicator_patterns_ignore_case. }
    rewrite <- (isLikelyPrivate_upper unicode_upper _ s Hic), H.
    apply isLikelyPrivate_upper. exact Hic.
Qed.

Lemma classification_ignores_letter_case_witness :
  PrivacyDetector.calculateIntrospectionScore SampleDetector.unicode_upper
    (str "I THINK we should Keep This To Yourself")
  = PrivacyDetector.calculateIntrospectionScore SampleDetector.unicode_upper
      (str "i think we should keep this to yourself")
  /\ PrivacyDetector.calculateSensitivityScore SampleDetector.unicode_upper
       (str "I THINK we should Keep This To Yourself")
     = PrivacyDetector.calculateSensitivityScore SampleDetector.unicode_upper
         (str "i think we should keep this to yourself")
  /\ PrivacyDetector.isLikelyPrivate SampleDetector.unicode_upper
       (PrivacyDetector.createPrivacyDetector SampleDetector.config)
       (str "I THINK we should Keep This To Yourself") None None
     = PrivacyDetector.isLikelyPrivate SampleDetector.unicode_upper
         (PrivacyDetector.createPrivacyDetector SampleDetector.config)
         (str "i think we should keep this to yourself") None None.
Proof.
  apply (@classification_ignores_letter_case SampleDetector.unicode_upper
           SampleDetector.config
           (str "I THINK we should Keep This To Yourself")
           (str "i think we should keep this to yourself")).
  vm_compute. reflexivity.
Defined.

(** ** Scores and thresholds *)
Section ScoreBounds.
Import PrimFloat.

(** [Math.min(1.0, q)] is never above [1.0], whatever [q] is. *)
Lemma Math_min_one (q : float) : ltb 1 (Num.Math_min 1 q) = false.
Proof.
  unfold Num.Math_min. change (is_nan 1) with false. cbn [orb].
  destruct (is_nan q); [reflexivity|].
  destruct (ltb 1 q) eqn:E; [reflexivity|].
  change (is_zero 1) with false. cbn [andb].
  destruct (ltb q 1); exact E.
Qed.

(** In the order of the floating-point numbers: what is not above [1.0]
    is not above anything that [1.0] is not above. *)
Lemma not_above_threshold (t q : float) :
  leb 1 t = true -> ltb 1 q = false -> ltb t q = false.
Proof.
  rewrite FloatAxioms.leb_spec, !FloatAxioms.ltb_spec.
  assert (E1 : FloatOps.Prim2SF 1
               = SpecFloat.S754_finite false 4503599627370496 (-52))
    by (vm_compute; reflexivity).
  rewrite E1. clear E1.
  generalize (FloatOps.Prim2SF t) as T, (FloatOps.Prim2SF q) as Q. intros T Q.
  unfold SpecFloat.SFleb, SpecFloat.SFltb, SpecFloat.SFcompare.
  destruct T as [s1|s1| |s1 m1 e1]; try discriminate.
  - destruct s1; [discriminate|]. intros _ _.
    destruct Q as [s2|[|]| |s2 m2 e2]; reflexivity.
  - destruct s1; [discriminate|].
    destruct Q as [s2|s2| |s2 m2 e2]; try reflexivity.
    + destruct s2; [reflexivity|discriminate].
    + destruct s2; [reflexivity|].
      change (PosDef.Pos.compare_cont Eq 4503599627370496 m1)
        with (Pos.compare 4503599627370496 m1).
      change (PosDef.Pos.compare_cont Eq 4503599627370496 m2)
        with (Pos.compare 4503599627370496 m2).
      change (PosDef.Pos.compare_cont Eq m1 m2) with (Pos.compare m1 m2).
      destruct (Z.compare_spec (-52) e1) as [He1|He1|He1];
        destruct (Z.compare_spec (-52) e2) as [He2|He2|He2];
        destruct (Z.compare_spec e1 e2) as [He|He|He];
        try lia; try discriminate; try reflexivity.
      intros H1 H2.
      assert (L1 : (4503599627370496 <= m1)%positive)
        by (intros E; rewrite E in H1; discriminate).
      assert (L2 : ~ (4503599627370496 < m2)%positive)
        by (intros E; unfold Pos.lt in E; rewrite E in H2; discriminate).
      clear H1 H2.
      destruct (m1 ?= m2)%positive eqn:E; try reflexivity.
      apply Pos.compare_lt_iff in E. exfalso. apply L2.
      eapply Pos.le_lt_trans; eassumption.
Qed.

Variable unicode_upper : N -> N.

Lemma calculateIntrospectionScore_at_most_one (text : jsstring) :
  Num.gt (PrivacyDetector.calculateIntrospectionScore unicode_upper text)
    ScoreSpec.one = false.
Proof.
  unfold Num.gt, PrivacyDetector.calculateIntrospectionScore. cbv zeta.
  destruct (_ =? 0)%nat; [reflexivity|apply Math_min_one].
Qed.

Lemma calculateSensitivityScore_at_most_one (text : jsstring) :
  Num.gt (PrivacyDetector.calculateSensitivityScore unicode_upper text)
    ScoreSpec.one = false.
Proof.
  unfold Num.gt, PrivacyDetector.calculateSensitivityScore. cbv zeta.
  destruct (_ =? 0)%nat; [reflexivity|apply Math_min_one].
Qed.

End ScoreBounds.

(** X16. Neither score is ever above [1.0].  With both thresholds at
    [1.0] or above, the scores therefore decide nothing: a text is
    private exactly when one of the explicit indicators matches it. *)
Theorem thresholds_from_one_leave_the_indicators
  (unicode_upper : N -> N) (this : PrivacyDetector.t) (text : jsstring) :
  ScoreSpec.at_least_one
    (PrivacyDetector.introspectionThreshold (PrivacyDetector.config this))
  = true ->
  ScoreSpec.at_least_one
    (PrivacyDetector.sensitivityThreshold (PrivacyDetector.config this))
  = true ->
  Num.gt (PrivacyDetector.calculateIntrospectionScore unicode_upper text)
    ScoreSpec.one = false
  /\ Num.gt (PrivacyDetector.calculateSensitivityScore unicode_upper text)
       ScoreSpec.one = false
  /\ PrivacyDetector.isLikelyPrivate unicode_upper this text None None
     = existsb (fun pattern => Regex.test unicode_upper pattern text)
         (PrivacyDetector.privacyPatterns this).
Proof.
  intros Hi Hs.
  pose proof (calculateIntrospectionScore_at_most_one unicode_upper text) as Bi.
  pose proof (calculateSensitivityScore_at_most_one unicode_upper text) as Bs.
  split; [exact Bi|]. split; [exact Bs|].
  unfold PrivacyDetector.isLikelyPrivate.
  destruct (existsb _ _); [reflexivity|].
  unfold Num.gt, ScoreSpec.at_least_one, ScoreSpec.one in *.
  rewrite (not_above_threshold Hi Bi), (not_above_threshold Hs Bs).
  reflexivity.
Qed.

Lemma thresholds_from_one_leave_the_indicators_witness :
  Num.gt (PrivacyDetector.calculateIntrospectionScore
            SampleDetector.unicode_upper SampleStrict.musing) ScoreSpec.one
  = false
  /\ Num.gt (PrivacyDetector.calculateSensitivityScore
               SampleDetector.unicode_upper SampleStrict.musing) ScoreSpec.one
     = false
  /\ PrivacyDetector.isLikelyPrivate SampleDetector.unicode_upper
       (PrivacyDetector.createPrivacyDetector SampleStrict.config)
       SampleStrict.musing None None
     = existsb
         (fun pattern =>
            Regex.test SampleDetector.unicode_upper pattern SampleStrict.musing)
         (PrivacyDetector.privacyPatterns
            (PrivacyDetector.createPrivacyDetector SampleStrict.config)).
Proof.
  apply (@thresholds_from_one_leave_the_indicators SampleDetector.unicode_upper
           (PrivacyDetector.createPrivacyDetector SampleStrict.config)
           SampleStrict.musing).
  - vm_compute. reflexivity.
  - vm_compute. reflexivity.
Defined.

(** The sample text scores [1.0] on introspection, above the README's
    threshold and not above the strict one. *)
Example musing_is_private_by_score_only :
  PrivacyDetector.isLikelyPrivate SampleDetector.unicode_upper
    SampleTexts.detector SampleStrict.musing None None = true
  /\ PrivacyDetector.isLikelyPrivate SampleDetector.unicode_upper
       (PrivacyDetector.createPrivacyDetector SampleStrict.config)
       SampleStrict.musing None None = false.
Proof. split; vm_compute; reflexivity. Qed.

(** ** Custom patterns *)
Section LiteralPatterns.

Variable unicode_upper : N -> N.

Let same := PatternSpec.same_up_to_case unicode_upper.

Lemma literal_matcher_complete (pattern : jsstring) :
  forall mid before rest k,
    same pattern mid ->
    Regex.matcher unicode_upper true (Regex.literal pattern)
      (before, mid ++ rest) k
    = k (rev mid ++ before, rest).
Proof.
  induction pattern as [|p pattern IH]; intros mid before rest k Hsame;
    inversion Hsame as [|? c ? mid' Hc Hmid]; subst.
  - reflexivity.
  - change (Regex.literal (p :: pattern))
      with (Regex.Seq (Regex.Atom (Regex.Char p)) (Regex.literal pattern)).
    cbn [Regex.matcher app snd fst Regex.atom_matches].
    rewrite Hc, N.eqb_refl.
    etransitivity; [exact (IH mid' (c :: before) rest k Hmid)|].
    cbn [rev]. rewrite <- app_assoc. reflexivity.
Qed.

Lemma literal_matcher_sound (pattern : jsstring) :
  forall before after k y,
    Regex.matcher unicode_upper true (Regex.literal pattern) (before, after) k
    = Some y ->
    exists mid rest, after = mid ++ rest /\ same pattern mid.
Proof.
  induction pattern as [|p pattern IH]; intros before after k y H.
  - exists [], after. split; [reflexivity|constructor].
  - change (Regex.literal (p :: pattern))
      with (Regex.Seq (Regex.Atom (Regex.Char p)) (Regex.literal pattern)) in H.
    cbn [Regex.matcher snd fst Regex.atom_matches] in H.
    destruct after as [|c after]; [discriminate|].
    destruct (N.eqb_spec (Regex.canonicalize unicode_upper p)
                (Regex.canonicalize unicode_upper c)) as [Hc|Hc];
      [|discriminate].
    apply IH in H as (mid & rest & -> & Hmid).
    exists (c :: mid), rest. split; [reflexivity|].
    constructor; assumption.
Qed.

Lemma literal_pattern_match_at (pattern before after : jsstring) :
  (exists y,
     Regex.match_at unicode_upper (PrivacySpec.literal_pattern pattern)
       (before, after) = Some y)
  <-> exists mid rest, after = mid ++ rest /\ same pattern mid.
Proof.
  unfold Regex.match_at, PrivacySpec.literal_pattern, PrivacyDetector.re_i.
  cbn [Regex.source Regex.ignoreCase]. split.
  - intros (y & H). eapply literal_matcher_sound. exact H.
  - intros (mid & rest & -> & Hmid).
    eexists. exact (literal_matcher_complete before rest (fun y => Some y) Hmid).
Qed.

(** The expression of a literal pattern matches a text exactly when the
    text holds the characters of the pattern somewhere, letter case
    apart. *)
Lemma literal_pattern_test (pattern text : jsstring) :
  Regex.test unicode_upper (PrivacySpec.literal_pattern pattern) text = true
  <-> PatternSpec.occurs_in unicode_upper pattern text.
Proof.
  unfold Regex.test, PatternSpec.occurs_in. generalize (@nil N) as before.
  induction text as [|c after IH]; intros before; cbn [Regex.search].
  - destruct (Regex.match_at _ _ _) as [y|] eqn:E.
    + split; [intros _|reflexivity].
      destruct (proj1 (literal_pattern_match_at pattern before [])
                  (ex_intro _ y E)) as (mid & rest & Heq & Hmid).
      exists [], mid, rest. split; [exact Heq|exact Hmid].
    + split; [discriminate|]. intros (pre & mid & post & Heq & Hmid).
      symmetry in Heq. apply app_eq_nil in Heq as [-> Heq].
      assert (Hex : exists y,
                Regex.match_at unicode_upper
                  (PrivacySpec.literal_pattern pattern) (before, []) = Some y).
      { apply literal_pattern_match_at. exists mid, post.
        split; [symmetry; exact Heq|exact Hmid]. }
      destruct Hex as (y & Hy).
      enough (Some y = None) by discriminate. rewrite <- Hy. exact E.
  - destruct (Regex.match_at _ _ _) as [y|] eqn:E.
    + split; [intros _|reflexivity].
      destruct (proj1 (literal_pattern_match_at pattern before (c :: after))
                  (ex_intro _ y E)) as (mid & rest & Heq & Hmid).
      exists [], mid, rest. split; [exact Heq|exact Hmid].
    + rewrite (IH (c :: before)). split.
      * intros (pre & mid & post & -> & Hmid).
        exists (c :: pre), mid, post. split; [reflexivity|exact Hmid].
      * intros (pre & mid & post & Heq & Hmid).
        destruct pre as [|c' pre].
        -- exfalso.
           assert (Hex : exists y,
                     Regex.match_at unicode_upper
                       (PrivacySpec.literal_pattern pattern)
                       (before, c :: after) = Some y).
           { apply literal_pattern_match_at. exists mid, post.
             split; [exact Heq|exact Hmid]. }
           destruct Hex as (y & Hy).
      enough (Some y = None) by discriminate. rewrite <- Hy. exact E.
        -- injection Heq as <- ->. exists pre, mid, post.
           split; [reflexivity|exact Hmid].
Qed.

End LiteralPatterns.

(** X17. A custom pattern is taken literally.  [initialize] puts a
    backslash before every character of the pattern that means
    something in a regular expression and hands the result to the
    [RegExp] constructor.  The constructor takes every source escaped
    this way, so no pattern is left out, and the expression it makes
    matches a text exactly when the text holds the characters of the
    pattern somewhere, letter case apart.  This expression is among the
    patterns of a detector made from a configuration that lists the
    pattern. *)
Theorem custom_pattern_is_literal
  (unicode_upper : N -> N) (pattern text : jsstring) :
  exists re,
    PrivacyDetector.new_RegExp_i (PrivacyDetector.escape pattern) = Some re
    /\ (Regex.test unicode_upper re text = true
        <-> PatternSpec.occurs_in unicode_upper pattern text)
    /\ (forall config patterns,
          PrivacyDetector.customPatterns config = Some patterns ->
          In pattern patterns ->
          In re (PrivacyDetector.privacyPatterns
                   (PrivacyDetector.createPrivacyDetector config))).
Proof.
  exists (PrivacySpec.literal_pattern pattern). split; [|split].
  - unfold PrivacyDetector.new_RegExp_i. rewrite escape_parses. reflexivity.
  - apply literal_pattern_test.
  - intros config patterns Hc Hin. rewrite createPrivacyDetector_patterns.
    unfold PrivacySpec.indicator_patterns. rewrite Hc.
    apply in_or_app. right. apply in_map. exact Hin.
Qed.

(** The grammar on a pattern of the detector's own, and on sources the
    constructor does not take. *)
Example parse_to_us :
  RegExpSyntax.parse (str "to\s+(us|me)\b")
  = Some
      (Regex.seq_of
         [ Regex.Atom (Regex.Char 116); Regex.Atom (Regex.Char 111);
           Regex.spaces; Regex.Alt (Regex.lit "us") (Regex.lit "me");
           Regex.WordBoundary ]).
Proof. vm_compute. reflexivity. Qed.

Example parse_rejects :
  RegExpSyntax.parse (str "+a") = None
  /\ RegExpSyntax.parse (str "(a") = None
  /\ RegExpSyntax.parse (str "a)") = None
  /\ RegExpSyntax.parse (str "a\") = None
  /\ RegExpSyntax.parse (str "(?i)don't tell anyone") = None.
Proof. repeat split; vm_compute; reflexivity. Qed.

Example escape_readme_pattern :
  PrivacyDetector.escape (str "(?i)don't tell anyone")
  = str "\(\?i\)don't tell anyone".
Proof. vm_compute. reflexivity. Qed.

(** The custom patterns of the README start with [(?i)]: escaped, they
    ask for these four characters in the text. *)
Example readme_custom_pattern :
  Regex.test SampleDetector.unicode_upper
    (PrivacySpec.literal_pattern (str "(?i)don't tell anyone"))
    (str "Please don't tell anyone.") = false
  /\ Regex.test SampleDetector.unicode_upper
       (PrivacySpec.literal_pattern (str "(?i)don't tell anyone"))
       (str "Write (?I)Don't Tell Anyone here") = true.
Proof. split; vm_compute; reflexivity. Qed.

(** ** The properties on the sample runs *)

Lemma saves_within_one_second_share_a_file_witness :
  id SampleRuns.saved_again_thought = id Sample.saved_thought
  /\ filepath SampleRuns.saved_again_thought = filepath Sample.saved_thought
  /\ readdir (fsys (snd SampleRuns.saved_again))
       (StorageManager.privateDir Sample.config)
     = readdir (fsys (snd Sample.saved)) (StorageManager.privateDir Sample.config)
  /\ fst (StorageManager.readEncryptedThought (filepath Sample.saved_thought)
            (snd SampleRuns.saved_again)) = Ok SampleRuns.blob2.
Proof.
  apply (@saves_within_one_second_share_a_file Sample.config Sample.blob
           SampleRuns.blob2 (Sample.world Sample.fs_absent) (snd Sample.saved)
           (snd SampleRuns.saved_again)).
  - unfold StorageSpec.time_moves_forward. cbn [latency Sample.world].
    repeat constructor; discriminate.
  - apply run_eta. vm_compute. reflexivity.
  - apply run_eta. vm_compute. reflexivity.
  - vm_compute. reflexivity.
Defined.

Lemma save_adds_one_thought_to_the_stats_witness :
  exists s',
    fst (StorageManager.getStorageStats Sample.config Sample.limit
           (snd SampleRuns.saved_later))
    = Ok s'
    /\ count s' = (count SampleRuns.stats_before + 1)%Z
    /\ totalSizeBytes s'
       = (totalSizeBytes SampleRuns.stats_before
          + Z.of_nat (length SampleRuns.blob2))%Z.
Proof.
  apply (@save_adds_one_thought_to_the_stats Sample.config Sample.limit
           SampleRuns.blob2 SampleRuns.later (snd SampleRuns.saved_later)
           SampleRuns.saved_later_thought Sample.listing_mixed).
  - reflexivity.
  - reflexivity.
  - unfold Sample.listing_mixed.
    repeat (constructor;
            [repeat split;
             [ intros E; vm_compute in E; discriminate
             | apply literal_chars; reflexivity
             | intros E; vm_compute in E; discriminate
             | intros E; vm_compute in E; discriminate ]|]).
    constructor.
  - vm_compute. reflexivity.
  - vm_compute. reflexivity.
  - apply run_eta. vm_compute. reflexivity.
  - vm_compute. intuition discriminate.
Defined.

Lemma key_survives_restart_witness :
  access (fsys SampleKeys.running) (Config.keyFile SampleKeys.config) = Ok tt
  /\ forall later,
       access (fsys later) (Config.keyFile SampleKeys.config) = Ok tt ->
       readFile (fsys later) (Config.keyFile SampleKeys.config)
       = readFile (fsys SampleKeys.running) (Config.keyFile SampleKeys.config) ->
       EncryptionManager.createEncryptionManager SampleKeys.config later
       = (Ok SampleKeys.manager, elapse (elapse later)).
Proof.
  apply (@key_survives_restart SampleKeys.config (Sample.world empty_fs)
           SampleKeys.running SampleKeys.manager).
  apply run_eta. vm_compute. reflexivity.
Defined.

Lemma thought_recovered_after_restart_witness :
  exists w4 w5,
    EncryptionManager.createEncryptionManager SampleKeys.config
      (snd SampleRuns.stored) = (Ok SampleKeys.manager, w4)
    /\ StorageManager.readEncryptedThought (filepath SampleRuns.stored_thought) w4
       = (Ok SampleRuns.blob, w5)
    /\ fst (EncryptionManager.decrypt SampleKeys.manager SampleRuns.blob w5)
       = Ok SampleKeys.text.
Proof.
  apply (@thought_recovered_after_restart SampleKeys.config Sample.config
           SampleKeys.text (Sample.world empty_fs) SampleKeys.running
           (snd SampleRuns.encrypted) (snd SampleRuns.stored)).
  - apply run_eta. vm_compute. reflexivity.
  - vm_compute. reflexivity.
  - apply run_eta. vm_compute. reflexivity.
  - apply run_eta. vm_compute. reflexivity.
  - intros E. vm_compute in E. discriminate.
  - intros E. vm_compute in E. discriminate.
Defined.

Lemma decrypt_accepts_whole_blocks_only_witness :
  length (EncryptionManager.key SampleKeys.manager) = 32%nat
  /\ (32 <= length SampleRuns.blob)%nat
  /\ (length SampleRuns.blob mod 16 = 0)%nat
  /\ snd (EncryptionManager.decrypt SampleKeys.manager SampleRuns.blob
            SampleKeys.running) = SampleKeys.running.
Proof.
  apply (@decrypt_accepts_whole_blocks_only SampleKeys.manager SampleRuns.blob
           SampleKeys.running SampleKeys.text).
  vm_compute. reflexivity.
Defined.

Lemma segments_are_trimmed_pieces_witness :
  str "Keep this to yourself." <> []
  /\ JSString.trim (str "Keep this to yourself.") = str "Keep this to yourself."
  /\ Regex.is_whitespace (hd 0%N (str "Keep this to yourself.")) = false
  /\ Regex.is_whitespace (last (str "Keep this to yourself.") 0%N) = false
  /\ Forall (fun c => In c SampleTexts.three_paragraphs)
       (str "Keep this to yourself.").
Proof.
  apply (@segments_are_trimmed_pieces SampleDetector.unicode_upper
           Sample.limit SampleTexts.three_paragraphs
           [ str "The meeting is at noon."; str "Keep this to yourself.";
             str "See you there!" ]
           (str "Keep this to yourself.")).
  - vm_compute. reflexivity.
  - right. left. reflexivity.
Defined.
